(** * Deassimilation: a shallow embedding of the migration engine

    The development follows the two Python modules of the repository:
    [DeassimilateProcess.py] (path mapping, attribute copy, the scoped
    rename around the metadata query, and the per-directory migration)
    and [DirectoryWalker.py] (worker loop, scheduler loop, walker
    construction).

    Python strings are [string]s, Python ints are [Z], dictionaries are
    [gmap]s, and every function that touches the file system is a
    computation in a small state-and-exception monad over an explicit
    [world]. *)

From Stdlib Require Import ssreflect ZArith Ascii String Lia.
From stdpp Require Import base option list strings gmap.

Set Warnings "-rewrite-rw".
Local Open Scope general_if_scope.
Local Open Scope Z_scope.

(* ================================================================== *)
(** * Part I: definitions                                              *)
(* ================================================================== *)

(* ------------------------------------------------------------------ *)
(** ** Python string primitives                                        *)
(* ------------------------------------------------------------------ *)

Definition slash : ascii := "/"%char.
Definition qmark : ascii := "?"%char.
Definition dot : ascii := "."%char.

Definition is_slash (c : ascii) : bool := bool_decide (c = slash).

(** [len(s)] *)
Definition len (s : string) : Z := Z.of_nat (String.length s).

(** [s[n:]] for a non-negative [n] *)
Fixpoint drop_str (n : nat) (s : string) : string :=
  match n, s with
  | O, _ => s
  | S _, EmptyString => EmptyString
  | S n', String _ s' => drop_str n' s'
  end.

(** [s[:n]] for a non-negative [n] *)
Fixpoint take_str (n : nat) (s : string) : string :=
  match n, s with
  | O, _ => EmptyString
  | S _, EmptyString => EmptyString
  | S n', String c s' => String c (take_str n' s')
  end.

(** [s.lstrip("/")] *)
Fixpoint lstrip_slash (s : string) : string :=
  match s with
  | String c s' => if is_slash c then lstrip_slash s' else s
  | EmptyString => EmptyString
  end.

(** [s.rstrip("/")] *)
Fixpoint rstrip_slash (s : string) : string :=
  match s with
  | EmptyString => EmptyString
  | String c s' =>
      match rstrip_slash s' with
      | EmptyString => if is_slash c then EmptyString else String c EmptyString
      | r => String c r
      end
  end.

(** [s.endswith("/")] *)
Fixpoint endswith_slash (s : string) : bool :=
  match s with
  | EmptyString => false
  | String c EmptyString => is_slash c
  | String _ s' => endswith_slash s'
  end.

(** [s.startswith("/")] *)
Definition startswith_slash (s : string) : bool :=
  match s with
  | String c _ => is_slash c
  | EmptyString => false
  end.

(** [c in s] for a one-character [c] *)
Fixpoint contains_char (c : ascii) (s : string) : bool :=
  match s with
  | EmptyString => false
  | String d s' => bool_decide (d = c) || contains_char c s'
  end.

(** [s.split("/")]: never empty, one more field than there are slashes *)
Fixpoint split_slash (s : string) : list string :=
  match s with
  | EmptyString => [EmptyString]
  | String c s' =>
      if is_slash c then EmptyString :: split_slash s'
      else match split_slash s' with
           | x :: xs => String c x :: xs
           | [] => [String c EmptyString]
           end
  end.

(** ["/".join(l)] *)
Fixpoint join_slash (l : list string) : string :=
  match l with
  | [] => EmptyString
  | [x] => x
  | x :: xs => x +:+ String slash (join_slash xs)
  end.

(** [s.replace("?", "_TEMPQMARK_")] *)
Fixpoint replace_qmark (s : string) : string :=
  match s with
  | EmptyString => EmptyString
  | String c s' =>
      if bool_decide (c = qmark) then "_TEMPQMARK_" +:+ replace_qmark s'
      else String c (replace_qmark s')
  end.

(** [needle in s] for strings: substring test *)
Fixpoint is_prefix_str (p s : string) : bool :=
  match p, s with
  | EmptyString, _ => true
  | String a p', String b s' => bool_decide (a = b) && is_prefix_str p' s'
  | String _ _, EmptyString => false
  end.

Fixpoint is_substring (needle s : string) : bool :=
  is_prefix_str needle s ||
  match s with
  | EmptyString => false
  | String _ s' => is_substring needle s'
  end.

(** [s.rfind(".")], as an option instead of Python's [-1] *)
Fixpoint rfind_dot (s : string) : option nat :=
  match s with
  | EmptyString => None
  | String c s' =>
      match rfind_dot s' with
      | Some i => Some (S i)
      | None => if bool_decide (c = dot) then Some O else None
      end
  end.

(** [s.lower()] for ASCII text: the letters A to Z are lowered.  It is
    the lowering of the examples, whose names are ASCII; the statement
    about the summary is made for the parameter [str_lower] of the
    engine instead. *)
Definition lower_char (c : ascii) : ascii :=
  let n := nat_of_ascii c in
  if (65 <=? n)%nat && (n <=? 90)%nat then ascii_of_nat (n + 32) else c.

Fixpoint lower (s : string) : string :=
  match s with
  | EmptyString => EmptyString
  | String c s' => String (lower_char c) (lower s')
  end.

(* ------------------------------------------------------------------ *)
(** ** [pathlib.PurePosixPath] and [os.path.join]                      *)
(* ------------------------------------------------------------------ *)

(** A parsed path: the root (one of the empty string, "/" and "//")
    and the components after it. *)
Record PurePath := mkPath { root : string; parts : list string }.

(** A component survives parsing when it is neither empty nor ".". *)
Definition keep_part (x : string) : bool :=
  negb (bool_decide (x = EmptyString)) && negb (bool_decide (x = ".")).

(** [_PosixFlavour.splitroot]: exactly two leading slashes are kept as
    the root "//", any other number of them is the root "/". *)
Definition splitroot (part : string) : string * string :=
  if startswith_slash part then
    let stripped := lstrip_slash part in
    if (String.length part - String.length stripped =? 2)%nat
    then ("//", stripped) else ("/", stripped)
  else (EmptyString, part).

(** [Path(s)] *)
Definition Path (s : string) : PurePath :=
  let '(r, rel) := splitroot s in
  mkPath r (filter (fun x => Is_true (keep_part x)) (split_slash rel)).

(** [a / b]: a rooted right operand replaces the left one *)
Definition truediv (a b : PurePath) : PurePath :=
  if bool_decide (root b = EmptyString)
  then mkPath (root a) (parts a ++ parts b)
  else b.

(** [str(p)] *)
Definition path_str (p : PurePath) : string :=
  match root p, parts p with
  | EmptyString, [] => "."
  | r, ps => r +:+ join_slash ps
  end.

(** [p.name] *)
Definition path_name (p : PurePath) : string := List.last (parts p) EmptyString.

(** [p.with_name(n)] for a path with a non-empty name and a valid [n] *)
Definition with_name (p : PurePath) (n : string) : PurePath :=
  mkPath (root p) (removelast (parts p) ++ [n]).

(** [p.suffix] *)
Definition path_suffix (p : PurePath) : string :=
  let name := path_name p in
  match rfind_dot name with
  | Some i =>
      if (0 <? i)%nat && (i <? String.length name - 1)%nat
      then drop_str i name else EmptyString
  | None => EmptyString
  end.

(** [os.path.join(a, b)] *)
Definition os_path_join (a b : string) : string :=
  if startswith_slash b then b
  else if bool_decide (a = EmptyString) || endswith_slash a then a +:+ b
  else a +:+ String slash b.

(** [combine_paths(base_path, sub_path)] *)
Definition combine_paths (base_path sub_path : string) : string :=
  let stripped_sub := lstrip_slash sub_path in
  let combined := truediv (Path base_path) (Path stripped_sub) in
  if negb (endswith_slash (path_str combined))
  then path_str combined +:+ "/"
  else path_str combined +:+ "/".

(** The path mapping at the head of [deassimilate_dir]:
    the target directory of the source directory [dirpath]. *)
Definition compute_vol_path (sharemnt share_root volmnt dirpath : string) : string :=
  if negb (len sharemnt =? len dirpath) then
    let temp_path := combine_paths volmnt share_root in
    combine_paths temp_path (drop_str (String.length sharemnt) dirpath)
  else combine_paths volmnt share_root.

(** A parsed path is absolute when it has a root. *)
Definition is_absolute (p : PurePath) : bool :=
  negb (bool_decide (root p = EmptyString)).

(* ------------------------------------------------------------------ *)
(** ** Exceptions, the world, and the monad                            *)
(* ------------------------------------------------------------------ *)

(** Instances of Python's [Exception].  [OSError] stands for the class
    and its subclasses ([FileNotFoundError], [FileExistsError], ...) and
    carries [errno]; [JSONDecodeError] is what [json.load] raises and
    [QueueEmpty] what a timed-out [Queue.get] raises.  The string is
    what [str(e)] returns.  [SystemExit] and [KeyboardInterrupt], which
    are no instances of [Exception] and pass every handler below, are
    not among them: a computation here runs to its end. *)
Inductive exn :=
| OSError (errno : Z) (text : string)
| JSONDecodeError (text : string)
| TypeError (text : string)
| RuntimeError (text : string)
| QueueEmpty
| OtherException (text : string).

Definition str_exn (e : exn) : string :=
  match e with
  | OSError _ t | JSONDecodeError t | TypeError t | RuntimeError t | OtherException t => t
  | QueueEmpty => ""
  end.

Definition ENOENT : Z := 2.
Definition EEXIST : Z := 17.
Definition ENOTDIR : Z := 20.
Definition EINVAL : Z := 22.

Inductive result (A : Type) :=
| Ok (a : A)
| Raise (e : exn).
Arguments Ok {A} a.
Arguments Raise {A} e.

(** [os.stat_result], the fields the program reads *)
Record stat_result := mkStat {
  st_mode : Z; st_uid : Z; st_gid : Z;
  st_size : Z; st_atime : Z; st_mtime : Z }.

(** One placement of a file's content: the volume id and the
    volume-relative path. *)
Record PlacementInstance := mkInstance { obs : Z; path : string }.

(** The document the metadata side channel returns for a file; the
    ['instance'] and ['archive'] keys may be absent. *)
Record inode_info := mkInfo {
  instance : option (list PlacementInstance);
  archive : option (list PlacementInstance) }.

(** What reading the side channel of a file yields: text that
    [json.load] rejects, or a document. *)
Inductive attr_text :=
| Malformed
| Document (d : inode_info).

(** A directory entry with the attributes of its inode.  A hard link is
    a second entry holding a copy of the attributes. *)
Record inode := mkInode {
  i_stat : stat_result;
  i_link : string;
  i_info : attr_text }.

Inductive syscall :=
| Sys_lstat (p : string)
| Sys_readlink (p : string)
| Sys_symlink (dest p : string)
| Sys_isdir (p : string)
| Sys_makedirs (p : string)
| Sys_link (src dst : string)
| Sys_lchown (p : string) (uid gid : Z)
| Sys_chmod (p : string) (mode : Z)
| Sys_utime (p : string) (atime mtime : Z)
| Sys_move (src dst : string)
| Sys_open (p : string).

Inductive level := DEBUG | INFO | WARNING | ERROR.

(** A value interpolated into an f-string *)
Inductive fval :=
| FStr (s : string)
| FInt (z : Z)
| FExn (e : exn).

(** A call of a logger method: the level, the literal text of the
    f-string, and the interpolated values. *)
Record log_record := mkLog { lr_level : level; lr_text : string; lr_args : list fval }.

(** The logger object handed to the engine ([None] when absent) *)
Record Logger := mkLogger { lg_name : string; lg_level : level }.

(** The share mount and the volume mount are two file systems, each
    keyed by the normalised path; the world also records every record
    handed to the logger and every system call made, oldest first. *)
Record world := mkWorld {
  share : gmap string inode;
  volume : gmap string inode;
  log : list log_record;
  calls : list syscall }.

(** The kernel resolves a path up to repeated and trailing slashes and
    "." components. *)
Definition key (p : string) : string := path_str (Path p).

(** Computations over a state [S] that return a value or raise *)
Definition St (S A : Type) : Type := S → result A * S.

Definition ret {S A} (a : A) : St S A := fun w => (Ok a, w).
Definition raise {S A} (e : exn) : St S A := fun w => (Raise e, w).
Definition bind {S A B} (c : St S A) (k : A → St S B) : St S B :=
  fun w => match c w with
           | (Ok a, w') => k a w'
           | (Raise e, w') => (Raise e, w')
           end.

(** [try: c  except Exception as e: h e] *)
Definition try_except {S A} (c : St S A) (h : exn → St S A) : St S A :=
  fun w => match c w with
           | (Ok a, w') => (Ok a, w')
           | (Raise e, w') => h e w'
           end.

(** [try: c  except OSError as e: h e.errno e] *)
Definition try_except_OSError {S A} (c : St S A) (h : Z → exn → St S A) : St S A :=
  try_except c (fun e => match e with
                         | OSError n _ => h n e
                         | _ => raise e
                         end).

(** The engine's computations run over the [world]. *)
Abbreviation M := (St world).

Declare Scope py_scope.
Delimit Scope py_scope with py.
Notation "x <- c ;; k" := (bind c (fun x => k))
  (at level 100, c at next level, right associativity) : py_scope.
Notation "c ;; k" := (bind c (fun _ => k))
  (at level 100, right associativity) : py_scope.
Local Open Scope py_scope.

Definition trace (c : syscall) : M unit :=
  fun w => (Ok tt, mkWorld (share w) (volume w) (log w) (calls w ++ [c])).

Definition emit (r : log_record) : M unit :=
  fun w => (Ok tt, mkWorld (share w) (volume w) (log w ++ [r]) (calls w)).

Definition get_share : M (gmap string inode) := fun w => (Ok (share w), w).
Definition get_volume : M (gmap string inode) := fun w => (Ok (volume w), w).
Definition put_share (s : gmap string inode) : M unit :=
  fun w => (Ok tt, mkWorld s (volume w) (log w) (calls w)).
Definition put_volume (v : gmap string inode) : M unit :=
  fun w => (Ok tt, mkWorld (share w) v (log w) (calls w)).

(** [if logger is not None: logger.<level>(f"...")] *)
Definition log_to (logger : option Logger) (l : level) (text : string) (args : list fval) : M unit :=
  match logger with
  | Some _ => emit (mkLog l text args)
  | None => ret tt
  end.

(* ------------------------------------------------------------------ *)
(** ** The [stat] module                                               *)
(* ------------------------------------------------------------------ *)

Definition S_IFMT (mode : Z) : Z := Z.land mode 61440.   (* 0o170000 *)
Definition S_IMODE (mode : Z) : Z := Z.land mode 4095.   (* 0o7777 *)
Definition S_ISDIR (mode : Z) : bool := S_IFMT mode =? 16384.   (* 0o040000 *)
Definition S_ISCHR (mode : Z) : bool := S_IFMT mode =? 8192.    (* 0o020000 *)
Definition S_ISBLK (mode : Z) : bool := S_IFMT mode =? 24576.   (* 0o060000 *)
Definition S_ISREG (mode : Z) : bool := S_IFMT mode =? 32768.   (* 0o100000 *)
Definition S_ISFIFO (mode : Z) : bool := S_IFMT mode =? 4096.   (* 0o010000 *)
Definition S_ISLNK (mode : Z) : bool := S_IFMT mode =? 40960.   (* 0o120000 *)
Definition S_ISSOCK (mode : Z) : bool := S_IFMT mode =? 49152.  (* 0o140000 *)

(** [get_filetype(file_stat)]; [None] is Python's [None]. *)
Definition get_filetype (file_stat : stat_result) : option string :=
  let file_stat_mode := st_mode file_stat in
  if S_ISREG file_stat_mode then Some "REGULAR"
  else if S_ISLNK file_stat_mode then Some "SYMLINK"
  else if S_ISFIFO file_stat_mode then Some "FIFO"
  else if S_ISSOCK file_stat_mode then Some "SOCK"
  else if S_ISBLK file_stat_mode then Some "DEVBLK"
  else if S_ISCHR file_stat_mode then Some "DEVCHR"
  else if S_ISDIR file_stat_mode then Some "DIR"
  else None.

(* ------------------------------------------------------------------ *)
(** ** The [os] and [shutil] calls the engine makes                    *)
(* ------------------------------------------------------------------ *)

Definition no_such (p : string) : exn := OSError ENOENT ("No such file or directory: " +:+ p).
Definition file_exists (p : string) : exn := OSError EEXIST ("File exists: " +:+ p).

(** [os.lstat(p)], on the share: the entry named, a symbolic link
    included.  [key] drops a trailing slash, with which the call would
    follow a link; the engine joins names without one. *)
Definition os_lstat (p : string) : M stat_result :=
  trace (Sys_lstat p);;
  s <- get_share;;
  match s !! key p with
  | Some n => ret (i_stat n)
  | None => raise (no_such p)
  end.

(** [os.readlink(p)], on the share *)
Definition os_readlink (p : string) : M string :=
  trace (Sys_readlink p);;
  s <- get_share;;
  match s !! key p with
  | Some n => if S_ISLNK (st_mode (i_stat n)) then ret (i_link n)
              else raise (OSError EINVAL ("Invalid argument: " +:+ p))
  | None => raise (no_such p)
  end.

(** [shutil.move(src, dst)], on the share, of an entry onto a name that
    is not an existing directory: [os.rename], which replaces [dst].
    Onto a directory, or a symbolic link to one, the call would move
    [src] into it; the statements that depend on the move exclude
    this. *)
Definition shutil_move (src dst : string) : M unit :=
  trace (Sys_move src dst);;
  s <- get_share;;
  match s !! key src with
  | Some n => put_share (<[key dst := n]> (delete (key src) s))
  | None => raise (no_such src)
  end.

(** [with open(attr_path) as fp: json.load(fp)] where [attr_path] is
    [p + "?.attribute=inode_info"]: the side channel of the entry [p]. *)
Definition load_inode_info (p : string) : M inode_info :=
  trace (Sys_open (p +:+ "?.attribute=inode_info"));;
  s <- get_share;;
  match s !! key p with
  | Some n => match i_info n with
              | Document d => ret d
              | Malformed => raise (JSONDecodeError "Expecting value")
              end
  | None => raise (no_such (p +:+ "?.attribute=inode_info"))
  end.

(** [os.path.isdir(p)], on the volume *)
Definition os_path_isdir (p : string) : M bool :=
  trace (Sys_isdir p);;
  v <- get_volume;;
  match v !! key p with
  | Some n => ret (S_ISDIR (st_mode (i_stat n)))
  | None => ret false
  end.

(** A freshly made entry is owned by the caller (uid and gid 0). *)
Definition new_dir : inode := mkInode (mkStat 16895 0 0 0 0 0) "" Malformed.       (* 0o040777 *)
Definition new_symlink (dest : string) : inode :=
  mkInode (mkStat 41471 0 0 (len dest) 0 0) dest Malformed.                         (* 0o120777 *)

(** The prefixes of a parsed path, shortest first, the path itself last *)
Definition ancestors_and_self (p : PurePath) : list string :=
  map (fun n => path_str (mkPath (root p) (take n (parts p)))) (seq 1 (length (parts p))).

(** [os.makedirs(p, exist_ok=True)], on the volume: every missing
    directory on the way is made; an entry on the way that is not a
    directory stops it. *)
Fixpoint makedirs_from (ks : list string) (p : string) (v : gmap string inode)
  : result unit * gmap string inode :=
  match ks with
  | [] => (Ok tt, v)
  | k :: ks' =>
      match v !! k with
      | None => makedirs_from ks' p (<[k := new_dir]> v)
      | Some n =>
          if S_ISDIR (st_mode (i_stat n)) then makedirs_from ks' p v
          else (Raise (match ks' with [] => file_exists p | _ => OSError ENOTDIR ("Not a directory: " +:+ p) end), v)
      end
  end.

Definition os_makedirs (p : string) : M unit :=
  trace (Sys_makedirs p);;
  v <- get_volume;;
  let '(r, v') := makedirs_from (ancestors_and_self (Path p)) p v in
  put_volume v';;
  match r with
  | Ok _ => ret tt
  | Raise e => raise e
  end.

(** [os.symlink(dest, p)], on the volume, in a directory that is
    there *)
Definition os_symlink (dest p : string) : M unit :=
  trace (Sys_symlink dest p);;
  v <- get_volume;;
  match v !! key p with
  | Some _ => raise (file_exists p)
  | None => put_volume (<[key p := new_symlink dest]> v)
  end.

(** [os.link(src, dst)], on the volume, of a source that is not a
    directory, in a directory that is there *)
Definition os_link (src dst : string) : M unit :=
  trace (Sys_link src dst);;
  v <- get_volume;;
  match v !! key src with
  | None => raise (no_such src)
  | Some n =>
      match v !! key dst with
      | Some _ => raise (file_exists dst)
      | None => put_volume (<[key dst := n]> v)
      end
  end.

Definition set_owner (uid gid : Z) (n : inode) : inode :=
  let s := i_stat n in
  mkInode (mkStat (st_mode s) uid gid (st_size s) (st_atime s) (st_mtime s)) (i_link n) (i_info n).

Definition set_perm (mode : Z) (n : inode) : inode :=
  let s := i_stat n in
  mkInode (mkStat (Z.lor (S_IFMT (st_mode s)) mode) (st_uid s) (st_gid s)
                  (st_size s) (st_atime s) (st_mtime s)) (i_link n) (i_info n).

Definition set_times (atime mtime : Z) (n : inode) : inode :=
  let s := i_stat n in
  mkInode (mkStat (st_mode s) (st_uid s) (st_gid s) (st_size s) atime mtime) (i_link n) (i_info n).

(** An attribute call on the volume entry [p]: the entry named is the
    one changed, no link being followed on the way. *)
Definition update_entry (p : string) (f : inode → inode) : M unit :=
  v <- get_volume;;
  match v !! key p with
  | Some n => put_volume (<[key p := f n]> v)
  | None => raise (no_such p)
  end.

(** [os.lchown(p, uid, gid)] *)
Definition os_lchown (p : string) (uid gid : Z) : M unit :=
  trace (Sys_lchown p uid gid);; update_entry p (set_owner uid gid).

(** [os.chmod(p, mode)] *)
Definition os_chmod (p : string) (mode : Z) : M unit :=
  trace (Sys_chmod p mode);; update_entry p (set_perm mode).

(** [os.utime(p, (atime, mtime))] *)
Definition os_utime (p : string) (atime mtime : Z) : M unit :=
  trace (Sys_utime p atime mtime);; update_entry p (set_times atime mtime).

(* ------------------------------------------------------------------ *)
(** ** DeassimilateProcess.py                                          *)
(* ------------------------------------------------------------------ *)

(** [copy_file_attrs(src, dst, filetype, st, logger)] *)
Definition copy_file_attrs (src dst filetype : string) (st : stat_result)
    (logger : option Logger) : M unit :=
  log_to logger DEBUG "os.lchown({dst}, {uid},{gid}" [FStr dst; FInt (st_uid st); FInt (st_gid st)];;
  os_lchown dst (st_uid st) (st_gid st);;
  let file_permissions_mode := S_IMODE (st_mode st) in
  (if bool_decide (filetype = "REGULAR") || bool_decide (filetype = "DIR") then
     log_to logger DEBUG "os.chmod({dst}, {file_permissions_mode})" [FStr dst; FInt file_permissions_mode];;
     os_chmod dst file_permissions_mode
   else
     if is_substring filetype "SYMLINK" then
       log_to logger DEBUG "os.chmod not supported symlink, mode: {mode}, {dst}" [FInt (st_mode st); FStr dst]
     else
       log_to logger ERROR "os.chmod not support for file type {filetype} with mode {mode} on file {dst}"
         [FStr filetype; FInt (st_mode st); FStr dst]);;
  (if bool_decide (filetype = "REGULAR") || bool_decide (filetype = "DIR") then
     log_to logger DEBUG "os.utime({dst}, {atime}, {mtime}" [FStr dst; FInt (st_atime st); FInt (st_mtime st)];;
     os_utime dst (st_atime st) (st_mtime st)
   else
     log_to logger DEBUG "Filetype {filetype} not supported for setting atime/mtime: {dst} {atime}/{mtime}"
       [FStr filetype; FStr dst; FInt (st_atime st); FInt (st_mtime st)]).

(** [temp_rename(path, func)] *)
Definition temp_rename {A} (path : string) (func : string → M A) : M A :=
  let path_obj := Path path in
  if negb (contains_char qmark (path_name path_obj)) then
    func (path_str path_obj)
  else
    let temp_name := replace_qmark (path_name path_obj) in
    let temp_path := with_name path_obj temp_name in
    shutil_move (path_str path_obj) (path_str temp_path);;
    result <- try_except (func (path_str temp_path))
                (fun e => shutil_move (path_str temp_path) (path_str path_obj);; raise e);;
    shutil_move (path_str temp_path) (path_str path_obj);;
    ret result.

(** [get_inode_info(path)]; the inner [_get_info] is [load_inode_info]. *)
Definition get_inode_info (path : string) : M inode_info :=
  temp_rename path load_inode_info.

(** The summary dictionary [deassimilate_dir] returns *)
Record DirectorySummary := mkSummary {
  directory : string;
  total_files : Z;
  extension_counts : gmap string Z;
  total_size_bytes : Z }.

(** [for instance in range(len(l)): if l[instance]['obs'] == volid: ... break]:
    the first placement on the wanted volume *)
Fixpoint find_instance (l : list PlacementInstance) (volid : Z) : option PlacementInstance :=
  match l with
  | [] => None
  | i :: l' => if obs i =? volid then Some i else find_instance l' volid
  end.

(** [str.lower()].  On ASCII text it lowers the letters A to Z; what it
    does to the other letters is Unicode's case mapping, which the
    engine takes from the interpreter: it is a parameter here. *)
Class StrLower := str_lower : string → string.

Section deassimilate_dir.

Context `{!StrLower}.
Variables (dirpath : string) (logger : option Logger).
Variables (sharemnt share_root volmnt : string) (volid : Z).

(** The [except OSError as e] clause shared by the three link and
    symlink creations: errno 17 is logged at [lvl17]; anything else is
    logged at [lvl] and re-raised, both under [if logger is not None]. *)
Definition on_create_error (lvl17 : level) (text17 : string) (args17 : list fval)
    (lvl : level) (text : string) (args : list fval) (errno : Z) (e : exn) : M unit :=
  if errno =? 17 then
    log_to logger lvl17 text17 args17
  else
    match logger with
    | Some _ => emit (mkLog lvl text (args ++ [FExn e]));; raise e
    | None => ret tt
    end.

(** What [for fn in filenames] does with one entry after its size and
    extension are tallied; a [continue] ends it early. *)
Definition migrate_file (vol_path fn share_full_fname vol_full_fname : string)
    (file_stat : stat_result) : M unit :=
  let filetype := get_filetype file_stat in
  if bool_decide (filetype = Some "REGULAR") then
    log_to logger DEBUG "os.lstat({share_full_fname}) regular file with size {size}"
      [FStr share_full_fname; FInt (st_size file_stat)];;
    inode_info <- get_inode_info share_full_fname;;
    if match instance inode_info with
       | None => true
       | Some l => Z.of_nat (length l) <? 1
       end
    then
      log_to logger ERROR "error {share_full_fname} does not have an instance inode_info section. Skipping..."
        [FStr share_full_fname]
    else
      match find_instance (default [] (instance inode_info)) volid with
      | None =>
          log_to logger ERROR "error {share_full_fname} does not have an instance on needed volume id"
            [FStr share_full_fname]
      | Some inst =>
          let path_instance := os_path_join volmnt (drop_str 1 (path inst)) in
          log_to logger DEBUG "os.link({path_instance}, {vol_full_fname}" [FStr path_instance; FStr vol_full_fname];;
          try_except_OSError (os_link path_instance vol_full_fname)
            (on_create_error
               ERROR "File already exists, skipping, os.link({path_instance}, {vol_full_fname}"
                 [FStr path_instance; FStr vol_full_fname]
               INFO "os.link error on file share {share_full_fname}, {vol_full_fname} volume: {path_instance} instance: {e}"
                 [FStr share_full_fname; FStr vol_full_fname; FStr path_instance])
      end
  else if bool_decide (filetype = Some "SYMLINK") then
    log_to logger DEBUG "os.lstat({size}" [FInt (st_size file_stat)];;
    symlinkdest <- os_readlink share_full_fname;;
    log_to logger DEBUG "os.readlink({share_full_fname}) -> {symlinkdest}" [FStr share_full_fname; FStr symlinkdest];;
    try_except_OSError (os_symlink symlinkdest vol_full_fname)
      (on_create_error
         WARNING "Symlink already exists, skipping, os.symlink({symlinkdest}, {vol_full_fname}) failed"
           [FStr symlinkdest; FStr vol_full_fname]
         ERROR "os.symlink() error on file share:{share_full_fname}, volume:{vol_full_fname}: {e}"
           [FStr share_full_fname; FStr vol_full_fname]);;
    log_to logger DEBUG "os.symlink({symlinkdest}, {vol_full_fname}" [FStr symlinkdest; FStr vol_full_fname];;
    copy_file_attrs share_full_fname vol_full_fname "SYMLINK" file_stat logger
  else
    ret tt.

(** [extension_counts[ext] = extension_counts.get(ext, 0) + 1] and
    [total_size += size] on the two accumulators *)
Definition tally (acc : gmap string Z * Z) (ext : string) (size : Z) : gmap string Z * Z :=
  (<[ext := default 0 (acc.1 !! ext) + 1]> acc.1, acc.2 + size).

(** The extension under which the entry [fn] of [dirpath] is counted *)
Definition ext_of (fn : string) : string :=
  str_lower (path_suffix (Path (os_path_join dirpath fn))).

(** The body of [for fn in filenames]; [acc] holds the locals
    [extension_counts] and [total_size], which are updated before the
    entry is migrated. *)
Definition migrate_entry (vol_path fn : string) (acc : gmap string Z * Z)
  : M (gmap string Z * Z) :=
  let share_full_fname := os_path_join dirpath fn in
  let vol_full_fname := os_path_join vol_path fn in
  log_to logger DEBUG "vol_path: {vol_path}, filename: {fn}" [FStr vol_path; FStr fn];;
  log_to logger DEBUG "share_full_fname: {share_full_fname}" [FStr share_full_fname];;
  log_to logger DEBUG "vol_full_fname: {vol_full_fname}" [FStr vol_full_fname];;
  file_stat <- os_lstat share_full_fname;;
  let acc := tally acc (ext_of fn) (st_size file_stat) in
  migrate_file vol_path fn share_full_fname vol_full_fname file_stat;;
  ret acc.

(** [for fn in filenames: ...] *)
Fixpoint migrate_entries (vol_path : string) (filenames : list string)
    (acc : gmap string Z * Z) : M (gmap string Z * Z) :=
  match filenames with
  | [] => ret acc
  | fn :: rest =>
      acc' <- migrate_entry vol_path fn acc;;
      migrate_entries vol_path rest acc'
  end.

(** The [if not os.path.isdir(vol_path): ... elif os.path.isdir(vol_path): ...]
    block: the target directory is made unless it is there. *)
Definition create_target_dir (vol_path : string) : M unit :=
  isdir <- os_path_isdir vol_path;;
  if negb isdir then
    log_to logger DEBUG "os.makedirs({vol_path})" [FStr vol_path];;
    try_except_OSError (os_makedirs vol_path)
      (fun _ e => log_to logger ERROR "os.makedirs error: {e}" [FExn e])
  else
    isdir' <- os_path_isdir vol_path;;
    if isdir' then log_to logger DEBUG "Directory {vol_path} already exists" [FStr vol_path]
    else ret tt.

(** [deassimilate_dir(dirpath, filenames, logger, sharemnt, share_root, volmnt, volid)] *)
Definition deassimilate_dir (filenames : list string) : M DirectorySummary :=
  log_to logger DEBUG "deassimilate: {dirpath}, # files: {len(filenames)}"
    [FStr dirpath; FInt (Z.of_nat (length filenames))];;
  log_to logger DEBUG "   sharemnt={sharemnt}, share_root={share_root}" [FStr sharemnt; FStr share_root];;
  log_to logger DEBUG "   volmnt={volmnt}, volid={volid}" [FStr volmnt; FInt volid];;
  let vol_path := compute_vol_path sharemnt share_root volmnt dirpath in
  dir_stat <- os_lstat dirpath;;
  let dir_type := get_filetype dir_stat in
  if bool_decide (dir_type = Some "SYMLINK") then
    log_to logger INFO "Directory symlink detected: {dirpath}" [FStr dirpath];;
    let vol_path :=
      if endswith_slash vol_path then path_str (Path (rstrip_slash vol_path)) else vol_path in
    symlinkdest <- os_readlink dirpath;;
    log_to logger DEBUG "os.readlink({dirpath}) -> {symlinkdest}" [FStr dirpath; FStr symlinkdest];;
    try_except_OSError (os_symlink symlinkdest vol_path)
      (on_create_error
         WARNING "Symlink {symlinkdest} already exists!" [FStr symlinkdest]
         ERROR "Symlink {symlinkdest} error: {e}" [FStr symlinkdest]);;
    copy_file_attrs dirpath vol_path "SYMLINK" dir_stat logger;;
    log_to logger INFO "Symlink created: {symlinkdest} -> {dirpath}" [FStr symlinkdest; FStr dirpath];;
    ret (mkSummary dirpath (Z.of_nat (length filenames)) ∅ 0)
  else
    log_to logger DEBUG "From {dirpath} to {vol_path}" [FStr dirpath; FStr vol_path];;
    create_target_dir vol_path;;
    copy_file_attrs dirpath vol_path "DIR" dir_stat logger;;
    acc <- (if 0 <? Z.of_nat (length filenames)
            then migrate_entries vol_path filenames (∅, 0)
            else ret (∅, 0));;
    ret (mkSummary dirpath (Z.of_nat (length filenames)) acc.1 acc.2).

End deassimilate_dir.

(* ------------------------------------------------------------------ *)
(** ** DirectoryWalker.py: results and the worker                      *)
(* ------------------------------------------------------------------ *)

Definition progname : string := "DirectoryWalker".

Record FileResult := mkFileResult {
  fr_filepath : string;
  fr_status : string;
  fr_error : option string }.

Record DirectoryResult := mkDirectoryResult {
  dr_directory : string;
  dr_status : string;
  dr_file_results : list FileResult;
  dr_processing_result : option DirectorySummary;
  dr_error : option string }.

(** What [os.path.isfile(os.path.realpath(entry.path))] comes to for a
    symlink: an answer, or one of the two errors it can raise. *)
Inductive target_check :=
| TargetIsFile (b : bool)
| TargetOSError (errno : Z) (text : string)
| TargetRuntimeError (text : string).

(** What [os.scandir] yields for one entry, with the answers of the
    calls [_get_files_only] makes on it: [entry.is_file(follow_symlinks=False)],
    [entry.is_symlink()], and the check of the symlink's target. *)
Record DirEntry := mkDirEntry {
  de_name : string;
  de_is_file : bool;
  de_is_symlink : bool;
  de_target : target_check }.

(** What a listing comes to: the entries, or the [OSError] raised. *)
Inductive listing :=
| Listed (entries : list DirEntry)
| ListingError (errno : Z) (text : string).

(** A task on the queue: the directory and the (empty) name list; the
    poison pill is [None]. *)
Definition task : Type := option (string * list string).

(** What one [task_queue.get(timeout=1)] does: time out, or hand over
    the next item. *)
Inductive get_outcome :=
| TimedOut
| Got (t : task).

(** A worker process: its view of the world and the result queue it
    posts to. *)
Record worker_state := mkWorker {
  ws_world : world;
  ws_results : list DirectoryResult }.

Definition in_world {A} (c : M A) : St worker_state A :=
  fun s => let '(r, w') := c (ws_world s) in (r, mkWorker w' (ws_results s)).

(** [result_queue.put(r)] *)
Definition result_queue_put (r : DirectoryResult) : St worker_state unit :=
  fun s => (Ok tt, mkWorker (ws_world s) (ws_results s ++ [r])).

(** [task_queue.get(timeout=1)] *)
Definition task_queue_get (g : get_outcome) : St worker_state task :=
  match g with
  | TimedOut => raise QueueEmpty
  | Got t => ret t
  end.

Section worker.

(** The directory listings and the processor function are the worker's
    environment. *)
Variable scandir : string → world → listing.
Variable processor_func : string → list string → option Logger → M DirectorySummary.

(** [os.scandir(dirpath)] *)
Definition os_scandir (dirpath : string) : M (list DirEntry) :=
  fun w => match scandir dirpath w with
           | Listed entries => (Ok entries, w)
           | ListingError n t => (Raise (OSError n t), w)
           end.

(** The body of [for entry in entries] in [_get_files_only] *)
Fixpoint scan_entries (entries : list DirEntry) (logger : option Logger)
    (filenames : list string) : M (list string) :=
  match entries with
  | [] => ret filenames
  | entry :: rest =>
      if de_is_file entry then scan_entries rest logger (filenames ++ [de_name entry])
      else if de_is_symlink entry then
        match de_target entry with
        | TargetIsFile true => scan_entries rest logger (filenames ++ [de_name entry])
        | TargetIsFile false => scan_entries rest logger filenames
        | TargetOSError n t =>
            log_to logger DEBUG "Broken symlink or permission: {e}" [FExn (OSError n t)];;
            scan_entries rest logger filenames
        | TargetRuntimeError t =>
            log_to logger DEBUG "Broken symlink or permission: {e}" [FExn (RuntimeError t)];;
            scan_entries rest logger filenames
        end
      else scan_entries rest logger filenames
  end.

(** [_get_files_only(dirpath, logger)] *)
Definition _get_files_only (dirpath : string) (logger : option Logger) : M (list string) :=
  entries <- os_scandir dirpath;;
  filenames <- scan_entries entries logger [];;
  log_to logger DEBUG "Found {len(filenames)} files" [FInt (Z.of_nat (length filenames))];;
  ret filenames.

(** One turn of [while True] in [_worker_function]; the value is
    [true] when the loop is left by [break]. *)
Definition worker_turn (logger : option Logger) (g : get_outcome) : St worker_state bool :=
  try_except
    (in_world (log_to logger DEBUG "Waiting to take item off queue" []);;
     task <- task_queue_get g;;
     match task with
     | None =>
         in_world (log_to logger DEBUG "Poison pill received" []);;
         ret true
     | Some (directory, _) =>
         in_world (log_to logger DEBUG "queue: {directory}" [FStr directory]);;
         filenames <- in_world (_get_files_only directory logger);;
         dir_result <-
           try_except
             (let file_paths :=
                map (fun filename => path_str (truediv (Path directory) (Path filename))) filenames in
              processing_result <- in_world (processor_func directory filenames logger);;
              in_world (log_to logger DEBUG "Result: {json.dumps(processing_result, indent=4)}" []);;
              let file_results :=
                map (fun file_path => mkFileResult file_path "success" None) file_paths in
              ret (mkDirectoryResult directory "success" file_results (Some processing_result) None))
             (fun e => ret (mkDirectoryResult directory "error" [] None (Some (str_exn e))));;
         result_queue_put dir_result;;
         ret false
     end)
    (fun e =>
       match e with
       | QueueEmpty => ret false
       | _ =>
           in_world (log_to logger DEBUG "Received queue error: {e}" [FExn e]);;
           result_queue_put (mkDirectoryResult "unknown" "error" [] None (Some (str_exn e)));;
           ret false
       end).

(** [while True: ...] over the outcomes of the successive [get] calls;
    [false] when the outcomes run out before a poison pill arrives. *)
Fixpoint worker_loop (logger : option Logger) (gets : list get_outcome) : St worker_state bool :=
  match gets with
  | [] => ret false
  | g :: rest =>
      stop <- worker_turn logger g;;
      if (stop : bool) then ret true else worker_loop logger rest
  end.

(** [_worker_function(task_queue, result_queue, processor_func_serialized, need_logger, **kwargs)] *)
Definition _worker_function (need_logger : bool) (gets : list get_outcome) : St worker_state bool :=
  let logger := if need_logger then Some (mkLogger progname DEBUG) else None in
  worker_loop logger gets.

End worker.

(* ------------------------------------------------------------------ *)
(** ** DirectoryWalker.py: the walker                                  *)
(* ------------------------------------------------------------------ *)

(** A Python value passed by keyword *)
Inductive pyval :=
| PyNone
| PyBool (b : bool)
| PyLogger (l : Logger).

(** The two result processors share their state: three counters and
    the logger. *)
Inductive processor_kind := DefaultProcessor | CustomProcessor.

Record ResultProcessor := mkResultProcessor {
  rp_kind : processor_kind;
  rp_total_directories : Z;
  rp_total_files : Z;
  rp_total_size : Z;
  rp_logger : option Logger }.

(** Binding the keywords of a call to the parameters of a function that
    takes no [**kwargs]: a keyword that names no parameter is a
    [TypeError]. *)
Fixpoint bind_keywords (fname : string) (params : list string)
    (kwargs : list (string * pyval)) : result (list (string * pyval)) :=
  match kwargs with
  | [] => Ok []
  | (k, v) :: rest =>
      if bool_decide (k ∈ params) then
        match bind_keywords fname params rest with
        | Ok bound => Ok ((k, v) :: bound)
        | Raise e => Raise e
        end
      else Raise (TypeError (fname +:+ "() got an unexpected keyword argument '" +:+ k +:+ "'"))
  end.

Definition keyword (k : string) (bound : list (string * pyval)) : pyval :=
  match List.find (fun kv => bool_decide (kv.1 = k)) bound with
  | Some kv => kv.2
  | None => PyNone
  end.

Definition as_logger (v : pyval) : option Logger :=
  match v with
  | PyLogger l => Some l
  | _ => None
  end.

Definition of_logger (l : option Logger) : pyval :=
  match l with
  | Some l => PyLogger l
  | None => PyNone
  end.

(** A call of [DefaultResultProcessor] by keywords; its [__init__(self, logger=None)] *)
Definition DefaultResultProcessor_init (kwargs : list (string * pyval)) : result ResultProcessor :=
  match bind_keywords "DefaultResultProcessor.__init__" ["logger"] kwargs with
  | Ok bound => Ok (mkResultProcessor DefaultProcessor 0 0 0 (as_logger (keyword "logger" bound)))
  | Raise e => Raise e
  end.

Record DirectoryWalker := mkDirectoryWalker {
  max_processes : nat;
  dw_name : string;
  dw_logger : Logger;
  dw_result_processor : ResultProcessor;
  dw_task_queue : list task;
  dw_result_queue : list DirectoryResult }.

(** [DirectoryWalker.__init__(self, processor_func, max_processes, name,
    description, version, logger, result_processor, **kwargs)] *)
Definition DirectoryWalker_init (max_processes : nat) (name : string)
    (logger : option Logger) (result_processor : option ResultProcessor)
  : result DirectoryWalker :=
  let self_logger :=
    match logger with
    | None => mkLogger name DEBUG
    | Some l => l
    end in
  match
    match result_processor with
    | Some rp => Ok rp
    | None => DefaultResultProcessor_init
                [("process_results", PyBool false); ("logger", of_logger logger)]
    end
  with
  | Ok rp => Ok (mkDirectoryWalker max_processes name self_logger rp [] [])
  | Raise e => Raise e
  end.

(** What the scheduler does that a worker or a reader of the log can
    see, oldest first. *)
Inductive sched_event :=
| Ev_log (l : level) (text : string)
| Ev_start (worker : nat)
| Ev_put (t : task)
| Ev_join (worker : nat)
| Ev_await_results.

Section walk_directories.

(** [alive n w]: what [w.is_alive()] answers once [n] tasks have been
    enqueued. *)
Variable alive : nat → nat → bool.

(** [self.workers], by index *)
Definition workers_of (max_processes : nat) : list nat := seq 0 max_processes.

(** [for dirpath, dirnames, filenames in os.walk(root_path)]; [n] tasks
    were enqueued before.  The value is [true] when the loop is left by
    [return]. *)
Fixpoint feed_tasks (workers : list nat) (dirpaths : list string) (n : nat)
  : list sched_event * bool :=
  match dirpaths with
  | [] => ([], false)
  | dirpath :: rest =>
      let put := [Ev_log DEBUG "Putting work on queue for dir: {dirpath}";
                  Ev_put (Some (path_str (Path dirpath), []))] in
      if negb (existsb (alive (S n)) workers) then
        (put ++ [Ev_log ERROR "All the workers are dead!"]
             ++ map Ev_join workers
             ++ [Ev_log ERROR "Workers are cleaned up. Aborting!"], true)
      else
        let '(evs, returned) := feed_tasks workers rest (S n) in
        (put ++ evs, returned)
  end.

(** [walk_directories(self, root_path)], where [dirpaths] is what
    [os.walk(root_path)] yields. *)
Definition walk_directories (self : DirectoryWalker) (dirpaths : list string)
  : list sched_event :=
  let workers := workers_of (max_processes self) in
  let '(fed, returned) := feed_tasks workers dirpaths 0 in
  [Ev_log INFO "Starting directory walk from {root_path}";
   Ev_log DEBUG "Creating {self.max_processes} multiprocessing structures";
   Ev_log DEBUG "Starting {self.max_processes} processes"]
  ++ map Ev_start workers
  ++ fed
  ++ (if returned then []
      else map (fun _ => Ev_put None) workers
           ++ [Ev_log DEBUG "Waiting for worker processes to finish"]
           ++ map Ev_join workers
           ++ [Ev_log DEBUG "Work processes are finished"; Ev_await_results]).

End walk_directories.

(** The items enqueued on the task queue, in order *)
Definition puts (evs : list sched_event) : list task :=
  omap (fun ev => match ev with Ev_put t => Some t | _ => None end) evs.

(** The workers joined, in order *)
Definition joins (evs : list sched_event) : list nat :=
  omap (fun ev => match ev with Ev_join w => Some w | _ => None end) evs.

(* ------------------------------------------------------------------ *)
(** ** Predicates used by the statements                               *)
(* ------------------------------------------------------------------ *)

(** A path component as [Path] produces them: not empty, not ".", and
    without a slash. *)
Definition valid_part (x : string) : bool :=
  keep_part x && negb (contains_char slash x).

Definition valid_root (r : string) : Prop := r = "" ∨ r = "/" ∨ r = "//".

Definition valid_path (p : PurePath) : Prop :=
  valid_root (root p) ∧ Forall (fun x => valid_part x = true) (parts p).

(** [c] leaves the share as it is. *)
Definition share_same {A} (c : M A) : Prop :=
  ∀ w, share (c w).2 = share w.

(** [c] adds no entry to the share and changes none. *)
Definition share_shrinks {A} (c : M A) : Prop :=
  ∀ w, share (c w).2 ⊆ share w.

(** [c] removes no entry from the volume. *)
Definition volume_grows {A} (c : M A) : Prop :=
  ∀ w, dom (volume w) ⊆ dom (volume (c w).2).

(** [c] reads the share only and leaves the volume as it is. *)
Definition share_only {A} (c : M A) : Prop :=
  ∀ g h, share g = share h →
    (c g).1 = (c h).1 ∧ share (c g).2 = share (c h).2
    ∧ volume (c g).2 = volume g ∧ volume (c h).2 = volume h.

(** [c] returns on every world, leaving the share as it is. *)
Definition never_raises (c : M unit) : Prop := ∀ w, (c w).1 = Ok tt.

(** [c] can be run again: when it returned on [g] and every name the
    volume held afterwards is among the names [D] that the volume of
    [h] holds, it returns the same value on [h], on the same share. *)
Definition rerunnable {A} (c : M A) : Prop :=
  ∀ (g h : world) (a : A) (g' : world) (D : gset string),
    share g = share h → c g = (Ok a, g') →
    dom (volume g') ⊆ D → D ⊆ dom (volume h) →
    ∃ h', c h = (Ok a, h') ∧ share g' = share h' ∧ D ⊆ dom (volume h').

(** The world after a record was handed to the logger, if there is one *)
Definition logged (logger : option Logger) (l : level) (text : string) (args : list fval)
    (w : world) : world :=
  match logger with
  | Some _ => mkWorld (share w) (volume w) (log w ++ [mkLog l text args]) (calls w)
  | None => w
  end.

(** The number of entries of [filenames] counted under [ext] *)
Definition count_ext `{!StrLower} (dirpath : string) (filenames : list string) (ext : string) : Z :=
  Z.of_nat (length (filter (fun fn => ext_of dirpath fn = ext) filenames)).

(** The size [os.lstat] reports for the entry [fn] of [dirpath] on the
    share [s] *)
Definition lstat_size (s : gmap string inode) (dirpath fn : string) : Z :=
  match s !! key (os_path_join dirpath fn) with
  | Some n => st_size (i_stat n)
  | None => 0
  end.

Definition sum_sizes (s : gmap string inode) (dirpath : string) (filenames : list string) : Z :=
  foldr Z.add 0 (lstat_size s dirpath <$> filenames).

(** The summary counts every entry passed in: the number of entries,
    for each extension the number of entries bearing it (and no key for
    an extension that no entry bears), and the sum of the sizes. *)
Definition summary_tallies `{!StrLower} (s : gmap string inode) (dirpath : string)
    (filenames : list string) (summary : DirectorySummary) : Prop :=
  total_files summary = Z.of_nat (length filenames)
  ∧ (∀ ext, extension_counts summary !! ext
            = if decide (count_ext dirpath filenames ext = 0) then None
              else Some (count_ext dirpath filenames ext))
  ∧ total_size_bytes summary = sum_sizes s dirpath filenames.

(** The tasks a worker takes off the queue before the first poison
    pill, given the outcomes of its successive [get] calls *)
Fixpoint dequeued_tasks (gets : list get_outcome) : list (string * list string) :=
  match gets with
  | [] => []
  | TimedOut :: rest => dequeued_tasks rest
  | Got None :: _ => []
  | Got (Some t) :: rest => t :: dequeued_tasks rest
  end.

Definition is_pill (g : get_outcome) : bool :=
  match g with
  | Got None => true
  | _ => false
  end.

(** The name [temp_rename] moves the entry [p] to *)
Definition sanitized (p : string) : string :=
  path_str (with_name (Path p) (replace_qmark (path_name (Path p)))).

(** The sanitized name of [p], if [p] needs one, is free on the share. *)
Definition sanitized_free (s : gmap string inode) (p : string) : Prop :=
  contains_char qmark (path_name (Path p)) = true → s !! key (sanitized p) = None.

(** No entry of the directory stands at the sanitized name of another. *)
Definition no_collision (s : gmap string inode) (dirpath : string)
    (filenames : list string) : Prop :=
  ∀ fn, fn ∈ filenames → sanitized_free s (os_path_join dirpath fn).

(** [c] leaves the share as it is when the share satisfies [P]. *)
Definition share_same_when (P : gmap string inode → Prop) {A} (c : M A) : Prop :=
  ∀ w, P (share w) → share (c w).2 = share w.

(* ------------------------------------------------------------------ *)
(** ** A small share and volume                                        *)
(* ------------------------------------------------------------------ *)

(** The names of the examples are ASCII, where [str.lower()] is
    [lower]. *)
#[global] Instance ascii_lower : StrLower := lower.

Definition reg_stat (size : Z) : stat_result := mkStat 33188 1000 1000 size 111 222.   (* 0o100644 *)
Definition lnk_stat (size : Z) : stat_result := mkStat 41471 1000 1000 size 111 222.   (* 0o120777 *)
Definition dir_stat (uid : Z) : stat_result := mkStat 16877 uid uid 4096 333 444.      (* 0o040755 *)
Definition fifo_stat : stat_result := mkStat 4516 1000 1000 0 111 222.                 (* 0o010644 *)

Definition placed (volid : Z) (p : string) : attr_text :=
  Document (mkInfo (Some [mkInstance volid p]) None).

(** The share mounted at /mnt/share: one directory [d] with a regular
    file placed on volume 7, a regular file whose name holds a "?", a
    file with no placement list, a file placed elsewhere only, a file
    whose content is missing from the volume, a symlink and a fifo; and
    a symlink [ln] to that directory, through which the first file is
    reachable as well. *)
Definition example_share : gmap string inode :=
  list_to_map [
    ("/mnt/share", mkInode (dir_stat 0) "" Malformed);
    ("/mnt/share/d", mkInode (dir_stat 1000) "" Malformed);
    ("/mnt/share/d/file.TXT", mkInode (reg_stat 10) "" (placed 7 "/x/file.txt"));
    ("/mnt/share/d/a?b.txt", mkInode (reg_stat 20) "" (placed 7 "/x/ab.txt"));
    ("/mnt/share/d/bad?", mkInode (reg_stat 1) "" Malformed);
    ("/mnt/share/d/noinst", mkInode (reg_stat 3) "" (Document (mkInfo None None)));
    ("/mnt/share/d/empty", mkInode (reg_stat 4) "" (Document (mkInfo (Some []) None)));
    ("/mnt/share/d/other", mkInode (reg_stat 5) "" (placed 8 "/y/other"));
    ("/mnt/share/d/lost.txt", mkInode (reg_stat 6) "" (placed 7 "/x/lost.txt"));
    ("/mnt/share/d/link", mkInode (lnk_stat 8) "file.TXT" Malformed);
    ("/mnt/share/d/pipe", mkInode fifo_stat "" Malformed);
    ("/mnt/share/ln", mkInode (lnk_stat 1) "d" Malformed);
    ("/mnt/share/ln/file.TXT", mkInode (reg_stat 10) "" (placed 7 "/x/file.txt"))
  ].

Definition example_volume : gmap string inode :=
  list_to_map [
    ("/mnt", mkInode (dir_stat 0) "" Malformed);
    ("/mnt/vol", mkInode (dir_stat 0) "" Malformed);
    ("/mnt/vol/x", mkInode (dir_stat 0) "" Malformed);
    ("/mnt/vol/x/file.txt", mkInode (reg_stat 10) "" Malformed);
    ("/mnt/vol/x/ab.txt", mkInode (reg_stat 20) "" Malformed)
  ].

Definition example_world : world := mkWorld example_share example_volume [] [].

Definition example_logger : option Logger := Some (mkLogger "deassimilate" INFO).

(** [deassimilate_dir] on a directory of the example share, towards
    volume 7 mounted at /mnt/vol, the share being rooted at /share1 *)
Definition example_run (dirpath : string) (filenames : list string)
    (logger : option Logger) : M DirectorySummary :=
  deassimilate_dir dirpath logger "/mnt/share" "/share1" "/mnt/vol" 7 filenames.

(** A first run over the example directory, with a logger *)
Definition example_names : list string := ["file.TXT"; "a?b.txt"; "noinst"; "link"; "pipe"].

Definition first_run : result DirectorySummary * world :=
  example_run "/mnt/share/d" example_names example_logger example_world.

Definition first_summary : DirectorySummary :=
  match first_run.1 with
  | Ok s => s
  | Raise _ => mkSummary "" 0 ∅ 0
  end.

(** Two workers that are alive at the check after the first enqueue
    and dead at the check after the second *)
Definition example_alive (n w : nat) : bool := (n <? 2)%nat.

Definition example_walker : DirectoryWalker :=
  mkDirectoryWalker 2 progname (mkLogger progname INFO)
    (mkResultProcessor DefaultProcessor 0 0 0 None) [] [].

(* ------------------------------------------------------------------ *)
(** ** DirectoryWalker.py: the result processors and their thread      *)
(* ------------------------------------------------------------------ *)

(** What the scheduler process writes: a record handed to a logger, or
    a line printed. *)
Inductive output :=
| Logged (r : log_record)
| Printed (text : string) (args : list fval).

(** The thread that handles results works on the result processor
    object and writes as it goes. *)
Record handler_state := mkHandler {
  hs_processor : ResultProcessor;
  hs_out : list output }.

Definition say (o : output) : St handler_state unit :=
  fun s => (Ok tt, mkHandler (hs_processor s) (hs_out s ++ [o])).

Definition get_processor : St handler_state ResultProcessor :=
  fun s => (Ok (hs_processor s), s).

Definition update_processor (f : ResultProcessor → ResultProcessor) : St handler_state unit :=
  fun s => (Ok tt, mkHandler (f (hs_processor s)) (hs_out s)).

(** [self.total_directories += z] *)
Definition add_directories (z : Z) (rp : ResultProcessor) : ResultProcessor :=
  mkResultProcessor (rp_kind rp) (rp_total_directories rp + z) (rp_total_files rp)
    (rp_total_size rp) (rp_logger rp).

(** [self.total_files += z] *)
Definition add_files (z : Z) (rp : ResultProcessor) : ResultProcessor :=
  mkResultProcessor (rp_kind rp) (rp_total_directories rp) (rp_total_files rp + z)
    (rp_total_size rp) (rp_logger rp).

(** [self.total_size += z] *)
Definition add_size (z : Z) (rp : ResultProcessor) : ResultProcessor :=
  mkResultProcessor (rp_kind rp) (rp_total_directories rp) (rp_total_files rp)
    (rp_total_size rp + z) (rp_logger rp).

Definition no_get : exn := OtherException "'NoneType' object has no attribute 'get'".

(** [result.processing_result.get(key, 0)], where the key is one the
    summary holds: an [AttributeError] when there is no processing
    result. *)
Definition processing_result_get (processing_result : option DirectorySummary)
    (field : DirectorySummary → Z) : St handler_state Z :=
  match processing_result with
  | Some summary => ret (field summary)
  | None => raise no_get
  end.

(** [DefaultResultProcessor.process_directory_result(self, result)] *)
Definition Default_process_directory_result (result : DirectoryResult)
  : St handler_state unit :=
  if bool_decide (dr_status result = "success") then
    update_processor (add_directories 1);;
    files <- processing_result_get (dr_processing_result result) total_files;;
    update_processor (add_files files);;
    size <- processing_result_get (dr_processing_result result) total_size_bytes;;
    update_processor (add_size size)
  else ret tt.

(** [if self.logger is not None: self.logger.<level>(f"...") else: print(f"...")] *)
Definition log_or_print (logger : option Logger) (l : level) (logged_text printed_text : string)
    (args : list fval) : St handler_state unit :=
  match logger with
  | Some _ => say (Logged (mkLog l logged_text args))
  | None => say (Printed printed_text args)
  end.

Definition error_text (result : DirectoryResult) : fval :=
  FStr (default "None" (dr_error result)).

(** [CustomResultProcessor.process_directory_result(self, result)] *)
Definition Custom_process_directory_result (result : DirectoryResult)
  : St handler_state unit :=
  self <- get_processor;;
  if bool_decide (dr_status result = "success") then
    update_processor (add_directories 1);;
    log_or_print (rp_logger self) INFO
      "\nDirectory: {result.directory}" "\nProcessed directory: {result.directory}"
      [FStr (dr_directory result)];;
    files <- processing_result_get (dr_processing_result result) total_files;;
    update_processor (add_files files);;
    size <- processing_result_get (dr_processing_result result) total_size_bytes;;
    update_processor (add_size size);;
    log_or_print (rp_logger self) INFO
      "Results: {result.processing_result}" "Results: {result.processing_result}" []
  else
    log_or_print (rp_logger self) ERROR
      "\nError processing directory {result.directory}: {result.error}"
      "\nError processing directory {result.directory}: {result.error}"
      [FStr (dr_directory result); error_text result].

(** [self.result_processor.process_directory_result(result)], by the
    class of the processor *)
Definition process_directory_result (result : DirectoryResult) : St handler_state unit :=
  self <- get_processor;;
  match rp_kind self with
  | DefaultProcessor => Default_process_directory_result result
  | CustomProcessor => Custom_process_directory_result result
  end.

(** [process_file_result(self, result)]: [pass] in both classes *)
Definition process_file_result (result : FileResult) : St handler_state unit := ret tt.

(** [for file_result in result.file_results: ...process_file_result(file_result)] *)
Fixpoint process_file_results (file_results : list FileResult) : St handler_state unit :=
  match file_results with
  | [] => ret tt
  | file_result :: rest =>
      process_file_result file_result;;
      process_file_results rest
  end.

(** One turn of the thread: what [self.result_queue.get(timeout=1)]
    hands over ([None] when it times out), and what
    [any(p.is_alive() for p in self.workers)] answers during the turn. *)
Record handler_turn_env := mkTurn {
  ht_got : option DirectoryResult;
  ht_any_alive : bool }.

(** [self.result_queue.get(timeout=1)] *)
Definition result_queue_get (t : handler_turn_env) : St handler_state DirectoryResult :=
  match ht_got t with
  | Some result => ret result
  | None => raise QueueEmpty
  end.

(** One turn of [while True] in [_results_handler]; the value is [true]
    when the loop is left by [break].  The result processor of a walker
    is never [None]. *)
Definition results_handler_turn (t : handler_turn_env) : St handler_state bool :=
  try_except
    (result <- result_queue_get t;;
     say (Logged (mkLog DEBUG "Got item from results queue" []));;
     process_directory_result result;;
     process_file_results (dr_file_results result);;
     ret false)
    (fun e =>
       match e with
       | QueueEmpty =>
           if negb (ht_any_alive t) then
             say (Logged (mkLog DEBUG "Results queue is empty and workers dead" []));;
             ret true
           else ret false
       | _ =>
           say (Logged (mkLog ERROR "Error processing result: {str(e)}" [FStr (str_exn e)]));;
           ret false
       end).

(** [_results_handler(self)] over the successive turns; [false] when
    the turns run out before the loop is left. *)
Fixpoint _results_handler (turns : list handler_turn_env) : St handler_state bool :=
  match turns with
  | [] => ret false
  | t :: rest =>
      stop <- results_handler_turn t;;
      if (stop : bool) then ret true else _results_handler rest
  end.

(* ------------------------------------------------------------------ *)
(** ** deassimilate.py: the listings and the choice of volume and share *)
(* ------------------------------------------------------------------ *)

(** A value of one of the dictionaries the program builds *)
Inductive jval :=
| JStr (s : string)
| JInt (z : Z).

Global Instance jval_eq_dec : EqDecision jval.
Proof. solve_decision. Defined.

(** An entry of [self.volume_details] or [self.share_details] *)
Definition detail : Type := gmap string jval.

(** An entry of the storage-volumes listing, by the keys the program
    reads: [_type] (which may be absent), [node.name], [name],
    [logicalVolume.exportPath], the [address] of each of
    [logicalVolume.ipAddresses], and [internalId]. *)
Record VolumeEntry := mkVolumeEntry {
  ve_type : option string;
  ve_node_name : string;
  ve_name : string;
  ve_exportPath : string;
  ve_addresses : list string;
  ve_internalId : Z }.

(** An entry of the shares listing: [path], [internalId], [name] and
    [totalNumberOfFiles]. *)
Record ShareEntry := mkShareEntry {
  se_path : string;
  se_internalId : Z;
  se_name : string;
  se_totalNumberOfFiles : Z }.

Definition KeyError (k : string) : exn := OtherException ("'" +:+ k +:+ "'").
Definition IndexError : exn := OtherException "list index out of range".

(** The body of [for volume in volumes_json] up to the [append]: the
    dictionary [res], which stays empty for an entry that is not a
    storage volume. *)
Definition volume_detail (volume : VolumeEntry) : result detail :=
  if bool_decide (ve_type volume = Some "STORAGE_VOLUME") then
    match ve_addresses volume with
    | [] => Raise IndexError
    | address :: _ =>
        Ok (<["id" := JInt (ve_internalId volume)]>
            (<["ip" := JStr address]>
             (<["path" := JStr (ve_exportPath volume)]>
              (<["name" := JStr (ve_name volume)]>
               (<["node_name" := JStr (ve_node_name volume)]> ∅)))))
    end
  else Ok ∅.

(** The body of [for share in shares_json] up to the [append] *)
Definition share_detail (share : ShareEntry) : detail :=
  <["num_files" := JInt (se_totalNumberOfFiles share)]>
  (<["name" := JStr (se_name share)]>
   (<["id" := JInt (se_internalId share)]>
    (<["path" := JStr (se_path share)]> ∅))).

(** [for volume in volumes_json: ... self.volume_details.append(res)] *)
Fixpoint volume_details_of (volumes_json : list VolumeEntry) (volume_details : list detail)
  : result (list detail) :=
  match volumes_json with
  | [] => Ok volume_details
  | volume :: rest =>
      match volume_detail volume with
      | Ok res => volume_details_of rest (volume_details ++ [res])
      | Raise e => Raise e
      end
  end.

(** [get_share_volume(self)], given the two listings the management
    interface returns: [self.volume_details] and [self.share_details],
    both empty before. *)
Definition get_share_volume (volumes_json : list VolumeEntry) (shares_json : list ShareEntry)
  : result (list detail * list detail) :=
  match volume_details_of volumes_json [] with
  | Ok volume_details => Ok (volume_details, share_detail <$> shares_json)
  | Raise e => Raise e
  end.

(** How a call of the main program's methods ends: it returns, raises
    an exception, or leaves the program by [sys.exit(code)]. *)
Inductive outcome (A : Type) :=
| Returns (a : A)
| Raises (e : exn)
| Exits (code : Z).
Arguments Returns {A} a.
Arguments Raises {A} e.
Arguments Exits {A} code.

(** [d[k]] *)
Definition subscript (d : detail) (k : string) : result jval :=
  match d !! k with
  | Some v => Ok v
  | None => Raise (KeyError k)
  end.

(** [for volume in self.volume_details: if volume['id'] == volid:
    self.selected_volume = volume; break], starting from the empty
    dictionary *)
Fixpoint select_volume (volume_details : list detail) (volid : Z) : result detail :=
  match volume_details with
  | [] => Ok ∅
  | volume :: rest =>
      match subscript volume "id" with
      | Ok v => if bool_decide (v = JInt volid) then Ok volume else select_volume rest volid
      | Raise e => Raise e
      end
  end.

(** [for share in self.share_details: if share['id'] == shareid:
    self.selected_share = share; self.args.share_root_path = share['path']; break];
    the second component is [None] while the attribute is not set. *)
Fixpoint select_share (share_details : list detail) (shareid : Z)
  : result (detail * option jval) :=
  match share_details with
  | [] => Ok (∅, None)
  | share :: rest =>
      match subscript share "id" with
      | Ok v =>
          if bool_decide (v = JInt shareid) then
            match subscript share "path" with
            | Ok path => Ok (share, Some path)
            | Raise e => Raise e
            end
          else select_share rest shareid
      | Raise e => Raise e
      end
  end.

(** The f-string of one line of the volume list evaluates
    [volume['id']], [volume['name']], [volume['ip']] and
    [volume['path']], in this order. *)
Fixpoint subscripts (d : detail) (keys : list string) : result (list jval) :=
  match keys with
  | [] => Ok []
  | k :: rest =>
      match subscript d k with
      | Ok v => match subscripts d rest with
                | Ok vs => Ok (v :: vs)
                | Raise e => Raise e
                end
      | Raise e => Raise e
      end
  end.

Definition fval_of (v : jval) : fval :=
  match v with
  | JStr s => FStr s
  | JInt z => FInt z
  end.

(** [for d in details: self.logger.info(f"...")] over the given keys *)
Fixpoint list_details (text : string) (keys : list string) (details : list detail)
    (out : list log_record) : result unit * list log_record :=
  match details with
  | [] => (Ok tt, out)
  | d :: rest =>
      match subscripts d keys with
      | Ok vs => list_details text keys rest (out ++ [mkLog INFO text (fval_of <$> vs)])
      | Raise e => (Raise e, out)
      end
  end.

(** The command line, as far as [run] reads it before mounting *)
Record Args := mkArgs {
  args_list_volumes : bool;
  args_volid : option Z;
  args_shareid : option Z }.

(** What [run] has chosen when it goes on to mount: the volume, the
    share, and [self.args.share_root_path]. *)
Record Selection := mkSelection {
  selected_volume : detail;
  selected_share : detail;
  share_root_path : option jval }.

(** [run(self)] up to the call of [mount_share_volume], given the two
    listings; the second component is what was handed to the logger. *)
Definition run_selection (args : Args) (volumes_json : list VolumeEntry)
    (shares_json : list ShareEntry) : outcome Selection * list log_record :=
  match get_share_volume volumes_json shares_json with
  | Raise e => (Raises e, [])
  | Ok (volume_details, share_details) =>
      if args_list_volumes args then
        match list_details "  {volume['id']}: {volume['name']} {volume['ip']}:{volume['path']}"
                ["id"; "name"; "ip"; "path"] volume_details [mkLog INFO "Volumes:" []] with
        | (Raise e, out) => (Raises e, out)
        | (Ok _, out) =>
            match list_details "  {share['id']}: {share['name']} {share['path']} {share['num_files']} files"
                    ["id"; "name"; "path"; "num_files"] share_details
                    (out ++ [mkLog INFO "Shares:" []]) with
            | (Raise e, out) => (Raises e, out)
            | (Ok _, out) => (Exits 0, out)
            end
        end
      else
        match args_volid args, args_shareid args with
        | Some volid, Some shareid =>
            match select_volume volume_details volid with
            | Raise e => (Raises e, [])
            | Ok selected_volume =>
                if bool_decide (selected_volume = ∅) then
                  (Exits 1, [mkLog ERROR "Volume id: {self.args.volid} not found" [FInt volid]])
                else
                  match select_share share_details shareid with
                  | Raise e => (Raises e, [])
                  | Ok (selected_share, share_root_path) =>
                      if bool_decide (selected_share = ∅) then
                        (Exits 1, [mkLog ERROR "Share id: {self.args.shareid} not found"
                                     [FInt shareid]])
                      else
                        (Returns (mkSelection selected_volume selected_share share_root_path), [])
                  end
            end
        | _, _ => (Exits 1, [mkLog ERROR "Must specify a volume and share" []])
        end
  end.

(** The [try: deassim.run() except Exception as e: ... sys.exit(1)] of
    [main]: an exception becomes exit code 1 after an error record; a
    [sys.exit] passes through. *)
Definition main_run {A} (r : outcome A * list log_record) : outcome A * list log_record :=
  match r with
  | (Raises e, out) =>
      (Exits 1, out ++ [mkLog ERROR "Error during deassimilation: {e}" [FExn e]])
  | _ => r
  end.

(* ------------------------------------------------------------------ *)
(** ** Further predicates used by the statements                       *)
(* ------------------------------------------------------------------ *)

(** The answers of the seven tests of the [stat] module on a mode, in
    the order [get_filetype] makes them *)
Definition stat_tests (mode : Z) : list (string * bool) :=
  [("REGULAR", S_ISREG mode); ("SYMLINK", S_ISLNK mode); ("FIFO", S_ISFIFO mode);
   ("SOCK", S_ISSOCK mode); ("DEVBLK", S_ISBLK mode); ("DEVCHR", S_ISCHR mode);
   ("DIR", S_ISDIR mode)].

(** [p] is a directory on the volume [v]. *)
Definition is_dir_on (v : gmap string inode) (p : string) : Prop :=
  ∃ m, v !! key p = Some m ∧ S_ISDIR (st_mode (i_stat m)) = true.

(** [Path(p).parent], as a string *)
Definition parent (p : string) : string :=
  path_str (mkPath (root (Path p)) (removelast (parts (Path p)))).

(** The name under which a directory that is a symbolic link is made
    again: the mapped path without its trailing slash *)
Definition symlink_target (sharemnt share_root volmnt dirpath : string) : string :=
  key (rstrip_slash (compute_vol_path sharemnt share_root volmnt dirpath)).

(** Two entries with the same content: the kind of file, the link text
    and the metadata document; the owner, the permission bits, the size
    and the times may differ. *)
Definition same_content (n n' : inode) : Prop :=
  S_IFMT (st_mode (i_stat n')) = S_IFMT (st_mode (i_stat n))
  ∧ i_link n' = i_link n
  ∧ i_info n' = i_info n.

(** [c] keeps every entry of the volume, with its content. *)
Definition volume_keeps {A} (c : M A) : Prop :=
  ∀ w k n, volume w !! k = Some n →
    ∃ n', volume (c w).2 !! k = Some n' ∧ same_content n n'.

(** [c] leaves the volume as it is outside the names of [K]. *)
Definition volume_only_at (K : string → Prop) {A} (c : M A) : Prop :=
  ∀ w k, ¬ K k → volume (c w).2 !! k = volume w !! k.

(** The names a run on [dirpath] with [filenames] may write on the
    volume: the target directory and the directories above it, the
    name of the link for a directory that is a symbolic link, and the
    target name of each entry. *)
Definition touched (sharemnt share_root volmnt dirpath : string) (filenames : list string)
    (k : string) : Prop :=
  let vol_path := compute_vol_path sharemnt share_root volmnt dirpath in
  k = key vol_path
  ∨ k ∈ ancestors_and_self (Path vol_path)
  ∨ k = symlink_target sharemnt share_root volmnt dirpath
  ∨ ∃ fn, fn ∈ filenames ∧ k = key (os_path_join vol_path fn).

(** [c] leaves the share as it is outside the names of [K]. *)
Definition share_only_at (K : string → Prop) {A} (c : M A) : Prop :=
  ∀ w k, ¬ K k → share (c w).2 !! k = share w !! k.

(** The names a run on [dirpath] with [filenames] may clear on the
    share: the sanitized names of the entries whose name holds a "?" *)
Definition sanitized_names (dirpath : string) (filenames : list string) (k : string) : Prop :=
  ∃ fn, fn ∈ filenames
        ∧ contains_char qmark (path_name (Path (os_path_join dirpath fn))) = true
        ∧ k = key (sanitized (os_path_join dirpath fn)).

(** An entry that [_get_files_only] keeps: a file, or a symbolic link
    whose target checks as a file *)
Definition listed_as_file (entry : DirEntry) : bool :=
  de_is_file entry
  || (de_is_symlink entry
      && match de_target entry with
         | TargetIsFile true => true
         | _ => false
         end).

(** The turn on which the thread that handles results leaves its loop:
    the queue is empty and no worker is alive. *)
Definition leaves_loop (t : handler_turn_env) : bool :=
  match ht_got t with
  | None => negb (ht_any_alive t)
  | Some _ => false
  end.

(** The results the thread takes off the queue before it leaves its
    loop *)
Fixpoint handled (turns : list handler_turn_env) : list DirectoryResult :=
  match turns with
  | [] => []
  | t :: rest =>
      match ht_got t with
      | Some result => result :: handled rest
      | None => if ht_any_alive t then handled rest else []
      end
  end.

Definition succeeded (result : DirectoryResult) : bool :=
  bool_decide (dr_status result = "success").

(** What a result adds to a counter that is fed from a field of the
    processing result *)
Definition counted (field : DirectorySummary → Z) (result : DirectoryResult) : Z :=
  if succeeded result then
    match dr_processing_result result with
    | Some summary => field summary
    | None => 0
    end
  else 0.

Definition total (f : DirectoryResult → Z) (results : list DirectoryResult) : Z :=
  foldr Z.add 0 (f <$> results).

(** The three counters of a result processor *)
Definition counters (rp : ResultProcessor) : Z * Z * Z :=
  (rp_total_directories rp, rp_total_files rp, rp_total_size rp).

(** A storage volume of the listing, with an address *)
Definition storage_volume (volume : VolumeEntry) : Prop :=
  ve_type volume = Some "STORAGE_VOLUME" ∧ ve_addresses volume ≠ [].

(** An entry of the listing that [get_share_volume] takes in without
    an error: a storage volume has an address. *)
Definition taken_in (volume : VolumeEntry) : Prop :=
  ve_type volume = Some "STORAGE_VOLUME" → ve_addresses volume ≠ [].

(** A name as a directory listing yields it: one component, neither
    "." nor "..". *)
Definition plain_name (fn : string) : bool :=
  valid_part fn && negb (bool_decide (fn = "..")).

(** The sanitized name of [p], if [p] needs one, is not taken by a
    directory or by a symbolic link: [shutil.move] then renames onto
    it, replacing what stands there. *)
Definition sanitized_clear (s : gmap string inode) (p : string) : Prop :=
  contains_char qmark (path_name (Path p)) = true →
  ∀ m, s !! key (sanitized p) = Some m →
       S_ISDIR (st_mode (i_stat m)) = false ∧ S_ISLNK (st_mode (i_stat m)) = false.

(** No symbolic link stands at [p] or at a directory above it on [v],
    so that a call on a name below [p] acts on that very name. *)
Definition no_link_above (v : gmap string inode) (p : string) : Prop :=
  ∀ k m, k ∈ ancestors_and_self (Path p) → v !! k = Some m →
         S_ISLNK (st_mode (i_stat m)) = false.

(* ------------------------------------------------------------------ *)
(** ** Further example worlds                                          *)
(* ------------------------------------------------------------------ *)

(** The example share with one more file, which bears the name that
    "a?b.txt" is moved to around its metadata query *)
Definition collision_world : world :=
  mkWorld (<["/mnt/share/d/a_TEMPQMARK_b.txt" := mkInode (reg_stat 7) "" Malformed]> example_share)
          example_volume [] [].

(** Workers that never die *)
Definition always_alive (n w : nat) : bool := true.

(** A run of the example directory's symbolic link [ln], the share
    being rooted at /x, a directory the volume holds *)
Definition link_run : M DirectorySummary :=
  deassimilate_dir "/mnt/share/ln" example_logger "/mnt/share" "/x" "/mnt/vol" 7 ["file.TXT"].

(** A "success" result without a processing result, and a handler with
    the default processor *)
Definition bare_result : DirectoryResult :=
  mkDirectoryResult "/mnt/share/d" "success" [] None None.

Definition example_handler : handler_state :=
  mkHandler (mkResultProcessor DefaultProcessor 2 5 40 None) [].

(** A listing of the management interface: two storage volumes, an
    entry of another type between them, and two shares *)
Definition volume_a : VolumeEntry :=
  mkVolumeEntry (Some "STORAGE_VOLUME") "node1" "vol-a" "/export/a" ["10.0.0.1"; "10.0.0.2"] 7.

Definition volume_b : VolumeEntry :=
  mkVolumeEntry (Some "STORAGE_VOLUME") "node2" "vol-b" "/export/b" ["10.0.0.3"] 8.

Definition volume_group : VolumeEntry :=
  mkVolumeEntry (Some "VOLUME_GROUP") "" "group" "" [] 9.

Definition share_one : ShareEntry := mkShareEntry "/share1" 3 "share1" 12.
Definition share_two : ShareEntry := mkShareEntry "/share2" 4 "share2" 0.

Definition example_args : Args := mkArgs false (Some 8) (Some 4).

(** The example share with one more placed file, which bears the name
    that "a?b.txt" is moved to around its metadata query *)
Definition clobber_world : world :=
  mkWorld (<["/mnt/share/d/a_TEMPQMARK_b.txt" :=
               mkInode (reg_stat 7) "" (placed 7 "/x/file.txt")]> example_share)
          example_volume [] [].

Definition clobber_names : list string := ["a_TEMPQMARK_b.txt"; "a?b.txt"].

(** A run on the example directory's symbolic link [ln] without a
    logger, the share being rooted at /x *)
Definition quiet_link_run : M DirectorySummary :=
  deassimilate_dir "/mnt/share/ln" None "/mnt/share" "/x" "/mnt/vol" 7 ["file.TXT"].
Example combine_paths_ex1 : combine_paths "/mnt/vol" "/share1" = "/mnt/vol/share1/".
Proof. reflexivity. Qed.
Example compute_vol_path_ex1 :
  compute_vol_path "/mnt/share" "/share1" "/mnt/vol" "/mnt/share/a/b" = "/mnt/vol/share1/a/b/".
Proof. reflexivity. Qed.
Example compute_vol_path_ex2 :
  compute_vol_path "/mnt/share" "/share1" "/mnt/vol" "/mnt/share" = "/mnt/vol/share1/".
Proof. reflexivity. Qed.
Example compute_vol_path_ex3 :
  compute_vol_path "/s" "/" "/" "/s" = "//" ∧ compute_vol_path "/s" "/" "/" "/s/a" = "//a/".
Proof. split; reflexivity. Qed.
Example suffix_ex : path_suffix (Path "/a/b/File.TXT") = ".TXT" ∧ path_suffix (Path "/a/.bashrc") = "" ∧ path_suffix (Path "a.tar.gz") = ".gz" ∧ path_suffix (Path "a.") = "".
Proof. repeat split; reflexivity. Qed.

Example run_ex1 :
  let '(r, w) := example_run "/mnt/share/d" ["file.TXT"; "a?b.txt"; "noinst"; "link"; "pipe"] None example_world in
  match r with
  | Ok s =>
      total_files s = 5 ∧ total_size_bytes s = 41
      ∧ map_to_list (extension_counts s) = [(".txt", 2); ("", 3)]
  | Raise _ => False
  end
  ∧ (fst <$> map_to_list (volume w))
    = ["/mnt/vol/share1/d/a?b.txt"; "/mnt/vol/share1/d/file.TXT"; "/mnt/vol/share1/d/link";
       "/mnt/vol/share1/d"; "/mnt/vol/share1"; "/mnt/vol/x/ab.txt"; "/mnt/vol/x/file.txt";
       "/mnt/vol/x"; "/mnt/vol"; "/mnt"]
  ∧ map_to_list (share w) = map_to_list example_share.
Proof. vm_compute. split_and!; reflexivity. Qed.

(* ================================================================== *)
(** * Part II: properties                                              *)
(* ================================================================== *)

(* ------------------------------------------------------------------ *)
(** ** Strings and parsed paths                                        *)
(* ------------------------------------------------------------------ *)

Section strings.

Lemma app_nil_str (t : string) : "" +:+ t = t.
Proof. reflexivity. Qed.

Lemma app_cons_str (c : ascii) (s t : string) : String c s +:+ t = String c (s +:+ t).
Proof. reflexivity. Qed.

Lemma app_empty_r (s : string) : s +:+ "" = s.
Proof. induction s as [|c s IH]; [done | by rewrite app_cons_str IH]. Qed.

Lemma app_assoc_str (a b c : string) : (a +:+ b) +:+ c = a +:+ b +:+ c.
Proof. induction a as [|x a IH]; [done | by rewrite !app_cons_str IH]. Qed.

Lemma length_app_str (a b : string) :
  String.length (a +:+ b) = (String.length a + String.length b)%nat.
Proof. induction a as [|x a IH]; [done | by rewrite app_cons_str /= IH]. Qed.

Lemma drop_str_app (s t : string) : drop_str (String.length s) (s +:+ t) = t.
Proof. induction s as [|c s IH]; [done | by rewrite app_cons_str /=]. Qed.

Lemma is_prefix_str_app (p s : string) :
  is_prefix_str p s = true → s = p +:+ drop_str (String.length p) s.
Proof.
  revert s. induction p as [|a p IH]; intros [|b s]; simpl; try done.
  intros [Hab Hps]%andb_prop. apply bool_decide_eq_true in Hab as ->.
  rewrite app_cons_str. f_equal. by apply IH.
Qed.

Lemma len_app_same (s t : string) : (len s =? len (s +:+ t)) = true → t = "".
Proof.
  unfold len. rewrite length_app_str. intros H%Z.eqb_eq.
  destruct t; [done | simpl in H; lia].
Qed.

End strings.

Section paths.

Lemma is_slash_true (c : ascii) : is_slash c = true → c = slash.
Proof. unfold is_slash. by intros ?%bool_decide_eq_true. Qed.

Lemma split_slash_nonempty (s : string) : split_slash s ≠ [].
Proof.
  induction s as [|c s IH]; simpl; [done|].
  destruct (is_slash c); [done|]. by destruct (split_slash s).
Qed.

Lemma split_slash_no_slash (s : string) :
  Forall (fun x => contains_char slash x = false) (split_slash s).
Proof.
  induction s as [|c s IH]; simpl.
  - by repeat constructor.
  - destruct (is_slash c) eqn:Hc.
    + by constructor.
    + unfold is_slash in Hc.
      destruct (split_slash s) as [|x xs].
      * repeat constructor. simpl. by rewrite Hc.
      * inversion IH as [|? ? Hx Hxs]; subst. constructor; [|done].
        simpl. by rewrite Hx Hc.
Qed.

Lemma split_slash_single (x : string) :
  contains_char slash x = false → split_slash x = [x].
Proof.
  induction x as [|c x IH]; simpl; [done|].
  intros [Hc Hx]%orb_false_elim. unfold is_slash. rewrite Hc. by rewrite IH.
Qed.

Lemma split_slash_app (x t : string) :
  contains_char slash x = false →
  split_slash (x +:+ String slash t) = x :: split_slash t.
Proof.
  induction x as [|c x IH].
  - intros _. by rewrite app_nil_str.
  - intros [Hc Hx]%orb_false_elim. rewrite app_cons_str /=.
    unfold is_slash. rewrite Hc. by rewrite IH.
Qed.

Lemma split_slash_snoc (s : string) : split_slash (s +:+ "/") = split_slash s ++ [""].
Proof.
  induction s as [|c s IH].
  - reflexivity.
  - rewrite app_cons_str /=. destruct (is_slash c); rewrite IH; [done|].
    pose proof (split_slash_nonempty s). by destruct (split_slash s).
Qed.

Lemma valid_part_no_slash (x : string) : valid_part x = true → contains_char slash x = false.
Proof. unfold valid_part. intros [_ H]%andb_prop. by apply negb_true_iff. Qed.

Lemma valid_part_keep (x : string) : valid_part x = true → keep_part x = true.
Proof. unfold valid_part. by intros [H _]%andb_prop. Qed.

Lemma valid_part_not_startswith (x : string) : valid_part x = true → startswith_slash x = false.
Proof.
  intros H. pose proof (valid_part_no_slash _ H) as Hn.
  destruct x as [|c x]; [done|]. simpl in *. by apply orb_false_elim in Hn as [? _].
Qed.

Lemma split_join (ps : list string) :
  ps ≠ [] → Forall (fun x => valid_part x = true) ps →
  split_slash (join_slash ps) = ps.
Proof.
  induction ps as [|x ps IH]; [done|]. intros _ Hall.
  inversion Hall as [|? ? Hx Hps]; subst.
  destruct ps as [|y ps].
  - simpl. by apply split_slash_single, valid_part_no_slash.
  - change (join_slash (x :: y :: ps)) with (x +:+ String slash (join_slash (y :: ps))).
    rewrite split_slash_app; [by apply valid_part_no_slash|].
    by rewrite IH.
Qed.

Lemma filter_keep_valid (ps : list string) :
  Forall (fun x => valid_part x = true) ps →
  filter (fun x => Is_true (keep_part x)) ps = ps.
Proof.
  induction 1 as [|x ps Hx _ IH]; [done|].
  rewrite filter_cons_True; [|by rewrite IH].
  apply Is_true_true. by apply valid_part_keep.
Qed.

Lemma filter_keep_split_valid (s : string) :
  Forall (fun x => valid_part x = true) (filter (fun x => Is_true (keep_part x)) (split_slash s)).
Proof.
  apply Forall_forall. intros x [Hk Hx]%list_elem_of_filter.
  unfold valid_part. apply Is_true_true in Hk. rewrite Hk /=.
  apply negb_true_iff.
  pose proof (split_slash_no_slash s) as Hall.
  rewrite Forall_forall in Hall. by apply Hall.
Qed.

Lemma startswith_join (ps : list string) :
  Forall (fun x => valid_part x = true) ps → startswith_slash (join_slash ps) = false.
Proof.
  intros Hall. destruct ps as [|x ps]; [done|].
  inversion Hall as [|? ? Hx _]; subst.
  pose proof (valid_part_not_startswith _ Hx) as Hs.
  destruct ps; [done|]. 
  change (join_slash (x :: s :: ps)) with (x +:+ String slash (join_slash (s :: ps))).
  destruct x; [done|]. by rewrite app_cons_str.
Qed.

Lemma lstrip_not_startswith (s : string) : startswith_slash s = false → lstrip_slash s = s.
Proof. destruct s as [|c s]; simpl; [done|]. by intros ->. Qed.

Lemma lstrip_slash_startswith (s : string) : startswith_slash (lstrip_slash s) = false.
Proof.
  induction s as [|c s IH]; simpl; [done|].
  destruct (is_slash c) eqn:Hc; [done|]. simpl. by rewrite Hc.
Qed.

Lemma splitroot_rel (s : string) : startswith_slash s = false → splitroot s = ("", s).
Proof. unfold splitroot. by intros ->. Qed.

Lemma splitroot_one (x : string) :
  startswith_slash x = false → splitroot ("/" +:+ x) = ("/", x).
Proof.
  intros Hx. unfold splitroot. simpl.
  rewrite ?app_nil_str (lstrip_not_startswith x Hx).
  replace (S (String.length x) - String.length x)%nat with 1%nat by lia. done.
Qed.

Lemma splitroot_two (x : string) :
  startswith_slash x = false → splitroot ("//" +:+ x) = ("//", x).
Proof.
  intros Hx. unfold splitroot. simpl.
  rewrite ?app_nil_str (lstrip_not_startswith x Hx).
  replace (S (S (String.length x)) - String.length x)%nat with 2%nat by lia. done.
Qed.

Lemma splitroot_valid (s : string) :
  valid_root (splitroot s).1 ∧ startswith_slash (splitroot s).2 = false.
Proof.
  unfold splitroot, valid_root. destruct (startswith_slash s) eqn:Hs.
  - case_match; simpl; split; auto using lstrip_slash_startswith.
  - simpl. auto.
Qed.

Lemma Path_valid (s : string) : valid_path (Path s).
Proof.
  unfold Path. pose proof (splitroot_valid s) as [Hr _].
  destruct (splitroot s) as [r rel]. split; [done|].
  apply filter_keep_split_valid.
Qed.

Lemma Path_rel (s : string) : startswith_slash s = false → root (Path s) = "".
Proof. intros Hs. unfold Path. by rewrite splitroot_rel. Qed.

Lemma truediv_rel (a b : PurePath) :
  root b = "" → truediv a b = mkPath (root a) (parts a ++ parts b).
Proof. intros Hb. unfold truediv. by rewrite bool_decide_eq_true_2. Qed.

Lemma truediv_valid (a b : PurePath) : valid_path a → valid_path b → valid_path (truediv a b).
Proof.
  intros [Hra Hpa] [Hrb Hpb]. unfold truediv. case_bool_decide; [|done].
  split; [done|]. by apply Forall_app.
Qed.

Lemma Path_root_app (r x : string) :
  valid_root r → startswith_slash x = false →
  Path (r +:+ x) = mkPath r (filter (fun y => Is_true (keep_part y)) (split_slash x)).
Proof.
  intros [-> | [-> | ->]] Hx; unfold Path.
  - by rewrite app_nil_str splitroot_rel.
  - by rewrite splitroot_one.
  - by rewrite splitroot_two.
Qed.

Lemma path_str_cons (r x : string) (ps : list string) :
  path_str (mkPath r (x :: ps)) = r +:+ join_slash (x :: ps).
Proof. unfold path_str. simpl root. simpl parts. by destruct r. Qed.

(** Parsing what [str] printed gives the path back. *)
Lemma Path_path_str (p : PurePath) : valid_path p → Path (path_str p) = p.
Proof.
  destruct p as [r ps]. intros [Hr Hps]. simpl in *.
  destruct ps as [|x ps].
  - by destruct Hr as [-> | [-> | ->]].
  - rewrite path_str_cons Path_root_app; [done|by apply startswith_join|].
    rewrite split_join; [done..|]. by rewrite filter_keep_valid.
Qed.

Lemma key_idemp (p : string) : key (key p) = key p.
Proof. unfold key. by rewrite Path_path_str; [apply Path_valid|]. Qed.

(** Parsing what [str] printed with a slash appended keeps the
    components, and keeps the root when there is a component. *)
Lemma Path_path_str_slash (p : PurePath) :
  valid_path p →
  parts (Path (path_str p +:+ "/")) = parts p
  ∧ is_absolute (Path (path_str p +:+ "/")) = is_absolute p
  ∧ (parts p ≠ [] → root (Path (path_str p +:+ "/")) = root p).
Proof.
  destruct p as [r ps]. intros [Hr Hps]. simpl in *.
  destruct ps as [|x ps].
  - by destruct Hr as [-> | [-> | ->]].
  - assert (Hsw : startswith_slash (join_slash (x :: ps) +:+ "/") = false).
    { pose proof (startswith_join (x :: ps) Hps) as Hj.
      inversion Hps as [|? ? Hx _]; subst. apply valid_part_keep in Hx.
      destruct x as [|c x]; [done|].
      destruct ps; simpl in *; by rewrite ?app_cons_str in Hj |- *. }
    rewrite path_str_cons app_assoc_str Path_root_app; [done..|].
    rewrite split_slash_snoc split_join; [done..|].
    rewrite filter_app filter_keep_valid; [done|].
    rewrite app_nil_r. done.
Qed.

End paths.

(* ------------------------------------------------------------------ *)
(** ** The path mapping                                                *)
(* ------------------------------------------------------------------ *)

Section path_mapping.

Lemma combine_paths_eq (base sub : string) :
  combine_paths base sub
  = path_str (truediv (Path base) (Path (lstrip_slash sub))) +:+ "/".
Proof. unfold combine_paths. by case_match. Qed.

Lemma endswith_slash_snoc (s : string) : endswith_slash (s +:+ "/") = true.
Proof.
  induction s as [|c s IH]; [done|]. rewrite app_cons_str.
  destruct s; [done|]. by rewrite app_cons_str in IH |- *.
Qed.

Lemma Path_lstrip_root (s : string) : root (Path (lstrip_slash s)) = "".
Proof. apply Path_rel, lstrip_slash_startswith. Qed.

Lemma combined_eq (base sub : string) :
  truediv (Path base) (Path (lstrip_slash sub))
  = mkPath (root (Path base)) (parts (Path base) ++ parts (Path (lstrip_slash sub))).
Proof. apply truediv_rel, Path_lstrip_root. Qed.

Lemma combined_valid (base sub : string) :
  valid_path (truediv (Path base) (Path (lstrip_slash sub))).
Proof. apply truediv_valid; apply Path_valid. Qed.

(** What [Path] reads back from the string [combine_paths] returns *)
Lemma Path_combine_paths (base sub : string) :
  parts (Path (combine_paths base sub))
    = parts (Path base) ++ parts (Path (lstrip_slash sub))
  ∧ is_absolute (Path (combine_paths base sub)) = is_absolute (Path base)
  ∧ (parts (Path base) ++ parts (Path (lstrip_slash sub)) ≠ [] →
     root (Path (combine_paths base sub)) = root (Path base)).
Proof.
  rewrite combine_paths_eq.
  destruct (Path_path_str_slash _ (combined_valid base sub)) as (Hp & Ha & Hr).
  rewrite combined_eq in Hp Ha Hr |- *. done.
Qed.

Lemma root_empty_iff_absolute (p q : PurePath) :
  is_absolute p = is_absolute q → (root p = "" ↔ root q = "").
Proof.
  unfold is_absolute. intros H.
  split; intros E; rewrite E in H; simpl in H.
  - symmetry in H. apply negb_false_iff, bool_decide_eq_true in H. done.
  - apply negb_false_iff, bool_decide_eq_true in H. done.
Qed.

End path_mapping.

(* ------------------------------------------------------------------ *)
(** ** Attribute copy                                                  *)
(* ------------------------------------------------------------------ *)

Section copy_file_attrs.

Ltac run_calls :=
  unfold copy_file_attrs, os_lchown, os_chmod, os_utime, update_entry,
    log_to, emit, trace, get_volume, put_volume, bind, ret, raise; simpl.

(** What [copy_file_attrs] does for a file type that is neither
    "REGULAR" nor "DIR" and is part of the word "SYMLINK": one
    [lchown], nothing else. *)
Lemma copy_file_attrs_symlink (src dst : string) (st : stat_result)
    (logger : option Logger) (w : world) :
  let '(r, w') := copy_file_attrs src dst "SYMLINK" st logger w in
  calls w' = calls w ++ [Sys_lchown dst (st_uid st) (st_gid st)]
  ∧ share w' = share w
  ∧ match volume w !! key dst with
    | Some n =>
        r = Ok tt
        ∧ volume w' = <[key dst := set_owner (st_uid st) (st_gid st) n]> (volume w)
    | None => r = Raise (no_such dst) ∧ volume w' = volume w
    end.
Proof.
  run_calls. destruct logger; simpl; destruct (volume w !! key dst); simpl; done.
Qed.

Lemma copy_file_attrs_all (src dst filetype : string) (st : stat_result)
    (logger : option Logger) (w : world) :
  filetype = "REGULAR" ∨ filetype = "DIR" →
  let '(r, w') := copy_file_attrs src dst filetype st logger w in
  share w' = share w
  ∧ match volume w !! key dst with
    | Some n =>
        r = Ok tt
        ∧ calls w' = calls w ++ [Sys_lchown dst (st_uid st) (st_gid st);
                                 Sys_chmod dst (S_IMODE (st_mode st));
                                 Sys_utime dst (st_atime st) (st_mtime st)]
        ∧ volume w' = <[key dst := set_times (st_atime st) (st_mtime st)
                                     (set_perm (S_IMODE (st_mode st))
                                        (set_owner (st_uid st) (st_gid st) n))]> (volume w)
    | None =>
        r = Raise (no_such dst)
        ∧ calls w' = calls w ++ [Sys_lchown dst (st_uid st) (st_gid st)]
        ∧ volume w' = volume w
    end.
Proof.
  intros [-> | ->]; run_calls.
  all: destruct logger; simpl; destruct (volume w !! key dst) eqn:E; simpl; try done.
  all: rewrite !lookup_insert_eq; simpl; rewrite -!app_assoc /= !insert_insert_eq; done.
Qed.

(** C9. With the file type "SYMLINK", [copy_file_attrs] makes exactly
    one call on the destination, [lchown] with the uid and gid of the
    stat record it was given: no [chmod], no [utime]; the entry keeps
    its mode and times and every other entry is untouched.  With
    "REGULAR" or "DIR" it makes all three calls on an existing
    destination, in the order [lchown], [chmod], [utime]. *)
Theorem copy_file_attrs_symlink_owner_only (src dst : string) (st : stat_result)
    (logger : option Logger) (w : world) :
  (let '(r, w') := copy_file_attrs src dst "SYMLINK" st logger w in
   calls w' = calls w ++ [Sys_lchown dst (st_uid st) (st_gid st)]
   ∧ share w' = share w
   ∧ match volume w !! key dst with
     | Some n =>
         r = Ok tt
         ∧ volume w' = <[key dst := set_owner (st_uid st) (st_gid st) n]> (volume w)
         ∧ st_mode (i_stat (set_owner (st_uid st) (st_gid st) n)) = st_mode (i_stat n)
         ∧ st_atime (i_stat (set_owner (st_uid st) (st_gid st) n)) = st_atime (i_stat n)
         ∧ st_mtime (i_stat (set_owner (st_uid st) (st_gid st) n)) = st_mtime (i_stat n)
     | None => r = Raise (no_such dst) ∧ volume w' = volume w
     end)
  ∧ Forall (fun filetype =>
      let '(r, w') := copy_file_attrs src dst filetype st logger w in
      match volume w !! key dst with
      | Some n =>
          r = Ok tt
          ∧ calls w' = calls w ++ [Sys_lchown dst (st_uid st) (st_gid st);
                                   Sys_chmod dst (S_IMODE (st_mode st));
                                   Sys_utime dst (st_atime st) (st_mtime st)]
          ∧ volume w' = <[key dst := set_times (st_atime st) (st_mtime st)
                                       (set_perm (S_IMODE (st_mode st))
                                          (set_owner (st_uid st) (st_gid st) n))]> (volume w)
      | None => r = Raise (no_such dst)
      end) ["REGULAR"; "DIR"].
Proof.
  split.
  - pose proof (copy_file_attrs_symlink src dst st logger w) as H.
    destruct (copy_file_attrs src dst "SYMLINK" st logger w) as [r w'].
    destruct H as (Hc & Hs & Hv). split_and!; [done..|].
    destruct (volume w !! key dst); [|done]. by destruct Hv.
  - repeat constructor.
    + pose proof (copy_file_attrs_all src dst "REGULAR" st logger w (or_introl eq_refl)) as H.
      destruct (copy_file_attrs src dst "REGULAR" st logger w) as [r w'].
      destruct H as (_ & Hv). destruct (volume w !! key dst); by destruct Hv as (? & ? & ?).
    + pose proof (copy_file_attrs_all src dst "DIR" st logger w (or_intror eq_refl)) as H.
      destruct (copy_file_attrs src dst "DIR" st logger w) as [r w'].
      destruct H as (_ & Hv). destruct (volume w !! key dst); by destruct Hv as (? & ? & ?).
Qed.

End copy_file_attrs.

(* ------------------------------------------------------------------ *)
(** ** The scoped rename around the metadata query                     *)
(* ------------------------------------------------------------------ *)

Section temp_rename.

(** The name [temp_rename] moves the entry [path] to *)
Lemma temp_rename_plain {A} (path : string) (func : string → M A) :
  contains_char qmark (path_name (Path path)) = false →
  temp_rename path func = func (key path).
Proof. unfold temp_rename. by intros ->. Qed.

(** After the rename and the rename back the share has lost at most the
    entry that stood at the temporary name. *)
Lemma rename_back_map (s : gmap string inode) (kp kt : string) (n : inode) :
  s !! kp = Some n →
  <[kp := n]> (delete kt (<[kt := n]> (delete kp s)))
  = if decide (kt = kp) then s else delete kt s.
Proof.
  intros Hn. rewrite delete_insert_eq. case_decide as E.
  - subst. by rewrite delete_delete_eq insert_delete_id.
  - rewrite delete_delete insert_delete_id; [|done].
    by rewrite lookup_delete_ne.
Qed.

Lemma get_inode_info_qmark (path : string) (w : world) :
  contains_char qmark (path_name (Path path)) = true →
  let temp := path_str (with_name (Path path) (replace_qmark (path_name (Path path)))) in
  let '(r, w') := get_inode_info path w in
  volume w' = volume w ∧ log w' = log w ∧
  match share w !! key path with
  | Some n =>
      calls w' = calls w ++ [Sys_move (key path) temp;
                             Sys_open (temp +:+ "?.attribute=inode_info");
                             Sys_move temp (key path)]
      ∧ r = match i_info n with
            | Document d => Ok d
            | Malformed => Raise (JSONDecodeError "Expecting value")
            end
      ∧ share w' = if decide (key temp = key path) then share w else delete (key temp) (share w)
  | None =>
      calls w' = calls w ++ [Sys_move (key path) temp]
      ∧ r = Raise (no_such (key path))
      ∧ share w' = share w
  end.
Proof.
  intros Hq. unfold get_inode_info, temp_rename. rewrite Hq. simpl negb. cbv iota.
  fold (key path).
  set (temp := path_str (with_name (Path path) (replace_qmark (path_name (Path path))))).
  unfold shutil_move, load_inode_info, try_except, trace, get_share, put_share, bind, ret, raise.
  simpl. rewrite key_idemp.
  destruct (share w !! key path) as [n|] eqn:Hn; simpl; [|done].
  rewrite !lookup_insert_eq.
  destruct (i_info n); simpl; rewrite !lookup_insert_eq; simpl;
    rewrite -!app_assoc /= rename_back_map; done.
Qed.

(** The same for any function run under the rename, provided it leaves
    the entries of the share alone: whether it returns or raises, its
    outcome is passed on and the last call made is the rename back. *)
Lemma temp_rename_restores {A} (path : string) (func : string → M A) (w : world) :
  (∀ p w0, share (func p w0).2 = share w0) →
  contains_char qmark (path_name (Path path)) = true →
  let temp := path_str (with_name (Path path) (replace_qmark (path_name (Path path)))) in
  let '(r, w') := temp_rename path func w in
  match share w !! key path with
  | Some n =>
      let w1 := mkWorld (<[key temp := n]> (delete (key path) (share w))) (volume w) (log w)
                        (calls w ++ [Sys_move (key path) temp]) in
      r = (func temp w1).1
      ∧ calls w' = calls (func temp w1).2 ++ [Sys_move temp (key path)]
      ∧ share w' = if decide (key temp = key path) then share w else delete (key temp) (share w)
  | None =>
      r = Raise (no_such (key path))
      ∧ calls w' = calls w ++ [Sys_move (key path) temp]
      ∧ share w' = share w
  end.
Proof.
  intros Hframe Hq. unfold temp_rename. rewrite Hq. simpl negb. cbv iota.
  fold (key path).
  set (temp := path_str (with_name (Path path) (replace_qmark (path_name (Path path))))).
  unfold shutil_move, try_except, trace, get_share, put_share, bind, ret, raise.
  simpl. rewrite key_idemp.
  destruct (share w !! key path) as [n|] eqn:Hn; simpl; [|done].
  match goal with |- context [func temp ?w1] =>
    pose proof (Hframe temp w1) as Hs; destruct (func temp w1) as [[a|e] w2] end.
  all: simpl in *; rewrite Hs lookup_insert_eq /= rename_back_map; done.
Qed.

(** C1, where the code keeps to it.  For a path whose final component
    contains "?" and whose sanitized name is not taken by a directory
    or by a symbolic link, [get_inode_info] leaves the entry under its
    name: the share holds at that name after the call what it held
    before, when the query returns the document and when it raises.
    The calls made are the rename to the sanitized name, the query on
    that name, and the rename back, in this order, on both paths.
    With a directory at the sanitized name [shutil.move] moves the file
    into that directory instead, a case [shutil_move] does not
    cover. *)
Theorem get_inode_info_restores_name (path : string) (w : world) :
  contains_char qmark (path_name (Path path)) = true →
  sanitized_clear (share w) path →
  let temp := path_str (with_name (Path path) (replace_qmark (path_name (Path path)))) in
  let '(r, w') := get_inode_info path w in
  share w' !! key path = share w !! key path
  ∧ volume w' = volume w
  ∧ match share w !! key path with
    | Some n =>
        calls w' = calls w ++ [Sys_move (key path) temp;
                               Sys_open (temp +:+ "?.attribute=inode_info");
                               Sys_move temp (key path)]
        ∧ r = match i_info n with
              | Document d => Ok d
              | Malformed => Raise (JSONDecodeError "Expecting value")
              end
    | None =>
        calls w' = calls w ++ [Sys_move (key path) temp]
        ∧ r = Raise (no_such (key path))
        ∧ share w' = share w
    end.
Proof.
  intros Hq _. pose proof (get_inode_info_qmark path w Hq) as H. simpl in H.
  destruct (get_inode_info path w) as [r w']. destruct H as (Hv & _ & H).
  destruct (share w !! key path) as [n|] eqn:Hn.
  - destruct H as (Hc & Hr & Hs). split_and!; try done.
    rewrite Hs. case_decide; [done|]. rewrite lookup_delete_ne; [done|]. by rewrite Hn.
  - destruct H as (Hc & Hr & Hs). split_and!; try done. by rewrite Hs.
Qed.

End temp_rename.

(* ------------------------------------------------------------------ *)
(** ** Reasoning about computations                                    *)
(* ------------------------------------------------------------------ *)

Section monad.

Context {A B : Type}.

Lemma bind_inv (c : M A) (k : A → M B) (w w'' : world) (b : B) :
  bind c k w = (Ok b, w'') → ∃ a w', c w = (Ok a, w') ∧ k a w' = (Ok b, w'').
Proof. unfold bind. destruct (c w) as [[a|e] w']; [eauto | done]. Qed.

Lemma bind_ok (c : M A) (k : A → M B) (w w' : world) (a : A) :
  c w = (Ok a, w') → bind c k w = k a w'.
Proof. unfold bind. by intros ->. Qed.

Lemma bind_raise (c : M A) (k : A → M B) (w w' : world) (e : exn) :
  c w = (Raise e, w') → bind c k w = (Raise e, w').
Proof. unfold bind. by intros ->. Qed.

Lemma share_same_shrinks (c : M A) : share_same c → share_shrinks c.
Proof. intros H w. by rewrite H. Qed.

Lemma share_same_bind (c : M A) (k : A → M B) :
  share_same c → (∀ a, share_same (k a)) → share_same (bind c k).
Proof.
  intros Hc Hk w. unfold bind. specialize (Hc w).
  destruct (c w) as [[a|e] w']; simpl in *; [|done]. by rewrite Hk.
Qed.

Lemma share_shrinks_bind (c : M A) (k : A → M B) :
  share_shrinks c → (∀ a, share_shrinks (k a)) → share_shrinks (bind c k).
Proof.
  intros Hc Hk w. unfold bind. specialize (Hc w).
  destruct (c w) as [[a|e] w']; simpl in *; [|done].
  etrans; [apply Hk | done].
Qed.

Lemma volume_grows_bind (c : M A) (k : A → M B) :
  volume_grows c → (∀ a, volume_grows (k a)) → volume_grows (bind c k).
Proof.
  intros Hc Hk w. unfold bind. specialize (Hc w).
  destruct (c w) as [[a|e] w']; simpl in *; [|done].
  etrans; [done | apply Hk].
Qed.

Lemma share_only_bind (c : M A) (k : A → M B) :
  share_only c → (∀ a, share_only (k a)) → share_only (bind c k).
Proof.
  intros Hc Hk g h Hgh. unfold bind.
  destruct (Hc g h Hgh) as (Hr & Hs & Hvg & Hvh).
  destruct (c g) as [[a|e] g'], (c h) as [[a'|e'] h']; simpl in *; simplify_eq; [|done].
  destruct (Hk a' g' h' Hs) as (Hr' & Hs' & Hvg' & Hvh').
  split_and!; try done; congruence.
Qed.

Lemma share_only_rerunnable (c : M A) : share_only c → rerunnable c.
Proof.
  intros Hc g h a g' D Hgh Hg HD1 HD2.
  destruct (Hc g h Hgh) as (Hr & Hs & Hvg & Hvh). rewrite Hg in Hr Hs Hvg. simpl in *.
  destruct (c h) as [r h'] eqn:Hh. simpl in *. subst r.
  exists h'. split_and!; try done. by rewrite Hvh.
Qed.

Lemma rerunnable_bind (c : M A) (k : A → M B) :
  rerunnable c → (∀ a, volume_grows (k a)) → (∀ a, rerunnable (k a)) →
  rerunnable (bind c k).
Proof.
  intros Hc Hgrow Hk g h b g'' D Hgh Hrun HD1 HD2.
  apply bind_inv in Hrun as (a & g' & Hg & Hk').
  assert (dom (volume g') ⊆ D) as HD1'.
  { etrans; [|exact HD1]. specialize (Hgrow a g'). by rewrite Hk' in Hgrow. }
  destruct (Hc g h a g' D Hgh Hg HD1' HD2) as (h' & Hh & Hs & HD2').
  destruct (Hk a g' h' b g'' D Hs Hk' HD1 HD2') as (h'' & Hh' & Hs' & HD2'').
  exists h''. split_and!; try done. by rewrite (bind_ok _ _ _ _ _ Hh).
Qed.

End monad.

Section monad_unit.

Lemma never_raises_rerunnable (c : M unit) :
  never_raises c → share_same c → volume_grows c → rerunnable c.
Proof.
  intros Hn Hs Hv g h [] g' D Hgh Hg HD1 HD2.
  specialize (Hn h). pose proof (Hs h) as Hsh. pose proof (Hs g) as Hsg.
  pose proof (Hv h) as Hvh. rewrite Hg in Hsg.
  destruct (c h) as [r h']. simpl in *. subst r.
  exists h'. split_and!; [done|congruence|]. by etrans.
Qed.

Lemma never_raises_bind (c k : M unit) :
  never_raises c → never_raises k → never_raises (bind c (fun _ => k)).
Proof.
  intros Hc Hk w. unfold bind. specialize (Hc w).
  destruct (c w) as [[[]|e] w']; simpl in *; [apply Hk | done].
Qed.

End monad_unit.

(* ------------------------------------------------------------------ *)
(** ** What each call reads and writes                                 *)
(* ------------------------------------------------------------------ *)

Create HintDb py discriminated.

Ltac prim :=
  unfold share_same, volume_grows, share_only, never_raises,
    os_lstat, os_readlink, shutil_move, load_inode_info, os_path_isdir,
    os_symlink, os_link, os_lchown, os_chmod, os_utime, update_entry,
    log_to, emit, trace, get_share, get_volume, put_share, put_volume,
    try_except_OSError, try_except, bind, ret, raise;
  intros; simpl;
  repeat match goal with H : share _ = share _ |- _ => rewrite H; clear H end;
  repeat (case_match; simpl; simplify_eq);
  rewrite ?dom_insert_L; try done; try set_solver.

Section frames.

Context {A : Type}.

Lemma share_same_ret (a : A) : share_same (ret a).
Proof. prim. Qed.
Lemma share_same_raise (e : exn) : share_same (@raise world A e).
Proof. prim. Qed.
Lemma volume_grows_ret (a : A) : volume_grows (ret a).
Proof. prim. Qed.
Lemma volume_grows_raise (e : exn) : volume_grows (@raise world A e).
Proof. prim. Qed.
Lemma share_only_ret (a : A) : share_only (ret a).
Proof. prim. Qed.
Lemma share_only_raise (e : exn) : share_only (@raise world A e).
Proof. prim. Qed.

Lemma share_same_try (c : M A) (h : exn → M A) :
  share_same c → (∀ e, share_same (h e)) → share_same (try_except c h).
Proof.
  intros Hc Hh w. unfold try_except. specialize (Hc w).
  destruct (c w) as [[a|e] w']; simpl in *; [done|]. by rewrite Hh.
Qed.

Lemma volume_grows_try (c : M A) (h : exn → M A) :
  volume_grows c → (∀ e, volume_grows (h e)) → volume_grows (try_except c h).
Proof.
  intros Hc Hh w. unfold try_except. specialize (Hc w).
  destruct (c w) as [[a|e] w']; simpl in *; [done|]. etrans; [done|apply Hh].
Qed.

Lemma share_only_try (c : M A) (h : exn → M A) :
  share_only c → (∀ e, share_only (h e)) → share_only (try_except c h).
Proof.
  intros Hc Hh g h0 Hgh. unfold try_except.
  destruct (Hc g h0 Hgh) as (Hr & Hs & Hvg & Hvh).
  destruct (c g) as [[a|e] g'], (c h0) as [[a'|e'] h']; simpl in *; simplify_eq; [done|].
  destruct (Hh e' g' h' Hs) as (Hr' & Hs' & Hvg' & Hvh').
  split_and!; try done; congruence.
Qed.

End frames.

Section frames_calls.

Lemma share_same_log logger l t a : share_same (log_to logger l t a).
Proof. prim. Qed.
Lemma volume_grows_log logger l t a : volume_grows (log_to logger l t a).
Proof. prim. Qed.
Lemma share_only_log logger l t a : share_only (log_to logger l t a).
Proof. prim. Qed.
Lemma never_raises_log logger l t a : never_raises (log_to logger l t a).
Proof. prim. Qed.

Lemma share_same_emit r : share_same (emit r).
Proof. prim. Qed.
Lemma volume_grows_emit r : volume_grows (emit r).
Proof. prim. Qed.

Lemma share_same_lstat p : share_same (os_lstat p).
Proof. prim. Qed.
Lemma volume_grows_lstat p : volume_grows (os_lstat p).
Proof. prim. Qed.
Lemma share_only_lstat p : share_only (os_lstat p).
Proof. prim. Qed.

Lemma share_same_readlink p : share_same (os_readlink p).
Proof. prim. Qed.
Lemma volume_grows_readlink p : volume_grows (os_readlink p).
Proof. prim. Qed.
Lemma share_only_readlink p : share_only (os_readlink p).
Proof. prim. Qed.

Lemma volume_grows_move src dst : volume_grows (shutil_move src dst).
Proof. prim. Qed.
Lemma share_only_move src dst : share_only (shutil_move src dst).
Proof. prim. Qed.

Lemma share_same_load p : share_same (load_inode_info p).
Proof. prim. Qed.
Lemma volume_grows_load p : volume_grows (load_inode_info p).
Proof. prim. Qed.
Lemma share_only_load p : share_only (load_inode_info p).
Proof. prim. Qed.

Lemma share_same_isdir p : share_same (os_path_isdir p).
Proof. prim. Qed.
Lemma volume_grows_isdir p : volume_grows (os_path_isdir p).
Proof. prim. Qed.

Lemma share_same_symlink dest p : share_same (os_symlink dest p).
Proof. prim. Qed.
Lemma volume_grows_symlink dest p : volume_grows (os_symlink dest p).
Proof. prim. Qed.

Lemma share_same_link src dst : share_same (os_link src dst).
Proof. prim. Qed.
Lemma volume_grows_link src dst : volume_grows (os_link src dst).
Proof. prim. Qed.

Lemma share_same_lchown p u g : share_same (os_lchown p u g).
Proof. prim. Qed.
Lemma volume_grows_lchown p u g : volume_grows (os_lchown p u g).
Proof. prim. Qed.
Lemma share_same_chmod p m : share_same (os_chmod p m).
Proof. prim. Qed.
Lemma volume_grows_chmod p m : volume_grows (os_chmod p m).
Proof. prim. Qed.
Lemma share_same_utime p a m : share_same (os_utime p a m).
Proof. prim. Qed.
Lemma volume_grows_utime p a m : volume_grows (os_utime p a m).
Proof. prim. Qed.

Lemma makedirs_from_grows ks p v :
  dom v ⊆ dom (makedirs_from ks p v).2.
Proof.
  revert v. induction ks as [|k ks IH]; intros v; simpl; [done|].
  destruct (v !! k) as [n|].
  - destruct (S_ISDIR _); [apply IH | done].
  - etrans; [|apply IH]. rewrite dom_insert_L. set_solver.
Qed.

Lemma share_same_makedirs p : share_same (os_makedirs p).
Proof.
  unfold os_makedirs. prim.
Qed.

Lemma volume_grows_makedirs p : volume_grows (os_makedirs p).
Proof.
  intros w. unfold os_makedirs, trace, get_volume, put_volume, bind, ret, raise. simpl.
  pose proof (makedirs_from_grows (ancestors_and_self (Path p)) p (volume w)) as H.
  destruct (makedirs_from _ _ _) as [[[]|e] v']; simpl in *; done.
Qed.

End frames_calls.

Global Hint Resolve share_same_ret share_same_raise volume_grows_ret volume_grows_raise
  share_only_ret share_only_raise
  share_same_log volume_grows_log share_only_log never_raises_log
  share_same_emit volume_grows_emit
  share_same_lstat volume_grows_lstat share_only_lstat
  share_same_readlink volume_grows_readlink share_only_readlink
  volume_grows_move share_only_move
  share_same_load volume_grows_load share_only_load
  share_same_isdir volume_grows_isdir
  share_same_symlink volume_grows_symlink
  share_same_link volume_grows_link
  share_same_lchown volume_grows_lchown share_same_chmod volume_grows_chmod
  share_same_utime volume_grows_utime
  share_same_makedirs volume_grows_makedirs : py.

(** Takes a computation apart along its binds, handlers and branches *)
Ltac structural :=
  repeat first
    [ progress intros
    | solve [eauto with py]
    | apply share_same_bind | apply volume_grows_bind | apply share_only_bind
    | apply share_shrinks_bind
    | apply share_same_try | apply volume_grows_try | apply share_only_try
    | match goal with
      | |- _ (if ?b then _ else _) => destruct b
      | |- _ (match ?x with _ => _ end) => destruct x
      | |- _ (let '(_, _) := ?x in _) => destruct x
      end ].

(* ------------------------------------------------------------------ *)
(** ** The blocks of [deassimilate_dir]                                *)
(* ------------------------------------------------------------------ *)

Section blocks.

Lemma share_only_temp_rename {A} (path : string) (func : string → M A) :
  (∀ p, share_only (func p)) → share_only (temp_rename path func).
Proof. intros Hf. unfold temp_rename. structural. Qed.

Lemma volume_grows_temp_rename {A} (path : string) (func : string → M A) :
  (∀ p, volume_grows (func p)) → volume_grows (temp_rename path func).
Proof. intros Hf. unfold temp_rename. structural. Qed.

Lemma share_only_get_inode_info path : share_only (get_inode_info path).
Proof. apply share_only_temp_rename. eauto with py. Qed.

Lemma volume_grows_get_inode_info path : volume_grows (get_inode_info path).
Proof. apply volume_grows_temp_rename. eauto with py. Qed.

Lemma share_shrinks_get_inode_info path : share_shrinks (get_inode_info path).
Proof.
  intros w. destruct (contains_char qmark (path_name (Path path))) eqn:Hq.
  - pose proof (get_inode_info_qmark path w Hq) as H. simpl in H.
    destruct (get_inode_info path w) as [r w']. destruct H as (_ & _ & H). simpl.
    destruct (share w !! key path); destruct H as (_ & _ & ->); [|done].
    case_decide; [done|]. apply delete_subseteq.
  - unfold get_inode_info. rewrite temp_rename_plain; [done|].
    by rewrite share_same_load.
Qed.

Lemma share_same_on_create_error logger l17 t17 a17 l t a n e :
  share_same (on_create_error logger l17 t17 a17 l t a n e).
Proof. unfold on_create_error. structural. Qed.

Lemma volume_grows_on_create_error logger l17 t17 a17 l t a n e :
  volume_grows (on_create_error logger l17 t17 a17 l t a n e).
Proof. unfold on_create_error. structural. Qed.

Lemma share_same_copy_file_attrs src dst ft st logger :
  share_same (copy_file_attrs src dst ft st logger).
Proof. unfold copy_file_attrs. structural. Qed.

Lemma volume_grows_copy_file_attrs src dst ft st logger :
  volume_grows (copy_file_attrs src dst ft st logger).
Proof. unfold copy_file_attrs. structural. Qed.

End blocks.

Global Hint Resolve share_only_get_inode_info volume_grows_get_inode_info
  share_shrinks_get_inode_info share_same_on_create_error volume_grows_on_create_error
  share_same_copy_file_attrs volume_grows_copy_file_attrs : py.

(* ------------------------------------------------------------------ *)
(** ** Running a block again                                           *)
(* ------------------------------------------------------------------ *)

Section rerun.

Lemma rerunnable_ret {A} (a : A) : rerunnable (ret a).
Proof. apply share_only_rerunnable. eauto with py. Qed.
Lemma rerunnable_log logger l t a : rerunnable (log_to logger l t a).
Proof. apply share_only_rerunnable. eauto with py. Qed.
Lemma rerunnable_lstat p : rerunnable (os_lstat p).
Proof. apply share_only_rerunnable. eauto with py. Qed.
Lemma rerunnable_readlink p : rerunnable (os_readlink p).
Proof. apply share_only_rerunnable. eauto with py. Qed.
Lemma rerunnable_get_inode_info p : rerunnable (get_inode_info p).
Proof. apply share_only_rerunnable. eauto with py. Qed.

Lemma lookup_in_dom (v v' : gmap string inode) (D : gset string) (k : string) :
  is_Some (v !! k) → dom v ⊆ D → D ⊆ dom v' → is_Some (v' !! k).
Proof. intros Hk H1 H2. apply elem_of_dom, H2, H1, elem_of_dom, Hk. Qed.

(** The [try: os.link ... except OSError] block: once the link is
    there, running the block again finds errno 17 and goes on. *)
Lemma rerunnable_link logger src dst l17 t17 a17 l t a :
  rerunnable (try_except_OSError (os_link src dst)
                (on_create_error logger l17 t17 a17 l t a)).
Proof.
  intros g h [] g' D Hgh Hg HD1 HD2.
  unfold try_except_OSError, try_except, os_link, on_create_error, log_to, emit,
    trace, get_volume, put_volume, bind, ret, raise in *. simpl in *.
  destruct (volume g !! key src) as [n|] eqn:Hsrc; simpl in *.
  - assert (is_Some (volume h !! key src)) as [n' Hn'].
    { eapply (lookup_in_dom (volume g')); [|done..].
      destruct (volume g !! key dst); destruct logger; simplify_eq/=; try done.
      all: destruct (decide (key dst = key src)) as [->|];
        [by rewrite lookup_insert_eq | by rewrite lookup_insert_ne // Hsrc]. }
    assert (is_Some (volume h !! key dst)) as [m' Hm'].
    { eapply (lookup_in_dom (volume g')); [|done..].
      destruct (volume g !! key dst) eqn:Hdst; destruct logger; simplify_eq/=; try done.
      all: by rewrite lookup_insert_eq. }
    rewrite Hn' Hm' /=.
    destruct (volume g !! key dst); destruct logger; simplify_eq/=; eauto.
  - destruct logger; simplify_eq/=.
    destruct (volume h !! key src), (volume h !! key dst); simpl; eexists; split_and!; try done.
    rewrite dom_insert_L. set_solver.
Qed.

Lemma never_raises_symlink logger dest p l17 t17 a17 l t a :
  never_raises (try_except_OSError (os_symlink dest p)
                  (on_create_error logger l17 t17 a17 l t a)).
Proof.
  intros w.
  unfold try_except_OSError, try_except, os_symlink, on_create_error, log_to, emit,
    trace, get_volume, put_volume, bind, ret, raise. simpl.
  destruct (volume w !! key p); destruct logger; done.
Qed.

Lemma makedirs_from_raises_OSError ks p v e :
  (makedirs_from ks p v).1 = Raise e → ∃ n t, e = OSError n t.
Proof.
  revert v. induction ks as [|k ks IH]; intros v; simpl; [done|].
  destruct (v !! k) as [n|]; [|apply IH].
  destruct (S_ISDIR _); [apply IH|]. simpl. intros [= <-].
  destruct ks; unfold file_exists; eauto.
Qed.

Lemma never_raises_create_target_dir logger vol_path :
  never_raises (create_target_dir logger vol_path).
Proof.
  intros w.
  unfold create_target_dir, try_except_OSError, try_except, os_path_isdir, os_makedirs,
    log_to, emit, trace, get_volume, put_volume, bind, ret, raise. simpl.
  destruct (volume w !! key vol_path) as [n|] eqn:Hv; simpl.
  - destruct (S_ISDIR (st_mode (i_stat n))) eqn:Hd; simpl.
    + rewrite Hv /= Hd. by destruct logger.
    + destruct logger; simpl.
      all: match goal with |- context [makedirs_from ?ks ?p ?v] =>
             pose proof (makedirs_from_raises_OSError ks p v) as He;
             destruct (makedirs_from ks p v) as [[[]|e] v'] end; simpl in *; try done.
      all: destruct (He e eq_refl) as (? & ? & ->); done.
  - destruct logger; simpl.
    all: match goal with |- context [makedirs_from ?ks ?p ?v] =>
           pose proof (makedirs_from_raises_OSError ks p v) as He;
           destruct (makedirs_from ks p v) as [[[]|e] v'] end; simpl in *; try done.
    all: destruct (He e eq_refl) as (? & ? & ->); done.
Qed.

Lemma share_same_create_target_dir logger vol_path :
  share_same (create_target_dir logger vol_path).
Proof. unfold create_target_dir, try_except_OSError. structural. Qed.

Lemma volume_grows_create_target_dir logger vol_path :
  volume_grows (create_target_dir logger vol_path).
Proof. unfold create_target_dir, try_except_OSError. structural. Qed.

Lemma rerunnable_symlink logger dest p l17 t17 a17 l t a :
  rerunnable (try_except_OSError (os_symlink dest p)
                (on_create_error logger l17 t17 a17 l t a)).
Proof.
  apply never_raises_rerunnable; [apply never_raises_symlink|..];
    unfold try_except_OSError; structural.
Qed.

Lemma rerunnable_create_target_dir logger vol_path :
  rerunnable (create_target_dir logger vol_path).
Proof.
  apply never_raises_rerunnable;
    auto using never_raises_create_target_dir, share_same_create_target_dir,
      volume_grows_create_target_dir.
Qed.

(** Copying attributes onto an entry needs only that the entry is
    there. *)
Lemma copy_file_attrs_ok_iff src dst ft st logger w :
  ft = "SYMLINK" ∨ ft = "REGULAR" ∨ ft = "DIR" →
  (copy_file_attrs src dst ft st logger w).1 = Ok tt ↔ is_Some (volume w !! key dst).
Proof.
  intros [-> | Hft].
  - pose proof (copy_file_attrs_symlink src dst st logger w) as H.
    destruct (copy_file_attrs _ _ _ _ _ w) as [r w']. destruct H as (_ & _ & H). simpl.
    destruct (volume w !! key dst); destruct H as [-> _]; split; eauto; try done.
    all: by intros [? ?].
  - pose proof (copy_file_attrs_all src dst ft st logger w Hft) as H.
    destruct (copy_file_attrs _ _ _ _ _ w) as [r w']. destruct H as (_ & H). simpl.
    destruct (volume w !! key dst); destruct H as [-> _]; split; eauto; try done.
    all: by intros [? ?].
Qed.

Lemma rerunnable_copy_file_attrs src dst ft st logger :
  ft = "SYMLINK" ∨ ft = "REGULAR" ∨ ft = "DIR" →
  rerunnable (copy_file_attrs src dst ft st logger).
Proof.
  intros Hft g h [] g' D Hgh Hg HD1 HD2.
  assert (is_Some (volume g !! key dst)) as Hdst.
  { apply (copy_file_attrs_ok_iff src dst ft st logger g Hft). by rewrite Hg. }
  pose proof (volume_grows_copy_file_attrs src dst ft st logger g) as Hgrow.
  rewrite Hg in Hgrow. simpl in Hgrow.
  assert (is_Some (volume h !! key dst)) as Hdst'.
  { eapply (lookup_in_dom (volume g)); [done| |done]. by etrans. }
  apply (copy_file_attrs_ok_iff src dst ft st logger h Hft) in Hdst'.
  pose proof (share_same_copy_file_attrs src dst ft st logger h) as Hsh.
  pose proof (share_same_copy_file_attrs src dst ft st logger g) as Hsg.
  pose proof (volume_grows_copy_file_attrs src dst ft st logger h) as Hvh.
  rewrite Hg in Hsg.
  destruct (copy_file_attrs src dst ft st logger h) as [r h']. simpl in *. subst r.
  exists h'. split_and!; [done|congruence|by etrans].
Qed.

End rerun.

Global Hint Resolve rerunnable_ret rerunnable_log rerunnable_lstat rerunnable_readlink
  rerunnable_get_inode_info rerunnable_link rerunnable_symlink
  rerunnable_create_target_dir share_same_create_target_dir
  volume_grows_create_target_dir : py.

Ltac rerun :=
  repeat first
    [ progress intros
    | solve [eauto with py]
    | solve [apply rerunnable_copy_file_attrs; auto]
    | apply rerunnable_bind
    | apply volume_grows_bind | apply volume_grows_try
    | match goal with
      | |- _ (if ?b then _ else _) => destruct b
      | |- _ (match ?x with _ => _ end) => destruct x
      end ].

(* ------------------------------------------------------------------ *)
(** ** The file loop                                                   *)
(* ------------------------------------------------------------------ *)

Section entries.

Variables (dirpath : string) (logger : option Logger).
Variables (sharemnt share_root volmnt : string) (volid : Z).

Lemma share_same_link_block src dst l17 t17 a17 l t a :
  share_same (try_except_OSError (os_link src dst)
                (on_create_error logger l17 t17 a17 l t a)).
Proof. unfold try_except_OSError. structural. Qed.

Lemma volume_grows_link_block src dst l17 t17 a17 l t a :
  volume_grows (try_except_OSError (os_link src dst)
                  (on_create_error logger l17 t17 a17 l t a)).
Proof. unfold try_except_OSError. structural. Qed.

Lemma share_same_symlink_block dest p l17 t17 a17 l t a :
  share_same (try_except_OSError (os_symlink dest p)
                (on_create_error logger l17 t17 a17 l t a)).
Proof. unfold try_except_OSError. structural. Qed.

Lemma volume_grows_symlink_block dest p l17 t17 a17 l t a :
  volume_grows (try_except_OSError (os_symlink dest p)
                  (on_create_error logger l17 t17 a17 l t a)).
Proof. unfold try_except_OSError. structural. Qed.

Hint Resolve share_same_link_block volume_grows_link_block
  share_same_symlink_block volume_grows_symlink_block share_same_shrinks : py.

Lemma share_shrinks_migrate_file vol_path fn sf vf st :
  share_shrinks (migrate_file logger volmnt volid vol_path fn sf vf st).
Proof. unfold migrate_file. structural. Qed.

Lemma volume_grows_migrate_file vol_path fn sf vf st :
  volume_grows (migrate_file logger volmnt volid vol_path fn sf vf st).
Proof. unfold migrate_file. structural. Qed.

Lemma rerunnable_migrate_file vol_path fn sf vf st :
  rerunnable (migrate_file logger volmnt volid vol_path fn sf vf st).
Proof. unfold migrate_file. rerun. Qed.

Hint Resolve share_shrinks_migrate_file volume_grows_migrate_file
  rerunnable_migrate_file : py.

Lemma share_shrinks_migrate_entry vol_path fn acc :
  share_shrinks (migrate_entry dirpath logger volmnt volid vol_path fn acc).
Proof. unfold migrate_entry. structural. Qed.

Lemma volume_grows_migrate_entry vol_path fn acc :
  volume_grows (migrate_entry dirpath logger volmnt volid vol_path fn acc).
Proof. unfold migrate_entry. structural. Qed.

Lemma rerunnable_migrate_entry vol_path fn acc :
  rerunnable (migrate_entry dirpath logger volmnt volid vol_path fn acc).
Proof. unfold migrate_entry. rerun. Qed.

Hint Resolve share_shrinks_migrate_entry volume_grows_migrate_entry
  rerunnable_migrate_entry : py.

Lemma share_shrinks_migrate_entries vol_path fns acc :
  share_shrinks (migrate_entries dirpath logger volmnt volid vol_path fns acc).
Proof. revert acc. induction fns; simpl; structural. Qed.

Lemma volume_grows_migrate_entries vol_path fns acc :
  volume_grows (migrate_entries dirpath logger volmnt volid vol_path fns acc).
Proof. revert acc. induction fns; simpl; structural. Qed.

Lemma rerunnable_migrate_entries vol_path fns acc :
  rerunnable (migrate_entries dirpath logger volmnt volid vol_path fns acc).
Proof.
  revert acc. induction fns as [|fn fns IH]; simpl; intros acc; [rerun|].
  apply rerunnable_bind; [rerun| |done].
  intros acc'. apply volume_grows_migrate_entries.
Qed.

Hint Resolve share_shrinks_migrate_entries volume_grows_migrate_entries
  rerunnable_migrate_entries : py.

Lemma share_shrinks_deassimilate_dir fns :
  share_shrinks (deassimilate_dir dirpath logger sharemnt share_root volmnt volid fns).
Proof. unfold deassimilate_dir, try_except_OSError. structural. Qed.

Lemma volume_grows_deassimilate_dir fns :
  volume_grows (deassimilate_dir dirpath logger sharemnt share_root volmnt volid fns).
Proof. unfold deassimilate_dir, try_except_OSError. structural. Qed.

Lemma rerunnable_deassimilate_dir fns :
  rerunnable (deassimilate_dir dirpath logger sharemnt share_root volmnt volid fns).
Proof. unfold deassimilate_dir. rerun. Qed.

End entries.

(* ------------------------------------------------------------------ *)
(** ** The source after a run                                          *)
(* ------------------------------------------------------------------ *)

Section restore.

Variables (dirpath : string) (logger : option Logger).
Variables (sharemnt share_root volmnt : string) (volid : Z).

Lemma share_same_when_bind {A B} P (c : M A) (k : A → M B) :
  share_same_when P c → (∀ a, share_same_when P (k a)) → share_same_when P (bind c k).
Proof.
  intros Hc Hk w HP. unfold bind. specialize (Hc w HP).
  destruct (c w) as [[a|e] w']; simpl in *; [|done].
  rewrite -Hc. apply Hk. by rewrite Hc.
Qed.

Lemma share_same_always {A} P (c : M A) : share_same c → share_same_when P c.
Proof. intros Hc w _. apply Hc. Qed.

Lemma share_same_when_weaken {A} (P Q : gmap string inode → Prop) (c : M A) :
  (∀ s, Q s → P s) → share_same_when P c → share_same_when Q c.
Proof. intros HPQ Hc w HQ. apply Hc, HPQ, HQ. Qed.

(** The query gives the share back as it was when the sanitized name is
    free. *)
Lemma share_same_when_get_inode_info p :
  share_same_when (fun s => sanitized_free s p) (get_inode_info p).
Proof.
  intros w Hfree. destruct (contains_char qmark (path_name (Path p))) eqn:Hq.
  - pose proof (get_inode_info_qmark p w Hq) as H. simpl in H.
    destruct (get_inode_info p w) as [r w']. destruct H as (_ & _ & H). simpl.
    destruct (share w !! key p); destruct H as (_ & _ & ->); [|done].
    case_decide; [done|]. apply delete_id. by apply Hfree.
  - unfold get_inode_info. rewrite temp_rename_plain; [done|]. by rewrite share_same_load.
Qed.

Lemma share_same_when_migrate_file vol_path fn sf vf st :
  share_same_when (fun s => sanitized_free s sf)
    (migrate_file logger volmnt volid vol_path fn sf vf st).
Proof.
  unfold migrate_file.
  repeat first
    [ progress intros
    | apply share_same_when_get_inode_info
    | solve [apply share_same_always; unfold try_except_OSError; structural]
    | apply share_same_when_bind
    | match goal with
      | |- _ (if ?b then _ else _) => destruct b
      | |- _ (match ?x with _ => _ end) => destruct x
      end ].
Qed.

Lemma share_same_when_migrate_entry vol_path fn acc :
  share_same_when (fun s => sanitized_free s (os_path_join dirpath fn))
    (migrate_entry dirpath logger volmnt volid vol_path fn acc).
Proof.
  unfold migrate_entry.
  repeat first
    [ progress intros
    | apply share_same_when_migrate_file
    | solve [apply share_same_always; structural]
    | apply share_same_when_bind ].
Qed.

Lemma share_same_when_migrate_entries vol_path fns acc :
  share_same_when (fun s => no_collision s dirpath fns)
    (migrate_entries dirpath logger volmnt volid vol_path fns acc).
Proof.
  revert acc. induction fns as [|fn fns IH]; intros acc; simpl.
  - apply share_same_always. structural.
  - apply share_same_when_bind.
    + eapply share_same_when_weaken; [|apply share_same_when_migrate_entry].
      intros s Hs. apply Hs. by left.
    + intros acc'. eapply share_same_when_weaken; [|apply IH].
      intros s Hs fn' Hfn'. apply Hs. by right.
Qed.

(** A run gives the share back as it was when no entry stands at the
    sanitized name of another. *)
Lemma share_same_when_deassimilate_dir fns :
  share_same_when (fun s => no_collision s dirpath fns)
    (deassimilate_dir dirpath logger sharemnt share_root volmnt volid fns).
Proof.
  unfold deassimilate_dir.
  repeat first
    [ progress intros
    | apply share_same_when_migrate_entries
    | solve [apply share_same_always; unfold try_except_OSError; structural]
    | apply share_same_when_bind
    | match goal with
      | |- _ (if ?b then _ else _) => destruct b
      end ].
Qed.

End restore.

(* ------------------------------------------------------------------ *)
(** ** Idempotence                                                     *)
(* ------------------------------------------------------------------ *)

Section idempotence.

Variables (dirpath : string) (logger : option Logger).
Variables (sharemnt share_root volmnt : string) (volid : Z).

(** Errno 17 from a link, symlink or directory creation never leaves
    the handler as an exception. *)
Lemma on_create_error_17 l17 t17 a17 l t a e w :
  (on_create_error logger l17 t17 a17 l t a 17 e w).1 = Ok tt.
Proof. unfold on_create_error. simpl. apply never_raises_log. Qed.

(** In the model, when [deassimilate_dir] has returned a summary,
    running it again on the same directory and names, with the source
    as it was and a target that holds every name the first run left
    there, returns the same summary: every creation that finds its name
    taken ends in errno 17, which the handlers log and pass over.  The
    second run may start from the world the first run left when no
    entry of the directory stands at the sanitized name of another. *)
Lemma deassimilate_dir_idempotent (filenames : list string) (w0 w1 w2 : world)
    (s1 : DirectorySummary) :
  deassimilate_dir dirpath logger sharemnt share_root volmnt volid filenames w0 = (Ok s1, w1) →
  share w2 = share w0 →
  dom (volume w1) ⊆ dom (volume w2) →
  (∃ w3, deassimilate_dir dirpath logger sharemnt share_root volmnt volid filenames w2
         = (Ok s1, w3))
  ∧ (no_collision (share w0) dirpath filenames →
     ∃ w3, deassimilate_dir dirpath logger sharemnt share_root volmnt volid filenames w1
           = (Ok s1, w3))
  ∧ (∀ l17 t17 a17 l t a e w,
       (on_create_error logger l17 t17 a17 l t a 17 e w).1 = Ok tt)
  ∧ never_raises (create_target_dir logger
                    (compute_vol_path sharemnt share_root volmnt dirpath)).
Proof.
  intros Hrun Hshare Hdom. split_and!.
  - destruct (rerunnable_deassimilate_dir dirpath logger sharemnt share_root volmnt volid
                filenames w0 w2 s1 w1 (dom (volume w1))) as (w3 & Hw3 & _); eauto.
  - intros Hfree.
    pose proof (share_same_when_deassimilate_dir dirpath logger sharemnt share_root volmnt
                  volid filenames w0 Hfree) as Hs.
    rewrite Hrun in Hs. simpl in Hs.
    destruct (rerunnable_deassimilate_dir dirpath logger sharemnt share_root volmnt volid
                filenames w0 w1 s1 w1 (dom (volume w1))) as (w3 & Hw3 & _); eauto.
  - intros. apply on_create_error_17.
  - apply never_raises_create_target_dir.
Qed.

End idempotence.

(* ------------------------------------------------------------------ *)
(** ** Files without a usable placement                                *)
(* ------------------------------------------------------------------ *)

Section placement.

Variables (dirpath : string) (logger : option Logger).
Variables (volmnt : string) (volid : Z).

Lemma log_to_run l t a w : log_to logger l t a w = (Ok tt, logged logger l t a w).
Proof. unfold log_to, logged. by destruct logger. Qed.

Lemma bind_log {B} l t a (k : unit → M B) w :
  bind (log_to logger l t a) k w = k tt (logged logger l t a w).
Proof. unfold bind. by rewrite log_to_run. Qed.

Lemma logged_share l t a w : share (logged logger l t a w) = share w.
Proof. unfold logged. by destruct logger. Qed.

Lemma logged_volume l t a w : volume (logged logger l t a w) = volume w.
Proof. unfold logged. by destruct logger. Qed.


Lemma logged_log_some l t a w :
  is_Some logger → log (logged logger l t a w) = log w ++ [mkLog l t a].
Proof. by intros [? ->]. Qed.

(** The query on an entry that is there: its outcome is that of
    parsing the entry's side-channel text, and the entry keeps its
    name. *)
Lemma get_inode_info_spec path w n :
  share w !! key path = Some n →
  ∃ w', get_inode_info path w
        = (match i_info n with
           | Document d => Ok d
           | Malformed => Raise (JSONDecodeError "Expecting value")
           end, w')
      ∧ volume w' = volume w ∧ log w' = log w
      ∧ share w' !! key path = Some n.
Proof.
  intros Hn. destruct (contains_char qmark (path_name (Path path))) eqn:Hq.
  - pose proof (get_inode_info_qmark path w Hq) as H. simpl in H.
    destruct (get_inode_info path w) as [r w']. exists w'.
    destruct H as (Hv & Hl & H). rewrite Hn in H. destruct H as (_ & -> & Hs).
    split_and!; try done. rewrite Hs.
    case_decide; [done|]. by rewrite lookup_delete_ne.
  - unfold get_inode_info. rewrite temp_rename_plain; [done|].
    unfold load_inode_info, trace, get_share, bind, ret, raise. simpl.
    rewrite key_idemp Hn. destruct (i_info n); eexists; split_and!; done.
Qed.


Lemma find_instance_some l i :
  find_instance l volid = Some i → i ∈ l ∧ obs i = volid.
Proof.
  induction l as [|j l IH]; simpl; [done|].
  destruct (obs j =? volid) eqn:E.
  - intros [= <-]. split; [left | by apply Z.eqb_eq].
  - intros [? ?]%IH. split; [by right | done].
Qed.


End placement.

(* ------------------------------------------------------------------ *)
(** ** The summary                                                     *)
(* ------------------------------------------------------------------ *)

Section summary.

Context `{!StrLower}.
Variables (dirpath : string) (logger : option Logger).
Variables (sharemnt share_root volmnt : string) (volid : Z).

Lemma os_lstat_inv p w st w' :
  os_lstat p w = (Ok st, w') →
  ∃ n, share w !! key p = Some n ∧ st = i_stat n ∧ share w' = share w.
Proof.
  unfold os_lstat, trace, get_share, bind, ret, raise. simpl.
  destruct (share w !! key p) as [n|]; [|done]. intros [= <- <-]. eauto.
Qed.

Lemma migrate_entry_inv vol_path fn acc w acc' w' :
  migrate_entry dirpath logger volmnt volid vol_path fn acc w = (Ok acc', w') →
  ∃ n, share w !! key (os_path_join dirpath fn) = Some n
       ∧ acc' = tally acc (ext_of dirpath fn) (st_size (i_stat n))
       ∧ share w' ⊆ share w.
Proof.
  unfold migrate_entry. rewrite !(bind_log logger).
  intros (st & w1 & Hstat & Hrest)%bind_inv.
  apply os_lstat_inv in Hstat as (n & Hn & -> & Hs1).
  rewrite !(logged_share logger) in Hn Hs1.
  apply bind_inv in Hrest as ([] & w2 & Hfile & Hret).
  unfold ret in Hret. injection Hret as <- <-.
  exists n. split_and!; [done..|].
  pose proof (share_shrinks_migrate_file logger volmnt volid vol_path fn
                (os_path_join dirpath fn) (os_path_join vol_path fn) (i_stat n) w1) as Hsh.
  rewrite Hfile in Hsh. simpl in Hsh. by rewrite Hs1 in Hsh.
Qed.

Lemma migrate_entries_tally vol_path fns acc w acc' w' (S0 : gmap string inode) :
  migrate_entries dirpath logger volmnt volid vol_path fns acc w = (Ok acc', w') →
  share w ⊆ S0 →
  acc' = foldl (fun a fn => tally a (ext_of dirpath fn) (lstat_size S0 dirpath fn)) acc fns.
Proof.
  revert acc w. induction fns as [|fn fns IH]; intros acc w; simpl.
  - unfold ret. by intros [= <- <-].
  - intros (acc1 & w1 & Hentry & Hrest)%bind_inv Hsub.
    apply migrate_entry_inv in Hentry as (n & Hn & -> & Hs1).
    rewrite (IH _ _ Hrest); [by etrans|].
    replace (lstat_size S0 dirpath fn) with (st_size (i_stat n)); [done|].
    unfold lstat_size. by rewrite (lookup_weaken _ _ _ _ Hn Hsub).
Qed.

Lemma count_ext_nonneg fns ext : 0 ≤ count_ext dirpath fns ext.
Proof. unfold count_ext. lia. Qed.

Lemma count_ext_cons fn fns ext :
  count_ext dirpath (fn :: fns) ext
  = (if decide (ext_of dirpath fn = ext) then 1 else 0) + count_ext dirpath fns ext.
Proof.
  unfold count_ext. rewrite filter_cons. case_decide; simpl length; lia.
Qed.

Lemma foldl_tally_sizes (S0 : gmap string inode) fns acc :
  (foldl (fun a fn => tally a (ext_of dirpath fn) (lstat_size S0 dirpath fn)) acc fns).2
  = acc.2 + sum_sizes S0 dirpath fns.
Proof.
  revert acc. induction fns as [|fn fns IH]; intros acc; simpl.
  - unfold sum_sizes. simpl. lia.
  - rewrite IH. unfold sum_sizes, tally. rewrite fmap_cons. simpl. lia.
Qed.

Lemma foldl_tally_counts (S0 : gmap string inode) fns acc ext :
  (foldl (fun a fn => tally a (ext_of dirpath fn) (lstat_size S0 dirpath fn)) acc fns).1 !! ext
  = if decide (count_ext dirpath fns ext = 0) then acc.1 !! ext
    else Some (default 0 (acc.1 !! ext) + count_ext dirpath fns ext).
Proof.
  revert acc. induction fns as [|fn fns IH]; intros acc; simpl.
  - done.
  - rewrite IH count_ext_cons. pose proof (count_ext_nonneg fns ext) as Hnn.
    unfold tally at 1 2. simpl.
    destruct (decide (ext_of dirpath fn = ext)) as [->|Hne].
    + rewrite lookup_insert_eq. simpl.
      repeat case_decide; try lia; f_equal; lia.
    + rewrite lookup_insert_ne; [done|].
      repeat case_decide; try lia; f_equal; lia.
Qed.

Lemma migrate_entries_guard vol_path fns acc :
  (if 0 <? Z.of_nat (length fns)
   then migrate_entries dirpath logger volmnt volid vol_path fns acc
   else ret acc)
  = migrate_entries dirpath logger volmnt volid vol_path fns acc.
Proof. by destruct fns. Qed.

Lemma split_slash_app_gen (x y : string) :
  split_slash (x +:+ String slash y) = split_slash x ++ split_slash y.
Proof.
  induction x as [|c x IH]; [done|].
  rewrite app_cons_str /=. rewrite IH.
  destruct (is_slash c); [done|].
  pose proof (split_slash_nonempty x). by destruct (split_slash x).
Qed.

Lemma endswith_slash_inv (s : string) :
  endswith_slash s = true → ∃ s', s = s' +:+ "/".
Proof.
  induction s as [|c s IH]; [done|]. simpl.
  destruct s as [|c' s].
  - intros ->%is_slash_true. by exists "".
  - intros [s' ->]%IH. by exists (String c s').
Qed.

Lemma lstrip_slash_app (x y : string) :
  lstrip_slash (x +:+ y)
  = if bool_decide (lstrip_slash x = "") then lstrip_slash y else lstrip_slash x +:+ y.
Proof.
  induction x as [|c x IH]; [done|].
  rewrite app_cons_str /=. destruct (is_slash c); [done|]. by rewrite app_cons_str.
Qed.

Lemma last_parts_file (u fn : string) :
  valid_part fn = true →
  List.last (filter (fun x => Is_true (keep_part x)) (split_slash (u +:+ String slash fn))) ""
  = fn.
Proof.
  intros Hfn. rewrite split_slash_app_gen filter_app.
  rewrite (split_slash_single fn); [by apply valid_part_no_slash|].
  rewrite filter_cons_True; [apply Is_true_true; by apply valid_part_keep|].
  rewrite filter_nil. apply last_last.
Qed.

Lemma last_parts_file_only (fn : string) :
  valid_part fn = true →
  List.last (filter (fun x => Is_true (keep_part x)) (split_slash fn)) "" = fn.
Proof.
  intros Hfn. rewrite (split_slash_single fn); [by apply valid_part_no_slash|].
  rewrite filter_cons_True; [apply Is_true_true; by apply valid_part_keep|]. done.
Qed.

(** The name of a path that ends in a slash and a file name *)
Lemma path_name_file (u fn : string) :
  valid_part fn = true → path_name (Path (u +:+ String slash fn)) = fn.
Proof.
  intros Hfn. pose proof (valid_part_not_startswith fn Hfn) as Hsw.
  unfold path_name, Path, splitroot.
  destruct (startswith_slash (u +:+ String slash fn)).
  - assert (Hrel : ∃ u', lstrip_slash (u +:+ String slash fn) = u' +:+ String slash fn
                       ∨ lstrip_slash (u +:+ String slash fn) = fn).
    { rewrite lstrip_slash_app. case_bool_decide.
      - exists "". right. simpl. by apply lstrip_not_startswith.
      - exists (lstrip_slash u). by left. }
    destruct Hrel as (u' & [-> | ->]);
      match goal with |- context [(?a =? ?b)%nat] => destruct (a =? b)%nat end; simpl;
      auto using last_parts_file, last_parts_file_only.
  - simpl. by apply last_parts_file.
Qed.

Lemma path_name_only (fn : string) : valid_part fn = true → path_name (Path fn) = fn.
Proof.
  intros Hfn. unfold path_name, Path.
  rewrite splitroot_rel; [by apply valid_part_not_startswith|]. simpl.
  by apply last_parts_file_only.
Qed.

Lemma path_name_join (fn : string) :
  valid_part fn = true → path_name (Path (os_path_join dirpath fn)) = fn.
Proof.
  intros Hfn. unfold os_path_join.
  rewrite (valid_part_not_startswith fn Hfn).
  destruct (bool_decide (dirpath = "")) eqn:Hd; simpl.
  - apply bool_decide_eq_true in Hd as ->. by apply path_name_only.
  - destruct (endswith_slash dirpath) eqn:He.
    + apply endswith_slash_inv in He as [d' ->].
      rewrite app_assoc_str. by apply path_name_file.
    + by apply path_name_file.
Qed.

(** The extension an entry is counted under is the lower-cased suffix
    of its name. *)
Lemma ext_of_file_name (fn : string) :
  valid_part fn = true → ext_of dirpath fn = str_lower (path_suffix (Path fn)).
Proof.
  intros Hfn. unfold ext_of, path_suffix.
  by rewrite path_name_join // path_name_only.
Qed.

(** C7, as the code has it.  The directory is named without a
    trailing slash and the entries by plain names, as a listing yields
    them.  When [deassimilate_dir] returns, the summary names the
    directory and its [total_files] is the number of entries passed in.
    For a directory that is not itself a symbolic link,
    [extension_counts] maps each extension to the number of entries
    counted under it (the lower-cased suffix of the name, whatever
    [str.lower] does to it) and holds no other key, and
    [total_size_bytes] is the sum of the sizes [os.lstat] reports for
    the entries, every entry included whatever became of its link.  For
    a directory that is a symbolic link no entry is visited:
    [extension_counts] is empty and [total_size_bytes] is 0. *)
Theorem summary_counts_entries (filenames : list string) (w w' : world)
    (s : DirectorySummary) :
  endswith_slash dirpath = false →
  Forall (fun fn => plain_name fn = true) filenames →
  deassimilate_dir dirpath logger sharemnt share_root volmnt volid filenames w = (Ok s, w') →
  ∃ n, share w !! key dirpath = Some n
    ∧ directory s = dirpath
    ∧ total_files s = Z.of_nat (length filenames)
    ∧ (if bool_decide (get_filetype (i_stat n) = Some "SYMLINK")
       then extension_counts s = ∅ ∧ total_size_bytes s = 0
       else summary_tallies (share w) dirpath filenames s)
    ∧ (∀ fn, valid_part fn = true → ext_of dirpath fn = str_lower (path_suffix (Path fn))).
Proof.
  intros _ _. unfold deassimilate_dir. rewrite !(bind_log logger).
  intros (st & w1 & Hstat & Hrest)%bind_inv.
  apply os_lstat_inv in Hstat as (n & Hn & -> & Hs1).
  rewrite !(logged_share logger) in Hn Hs1.
  exists n. split; [done|].
  destruct (bool_decide (get_filetype (i_stat n) = Some "SYMLINK")).
  - rewrite (bind_log logger) in Hrest.
    apply bind_inv in Hrest as (dest & w2 & _ & Hrest).
    rewrite (bind_log logger) in Hrest.
    apply bind_inv in Hrest as ([] & w3 & _ & Hrest).
    apply bind_inv in Hrest as ([] & w4 & _ & Hrest).
    rewrite (bind_log logger) in Hrest.
    unfold ret in Hrest. injection Hrest as <- _.
    split_and!; auto using ext_of_file_name.
  - rewrite (bind_log logger) in Hrest.
    apply bind_inv in Hrest as ([] & w2 & Hdir & Hrest).
    apply bind_inv in Hrest as ([] & w3 & Hattr & Hrest).
    apply bind_inv in Hrest as (acc & w4 & Hloop & Hrest).
    unfold ret in Hrest. injection Hrest as <- _.
    rewrite migrate_entries_guard in Hloop.
    assert (Hs3 : share w3 = share w).
    { pose proof (share_same_create_target_dir logger
                    (compute_vol_path sharemnt share_root volmnt dirpath)
                    (logged logger DEBUG "From {dirpath} to {vol_path}"
                       [FStr dirpath; FStr (compute_vol_path sharemnt share_root volmnt dirpath)]
                       w1)) as H2.
      rewrite Hdir in H2. simpl in H2. rewrite (logged_share logger) in H2.
      pose proof (share_same_copy_file_attrs dirpath
                    (compute_vol_path sharemnt share_root volmnt dirpath) "DIR" (i_stat n)
                    logger w2) as H3.
      rewrite Hattr in H3. simpl in H3. congruence. }
    apply (migrate_entries_tally _ _ _ _ _ _ (share w)) in Hloop; [|by rewrite Hs3].
    split_and!; auto using ext_of_file_name.
    unfold summary_tallies. simpl. subst acc. split_and!; [done| |].
    + intros ext. rewrite foldl_tally_counts. simpl. rewrite lookup_empty. simpl.
      by rewrite Z.add_0_l.
    + rewrite foldl_tally_sizes. simpl. lia.
Qed.

End summary.

(* ------------------------------------------------------------------ *)
(** ** A link that cannot be made                                      *)
(* ------------------------------------------------------------------ *)

Section link_failure.

(** With a logger, an error other than errno 17 is logged and raised
    again. *)
Lemma on_create_error_logged_and_raised lg l17 t17 a17 l t a n e w :
  n ≠ 17 →
  on_create_error (Some lg) l17 t17 a17 l t a n e w
  = (Raise e, mkWorld (share w) (volume w) (log w ++ [mkLog l t (a ++ [FExn e])]) (calls w)).
Proof.
  intros Hn. unfold on_create_error.
  destruct (n =? 17) eqn:E; [by apply Z.eqb_eq in E|]. done.
Qed.

(** Without a logger the same error is dropped: nothing is logged and
    nothing is raised. *)
Lemma on_create_error_dropped l17 t17 a17 l t a n e w :
  n ≠ 17 → on_create_error None l17 t17 a17 l t a n e w = (Ok tt, w).
Proof.
  intros Hn. unfold on_create_error.
  destruct (n =? 17) eqn:E; [by apply Z.eqb_eq in E|]. done.
Qed.

(** The entry "lost.txt" is placed on volume 7 at a path that is not on
    the volume, so that [os.link] fails with errno 2. *)
Example lost_link_fails :
  (os_link "/mnt/vol/x/lost.txt" "/mnt/vol/share1/d/lost.txt" example_world).1
  = Raise (OSError 2 "No such file or directory: /mnt/vol/x/lost.txt").
Proof. reflexivity. Qed.

(** C2, where the code departs from it.  Run without a logger on a
    directory whose first entry cannot be linked (errno 2), the function
    raises nothing: it returns the summary, hands nothing to a logger,
    and goes on to link the second entry.  Run with a logger on the
    same input it raises the error at the first entry. *)
Theorem link_failure_without_logger_not_raised :
  let '(r, w) := example_run "/mnt/share/d" ["lost.txt"; "file.TXT"] None example_world in
  (∃ s, r = Ok s ∧ total_files s = 2)
  ∧ log w = []
  ∧ Sys_link "/mnt/vol/x/lost.txt" "/mnt/vol/share1/d/lost.txt" ∈ calls w
  ∧ volume w !! "/mnt/vol/share1/d/lost.txt" = None
  ∧ is_Some (volume w !! "/mnt/vol/share1/d/file.TXT")
  ∧ (example_run "/mnt/share/d" ["lost.txt"; "file.TXT"] example_logger example_world).1
    = Raise (OSError 2 "No such file or directory: /mnt/vol/x/lost.txt").
Proof.
  vm_compute. split_and!; try reflexivity.
  - eexists. split; reflexivity.
  - repeat (first [ by left | right ]).
  - by eexists.
Qed.

(** The summary of a symlinked directory misses the entries passed in:
    the file loop is in the branch for plain directories.  The link is
    made in a directory the volume holds, and the function returns. *)
Lemma symlinked_directory_not_tallied :
  ∃ s w', quiet_link_run example_world = (Ok s, w')
    ∧ total_files s = 1
    ∧ volume w' !! "/mnt/vol/x/ln" = Some (set_owner 1000 1000 (new_symlink "d"))
    ∧ ¬ summary_tallies example_share "/mnt/share/ln" ["file.TXT"] s.
Proof.
  eexists _, _. split; [vm_compute; reflexivity|].
  split; [reflexivity|]. split; [vm_compute; reflexivity|].
  intros (_ & _ & Hsize). vm_compute in Hsize. discriminate.
Qed.

End link_failure.

(* ------------------------------------------------------------------ *)
(** ** The worker                                                      *)
(* ------------------------------------------------------------------ *)

Section worker_props.

Variable scandir : string → world → listing.
Variable processor_func : string → list string → option Logger → M DirectorySummary.

Lemma scan_entries_returns entries logger filenames w :
  ∃ l w', scan_entries entries logger filenames w = (Ok l, w').
Proof.
  revert filenames w. induction entries as [|entry rest IH]; intros filenames w; simpl.
  - unfold ret. eauto.
  - destruct (de_is_file entry); [apply IH|].
    destruct (de_is_symlink entry); [|apply IH].
    destruct (de_target entry) as [[]| |]; try apply IH.
    all: unfold bind, log_to; destruct logger; simpl; apply IH.
Qed.

(** A listing fails with an [OSError] only. *)
Lemma get_files_only_raises dirpath logger w e w' :
  _get_files_only scandir dirpath logger w = (Raise e, w') → ∃ n t, e = OSError n t.
Proof.
  unfold _get_files_only, os_scandir, bind.
  destruct (scandir dirpath w) as [entries|n t]; [|intros [= <- _]; eauto].
  destruct (scan_entries_returns entries logger [] w) as (l & w1 & ->).
  unfold log_to. destruct logger; simpl; done.
Qed.

(** One turn on a task posts one result and leaves the loop running. *)
Lemma worker_turn_task logger directory names s :
  let w0 := logged logger DEBUG "queue: {directory}" [FStr directory]
              (logged logger DEBUG "Waiting to take item off queue" [] (ws_world s)) in
  let '(r, s') := worker_turn scandir processor_func logger (Got (Some (directory, names))) s in
  r = Ok false
  ∧ match _get_files_only scandir directory logger w0 with
    | (Ok filenames, w1) =>
        match processor_func directory filenames logger w1 with
        | (Ok processing_result, _) =>
            ws_results s' = ws_results s ++
              [mkDirectoryResult directory "success"
                 (map (fun filename =>
                         mkFileResult (path_str (truediv (Path directory) (Path filename)))
                                      "success" None) filenames)
                 (Some processing_result) None]
        | (Raise e, _) =>
            ws_results s' = ws_results s ++
              [mkDirectoryResult directory "error" [] None (Some (str_exn e))]
        end
    | (Raise e, _) =>
        ws_results s' = ws_results s ++
          [mkDirectoryResult "unknown" "error" [] None (Some (str_exn e))]
    end.
Proof.
  unfold worker_turn, try_except, bind, in_world, task_queue_get, result_queue_put, ret.
  rewrite !log_to_run. simpl.
  set (w0 := logged logger DEBUG "queue: {directory}" _ _).
  pose proof (get_files_only_raises directory logger w0) as Hlist.
  destruct (_get_files_only scandir directory logger w0) as [[filenames|e] w1]; simpl.
  - destruct (processor_func directory filenames logger w1) as [[pr|e] w2]; simpl.
    + rewrite log_to_run. simpl. by rewrite map_map.
    + done.
  - destruct (Hlist e w1 eq_refl) as (n & t & ->). rewrite log_to_run. done.
Qed.

Lemma worker_turn_results logger g s :
  let '(r, s') := worker_turn scandir processor_func logger g s in
  r = Ok (is_pill g)
  ∧ length (ws_results s')
    = (length (ws_results s) + match g with Got (Some _) => 1 | _ => 0 end)%nat.
Proof.
  destruct g as [|[[directory names]|]].
  - unfold worker_turn, try_except, bind, in_world, task_queue_get, raise, ret.
    rewrite log_to_run. simpl. split; [done|lia].
  - pose proof (worker_turn_task logger directory names s) as H. simpl in H.
    destruct (worker_turn _ _ _ _ s) as [r s']. destruct H as [-> H]. split; [done|].
    repeat case_match; rewrite H length_app /=; lia.
  - unfold worker_turn, try_except, bind, in_world, task_queue_get, raise, ret.
    rewrite !log_to_run. simpl. split; [done|lia].
Qed.

Lemma worker_loop_results logger gets s :
  let '(r, s') := worker_loop scandir processor_func logger gets s in
  r = Ok (existsb is_pill gets)
  ∧ length (ws_results s')
    = (length (ws_results s) + length (dequeued_tasks gets))%nat.
Proof.
  revert s. induction gets as [|g gets IH]; intros s; simpl.
  - unfold ret. split; [done|lia].
  - unfold bind. pose proof (worker_turn_results logger g s) as H.
    destruct (worker_turn _ _ _ g s) as [r s1]. destruct H as [-> Hlen].
    destruct g as [|[t|]]; simpl in *.
    + specialize (IH s1). destruct (worker_loop _ _ _ gets s1) as [r s2].
      destruct IH as [-> IH]. split; [done|lia].
    + specialize (IH s1). destruct (worker_loop _ _ _ gets s1) as [r s2].
      destruct IH as [-> IH]. split; [done|lia].
    + unfold ret. split; [done|lia].
Qed.

(** C3. For a task taken off the queue that is not the poison pill, the
    worker posts exactly one [DirectoryResult] and stays in its loop:
    with status "success", one [FileResult] per listed name and the
    value the processor function returned when it returns; with status
    "error", the string of the exception, no file results and no
    processing result when it raises.  (When the listing of the
    directory fails before the processor function is called, the one
    result posted is an "error" for the directory "unknown".)  Over a
    whole run the result queue grows by one entry per task taken before
    the poison pill, and the loop ends only on the pill. *)
Theorem worker_posts_one_result_per_task (need_logger : bool) (directory : string)
    (names : list string) (gets : list get_outcome) (s : worker_state) :
  let logger := if need_logger then Some (mkLogger progname DEBUG) else None in
  (let w0 := logged logger DEBUG "queue: {directory}" [FStr directory]
               (logged logger DEBUG "Waiting to take item off queue" [] (ws_world s)) in
   let '(r, s') := worker_turn scandir processor_func logger (Got (Some (directory, names))) s in
   r = Ok false
   ∧ match _get_files_only scandir directory logger w0 with
     | (Ok filenames, w1) =>
         match processor_func directory filenames logger w1 with
         | (Ok processing_result, _) =>
             ws_results s' = ws_results s ++
               [mkDirectoryResult directory "success"
                  (map (fun filename =>
                          mkFileResult (path_str (truediv (Path directory) (Path filename)))
                                       "success" None) filenames)
                  (Some processing_result) None]
         | (Raise e, _) =>
             ws_results s' = ws_results s ++
               [mkDirectoryResult directory "error" [] None (Some (str_exn e))]
         end
     | (Raise e, _) =>
         ws_results s' = ws_results s ++
           [mkDirectoryResult "unknown" "error" [] None (Some (str_exn e))]
     end)
  ∧ (let '(r, s') := _worker_function scandir processor_func need_logger gets s in
     r = Ok (existsb is_pill gets)
     ∧ length (ws_results s')
       = (length (ws_results s) + length (dequeued_tasks gets))%nat).
Proof.
  intros logger. split.
  - apply worker_turn_task.
  - apply worker_loop_results.
Qed.

End worker_props.

(* ------------------------------------------------------------------ *)
(** ** The scheduler                                                   *)
(* ------------------------------------------------------------------ *)

Section walker_props.

Variable alive : nat → nat → bool.

Lemma puts_app evs1 evs2 : puts (evs1 ++ evs2) = puts evs1 ++ puts evs2.
Proof. unfold puts. apply omap_app. Qed.

Lemma joins_app evs1 evs2 : joins (evs1 ++ evs2) = joins evs1 ++ joins evs2.
Proof. unfold joins. apply omap_app. Qed.

Lemma puts_joins ws : puts (map Ev_join ws) = [].
Proof. induction ws; [done|]. simpl. done. Qed.

Lemma joins_joins ws : joins (map Ev_join ws) = ws.
Proof.
  induction ws as [|x ws IH]; [done|].
  change (joins (map Ev_join (x :: ws))) with (x :: joins (map Ev_join ws)).
  by rewrite IH.
Qed.

Lemma puts_starts ws : puts (map Ev_start ws) = [].
Proof. induction ws; [done|]. simpl. done. Qed.

Lemma joins_starts ws : joins (map Ev_start ws) = [].
Proof. induction ws; [done|]. simpl. done. Qed.

(** The traversal loop up to the enqueue after which no worker is
    alive. *)
Lemma feed_tasks_abort workers dirs1 d dirs2 n :
  (∀ j, (1 ≤ j ≤ length dirs1)%nat → existsb (alive (n + j)) workers = true) →
  existsb (alive (n + S (length dirs1))) workers = false →
  ∃ evs, feed_tasks alive workers (dirs1 ++ d :: dirs2) n = (evs, true)
    ∧ puts evs = map (fun p => Some (path_str (Path p), [])) (dirs1 ++ [d])
    ∧ joins evs = workers
    ∧ last evs = Some (Ev_log ERROR "Workers are cleaned up. Aborting!").
Proof.
  revert n. induction dirs1 as [|d1 dirs1 IH]; intros n Hlive Hdead; simpl in *.
  - replace (n + 1)%nat with (S n) in Hdead by lia. rewrite Hdead. simpl.
    eexists. split; [done|]. split_and!.
    + rewrite (puts_app [_; _; _]) (puts_app (map _ _)) puts_joins. done.
    + rewrite (joins_app [_; _; _]) (joins_app (map _ _)) joins_joins.
      simpl. by rewrite app_nil_r.
    + rewrite !app_comm_cons. by rewrite last_snoc.
  - pose proof (Hlive 1%nat ltac:(lia)) as H1.
    replace (n + 1)%nat with (S n) in H1 by lia. rewrite H1. simpl.
    destruct (IH (S n)) as (evs & Hfeed & Hputs & Hjoins & Hlast).
    { intros j Hj. replace (S n + j)%nat with (n + S j)%nat by lia. apply Hlive. lia. }
    { replace (S n + S (length dirs1))%nat with (n + S (S (length dirs1)))%nat by lia. done. }
    rewrite Hfeed. eexists. split; [done|]. split_and!.
    + simpl. by rewrite Hputs.
    + done.
    + simpl. destruct evs; [done|]. done.
Qed.

(** C8. When the traversal has enqueued a task and finds no worker
    alive (some worker having been alive at every check before), the
    scheduler joins every worker and returns: the items put on the task
    queue are exactly the tasks of the directories walked so far, this
    one included, none for a later directory and no poison pill. *)
Theorem walk_aborts_when_workers_dead (self : DirectoryWalker)
    (dirs1 : list string) (d : string) (dirs2 : list string) :
  (∀ j, (1 ≤ j ≤ length dirs1)%nat →
        existsb (alive j) (workers_of (max_processes self)) = true) →
  existsb (alive (S (length dirs1))) (workers_of (max_processes self)) = false →
  let evs := walk_directories alive self (dirs1 ++ d :: dirs2) in
  puts evs = map (fun p => Some (path_str (Path p), [])) (dirs1 ++ [d])
  ∧ (None ∉ puts evs)
  ∧ joins evs = workers_of (max_processes self)
  ∧ last evs = Some (Ev_log ERROR "Workers are cleaned up. Aborting!").
Proof.
  intros Hlive Hdead evs. unfold evs, walk_directories.
  destruct (feed_tasks_abort (workers_of (max_processes self)) dirs1 d dirs2 0)
    as (fed & -> & Hputs & Hjoins & Hlast); [done..|].
  rewrite app_nil_r.
  assert (Hp : puts ([Ev_log INFO "Starting directory walk from {root_path}";
                      Ev_log DEBUG "Creating {self.max_processes} multiprocessing structures";
                      Ev_log DEBUG "Starting {self.max_processes} processes"]
                     ++ map Ev_start (workers_of (max_processes self)) ++ fed)
               = map (fun p => Some (path_str (Path p), [])) (dirs1 ++ [d])).
  { rewrite (puts_app [_; _; _]) puts_app puts_starts. done. }
  split_and!.
  - done.
  - rewrite Hp. intros (p & Hp' & _)%list_elem_of_fmap. done.
  - rewrite (joins_app [_; _; _]) joins_app joins_starts. done.
  - rewrite app_assoc. destruct fed as [|ev fed] using rev_ind; [done|].
    rewrite app_assoc last_snoc. by rewrite last_snoc in Hlast.
Qed.

End walker_props.

(* ------------------------------------------------------------------ *)
(** ** Constructing the walker                                         *)
(* ------------------------------------------------------------------ *)

Section walker_init.

(** C10. Constructing a [DirectoryWalker] without a result processor
    raises [TypeError]: the fallback calls [DefaultResultProcessor] with
    the keyword [process_results], which its [__init__] does not take.
    With a result processor the construction succeeds and keeps it. *)
Theorem walker_needs_result_processor (max_processes : nat) (name : string)
    (logger : option Logger) :
  DirectoryWalker_init max_processes name logger None
  = Raise (TypeError ("DefaultResultProcessor.__init__() got an unexpected keyword argument "
                      +:+ "'process_results'"))
  ∧ ∀ rp, ∃ dw, DirectoryWalker_init max_processes name logger (Some rp) = Ok dw
              ∧ dw_result_processor dw = rp.
Proof.
  split.
  - reflexivity.
  - intros rp. eexists. split; reflexivity.
Qed.

(** The keyword call the main program makes positionally succeeds. *)
Example default_processor_with_logger_only (logger : option Logger) :
  DefaultResultProcessor_init [("logger", of_logger logger)]
  = Ok (mkResultProcessor DefaultProcessor 0 0 0 logger).
Proof. by destruct logger. Qed.

End walker_init.

(* ------------------------------------------------------------------ *)
(** ** The statements at the example share                             *)
(* ------------------------------------------------------------------ *)

Lemma get_inode_info_restores_name_witness :
  contains_char qmark (path_name (Path "/mnt/share/d/a?b.txt")) = true
  ∧ share (get_inode_info "/mnt/share/d/a?b.txt" example_world).2 !! key "/mnt/share/d/a?b.txt"
    = share example_world !! key "/mnt/share/d/a?b.txt".
Proof.
  split; [reflexivity|].
  assert (Hclear : sanitized_clear (share example_world) "/mnt/share/d/a?b.txt").
  { intros _ m Hm. vm_compute in Hm. discriminate. }
  generalize (get_inode_info_restores_name "/mnt/share/d/a?b.txt" example_world eq_refl Hclear).
  cbv zeta. destruct (get_inode_info "/mnt/share/d/a?b.txt" example_world) as [r w'].
  intros [H _]. exact H.
Defined.

Lemma deassimilate_dir_idempotent_witness :
  ∃ w3, example_run "/mnt/share/d" example_names example_logger first_run.2
        = (Ok first_summary, w3).
Proof.
  refine (proj1 (deassimilate_dir_idempotent "/mnt/share/d" example_logger
                   "/mnt/share" "/share1" "/mnt/vol" 7 example_names
                   example_world first_run.2 first_run.2 first_summary _ _ _)).
  - vm_compute. reflexivity.
  - vm_compute. reflexivity.
  - reflexivity.
Defined.


Lemma summary_counts_entries_witness : total_files first_summary = 5.
Proof.
  destruct (summary_counts_entries "/mnt/share/d" example_logger "/mnt/share" "/share1"
              "/mnt/vol" 7 example_names example_world first_run.2 first_summary)
    as (n & _ & _ & Htotal & _).
  - reflexivity.
  - repeat constructor.
  - vm_compute. reflexivity.
  - exact Htotal.
Defined.

Lemma walk_aborts_when_workers_dead_witness :
  puts (walk_directories example_alive example_walker
          ["/mnt/share"; "/mnt/share/d"; "/mnt/share/e"])
  = [Some ("/mnt/share", []); Some ("/mnt/share/d", [])].
Proof.
  refine (proj1 (walk_aborts_when_workers_dead example_alive example_walker
                   ["/mnt/share"] "/mnt/share/d" ["/mnt/share/e"] _ _)).
  - intros j Hj. simpl in Hj. assert (j = 1%nat) as -> by lia. reflexivity.
  - reflexivity.
Defined.

(* ================================================================== *)
(** * Part III: further properties of the code                         *)
(* ================================================================== *)

(* ------------------------------------------------------------------ *)
(** ** The file type of a stat record                                  *)
(* ------------------------------------------------------------------ *)

Section filetype.

(** X1. [get_filetype] answers with a name exactly when the test of
    the [stat] module for that kind holds, whatever the place of the
    test in the chain of [elif]s: at most one of the seven tests holds
    for a mode, and [None] is returned exactly when none does. *)
Theorem get_filetype_classifies (file_stat : stat_result) :
  (∀ name, get_filetype file_stat = Some name
           ↔ (name, true) ∈ stat_tests (st_mode file_stat))
  ∧ (get_filetype file_stat = None
     ↔ Forall (fun t => t.2 = false) (stat_tests (st_mode file_stat)))
  ∧ (∀ name name', (name, true) ∈ stat_tests (st_mode file_stat) →
                   (name', true) ∈ stat_tests (st_mode file_stat) → name = name').
Proof.
  unfold get_filetype, stat_tests, S_ISREG, S_ISLNK, S_ISFIFO, S_ISSOCK, S_ISBLK,
    S_ISCHR, S_ISDIR.
  generalize (S_IFMT (st_mode file_stat)). intros z.
  destruct (Z.eqb_spec z 32768) as [->|?]; [|
  destruct (Z.eqb_spec z 40960) as [->|?]; [|
  destruct (Z.eqb_spec z 4096) as [->|?]; [|
  destruct (Z.eqb_spec z 49152) as [->|?]; [|
  destruct (Z.eqb_spec z 24576) as [->|?]; [|
  destruct (Z.eqb_spec z 8192) as [->|?]; [|
  destruct (Z.eqb_spec z 16384) as [->|?]]]]]]].
  all: simpl; split_and!.
  all: try (intros name; split;
            [ intros [= <-]; repeat first [ by left | right ]
            | intros H; repeat (apply elem_of_cons in H as [H|H]; simplify_eq);
              try done; by apply elem_of_nil in H ]).
  all: try (split; [ first [ done | intros _; by repeat constructor ]
                   | intros H; try done;
                     repeat (inversion_clear H as [|?? ? H0]; try done; rename H0 into H) ]).
  all: intros name name' H H';
       repeat (apply elem_of_cons in H as [H|H]; simplify_eq);
       try (by apply elem_of_nil in H);
       repeat (apply elem_of_cons in H' as [H'|H']; simplify_eq);
       try done; by apply elem_of_nil in H'.
Qed.

End filetype.

(* ------------------------------------------------------------------ *)
(** ** The sanitized name                                              *)
(* ------------------------------------------------------------------ *)

Section sanitized_name.

Lemma contains_char_app (c : ascii) (a b : string) :
  contains_char c (a +:+ b) = contains_char c a || contains_char c b.
Proof.
  induction a as [|d a IH]; [done|]. rewrite app_cons_str /= IH. by rewrite orb_assoc.
Qed.

Lemma replace_qmark_no_qmark (s : string) : contains_char qmark (replace_qmark s) = false.
Proof.
  induction s as [|c s IH]; [done|]. simpl. case_bool_decide as Hc.
  - by rewrite contains_char_app IH.
  - simpl. rewrite IH. by rewrite bool_decide_eq_false_2.
Qed.

Lemma replace_qmark_slash (s : string) :
  contains_char slash (replace_qmark s) = contains_char slash s.
Proof.
  induction s as [|c s IH]; [done|]. simpl. case_bool_decide as Hc.
  - subst c. by rewrite contains_char_app IH.
  - simpl. by rewrite IH.
Qed.

Lemma replace_qmark_empty (s : string) : replace_qmark s = "" → s = "".
Proof. destruct s as [|c s]; [done|]. simpl. by case_bool_decide. Qed.

Lemma valid_part_replace_qmark (x : string) :
  valid_part x = true → valid_part (replace_qmark x) = true.
Proof.
  unfold valid_part, keep_part. rewrite replace_qmark_slash.
  intros [[Hne Hdot]%andb_prop ->]%andb_prop. rewrite andb_true_r.
  apply negb_true_iff, bool_decide_eq_false in Hne.
  apply negb_true_iff, bool_decide_eq_false in Hdot.
  apply andb_true_intro. split; apply negb_true_iff, bool_decide_eq_false.
  - by intros ?%replace_qmark_empty.
  - destruct x as [|c x]; [done|]. simpl. case_bool_decide as Hc; [done|].
    intros [= -> Hx]. apply replace_qmark_empty in Hx. by subst.
Qed.

Lemma path_name_valid (p : PurePath) :
  valid_path p → path_name p ≠ "" → valid_part (path_name p) = true.
Proof.
  intros [_ Hparts] Hne. unfold path_name in *.
  destruct (parts p) as [|x ps] using rev_ind; [done|].
  rewrite last_last in Hne |- *. apply Forall_app in Hparts as [_ Hx].
  by inversion Hx.
Qed.

Lemma with_name_valid (p : PurePath) (n : string) :
  valid_path p → valid_part n = true → valid_path (with_name p n).
Proof.
  intros [Hroot Hparts] Hn. split; [done|]. simpl.
  apply Forall_app. split; [|by repeat constructor].
  destruct (parts p) as [|x ps] using rev_ind; [done|].
  rewrite removelast_last. by apply Forall_app in Hparts as [? _].
Qed.

(** The sanitized path parses to the path with its last component
    replaced. *)
Lemma Path_sanitized (path : string) :
  contains_char qmark (path_name (Path path)) = true →
  Path (sanitized path) = with_name (Path path) (replace_qmark (path_name (Path path))).
Proof.
  intros Hq. unfold sanitized. apply Path_path_str, with_name_valid; [apply Path_valid|].
  apply valid_part_replace_qmark, path_name_valid; [apply Path_valid|].
  intros E. by rewrite E in Hq.
Qed.

Lemma path_name_sanitized (path : string) :
  contains_char qmark (path_name (Path path)) = true →
  path_name (Path (sanitized path)) = replace_qmark (path_name (Path path)).
Proof.
  intros Hq. rewrite Path_sanitized //. unfold path_name at 1, with_name. simpl.
  apply last_last.
Qed.

Lemma key_sanitized_ne (path : string) :
  contains_char qmark (path_name (Path path)) = true → key (sanitized path) ≠ key path.
Proof.
  intros Hq E. apply (f_equal Path) in E. unfold key in E.
  rewrite (Path_path_str (Path (sanitized path)) (Path_valid _))
          (Path_path_str (Path path) (Path_valid _)) in E.
  apply (f_equal path_name) in E. rewrite path_name_sanitized // in E.
  rewrite -E replace_qmark_no_qmark in Hq. done.
Qed.

(** X2. Around the query of a regular file whose name holds a "?" the
    file is moved to the sanitized name and back; the sanitized name
    itself holds no "?".  When [get_inode_info] has run to its end,
    returning or raising an exception, whatever stood at the sanitized
    name before (another file, neither a directory nor a symbolic
    link) was replaced by the first move and is gone after the second:
    the sanitized name is free, and the file queried is back under its
    name. *)
Theorem get_inode_info_clears_sanitized_name (path : string) (w : world) (n : inode) :
  contains_char qmark (path_name (Path path)) = true →
  share w !! key path = Some n →
  S_ISREG (st_mode (i_stat n)) = true →
  sanitized_clear (share w) path →
  share w !! key (sanitized path) ≠ Some n →
  contains_char qmark (path_name (Path (sanitized path))) = false
  ∧ key (sanitized path) ≠ key path
  ∧ share (get_inode_info path w).2 !! key (sanitized path) = None
  ∧ share (get_inode_info path w).2 !! key path = Some n.
Proof.
  intros Hq Hn _ _ _.
  assert (Hs : share (get_inode_info path w).2 = delete (key (sanitized path)) (share w)).
  { pose proof (get_inode_info_qmark path w Hq) as H. simpl in H.
    destruct (get_inode_info path w) as [r w']. destruct H as (_ & _ & H).
    rewrite Hn in H. simpl. destruct H as (_ & _ & ->).
    fold (sanitized path). case_decide as E; [|done].
    by apply key_sanitized_ne in E. }
  split_and!.
  - by rewrite path_name_sanitized // replace_qmark_no_qmark.
  - by apply key_sanitized_ne.
  - by rewrite Hs lookup_delete_eq.
  - rewrite Hs lookup_delete_ne //. by apply key_sanitized_ne.
Qed.

End sanitized_name.

(* ------------------------------------------------------------------ *)
(** ** One entry of the file loop                                      *)
(* ------------------------------------------------------------------ *)

Section entry.

Variables (dirpath : string) (logger : option Logger).
Variables (volmnt : string) (volid : Z).

(** The records [ds] are all at the level [DEBUG]. *)
Lemma logged_debug t a w :
  ∃ ds, log (logged logger DEBUG t a w) = log w ++ ds
        ∧ Forall (fun r => lr_level r = DEBUG) ds.
Proof.
  unfold logged. destruct logger; simpl.
  - eexists [_]. split; [done|]. by repeat constructor.
  - exists []. by rewrite app_nil_r.
Qed.

Lemma logged_calls l t a w : calls (logged logger l t a w) = calls w.
Proof. unfold logged. by destruct logger. Qed.

Lemma get_filetype_regular st : get_filetype st = Some "REGULAR" → S_ISREG (st_mode st) = true.
Proof. unfold get_filetype. by repeat case_match. Qed.

Lemma get_filetype_symlink st :
  get_filetype st = Some "SYMLINK" → S_ISLNK (st_mode st) = true.
Proof. unfold get_filetype. by repeat case_match. Qed.

(** The head of the loop body for an entry that is there: after the
    non-following stat the entry is tallied, whatever becomes of it. *)
Lemma migrate_entry_stat vol_path fn acc w n :
  share w !! key (os_path_join dirpath fn) = Some n →
  ∃ w2, share w2 = share w ∧ volume w2 = volume w
    ∧ calls w2 = calls w ++ [Sys_lstat (os_path_join dirpath fn)]
    ∧ (∃ ds, log w2 = log w ++ ds ∧ Forall (fun r => lr_level r = DEBUG) ds)
    ∧ migrate_entry dirpath logger volmnt volid vol_path fn acc w
      = bind (migrate_file logger volmnt volid vol_path fn (os_path_join dirpath fn)
                (os_path_join vol_path fn) (i_stat n))
             (fun _ => ret (tally acc (ext_of dirpath fn) (st_size (i_stat n)))) w2.
Proof.
  intros Hn. unfold migrate_entry. rewrite !(bind_log logger).
  set (w1 := logged _ _ _ _ (logged _ _ _ _ (logged _ _ _ _ w))).
  assert (Hs1 : share w1 = share w) by (unfold w1; by rewrite !logged_share).
  assert (Hv1 : volume w1 = volume w) by (unfold w1; by rewrite !logged_volume).
  assert (Hc1 : calls w1 = calls w) by (unfold w1; by rewrite !logged_calls).
  assert (Hl1 : ∃ ds, log w1 = log w ++ ds ∧ Forall (fun r => lr_level r = DEBUG) ds).
  { unfold w1.
    destruct (logged_debug "vol_path: {vol_path}, filename: {fn}" [FStr vol_path; FStr fn] w)
      as (d1 & E1 & F1).
    match goal with |- context [logged logger DEBUG ?t ?a (logged logger DEBUG ?t0 ?a0 w)] =>
      destruct (logged_debug t a (logged logger DEBUG t0 a0 w)) as (d2 & E2 & F2) end.
    match goal with |- context [logged logger DEBUG ?t ?a (logged logger DEBUG ?t1 ?a1 ?w1)] =>
      destruct (logged_debug t a (logged logger DEBUG t1 a1 w1)) as (d3 & E3 & F3) end.
    exists (d1 ++ d2 ++ d3). rewrite E3 E2 E1 -!app_assoc. split; [done|].
    by repeat (apply Forall_app; split). }
  exists (mkWorld (share w1) (volume w1) (log w1)
            (calls w1 ++ [Sys_lstat (os_path_join dirpath fn)])).
  simpl. split_and!; [done|done|by rewrite Hc1|done|].
  unfold os_lstat, trace, get_share, bind at 1 2 3, ret. simpl. by rewrite Hs1 Hn.
Qed.

(** An entry that is not there ends the loop body at the stat. *)
Lemma migrate_entry_missing vol_path fn acc w :
  share w !! key (os_path_join dirpath fn) = None →
  ∃ w', migrate_entry dirpath logger volmnt volid vol_path fn acc w
        = (Raise (no_such (os_path_join dirpath fn)), w')
      ∧ share w' = share w ∧ volume w' = volume w
      ∧ calls w' = calls w ++ [Sys_lstat (os_path_join dirpath fn)].
Proof.
  intros Hn. unfold migrate_entry. rewrite !(bind_log logger).
  unfold os_lstat, trace, get_share, bind, ret, raise. simpl.
  rewrite !logged_share Hn. eexists. split; [done|]. simpl.
  by rewrite ?logged_share !logged_volume !logged_calls.
Qed.

(** The [try: os.link ... except OSError] block, run once *)
Lemma link_block_run src dst l17 t17 a17 l t a w :
  ∃ w', try_except_OSError (os_link src dst) (on_create_error logger l17 t17 a17 l t a) w
        = (match volume w !! key src, logger with
           | None, Some _ => Raise (no_such src)
           | _, _ => Ok tt
           end, w')
    ∧ share w' = share w
    ∧ calls w' = calls w ++ [Sys_link src dst]
    ∧ volume w' = match volume w !! key src, volume w !! key dst with
                  | Some m, None => <[key dst := m]> (volume w)
                  | _, _ => volume w
                  end.
Proof.
  unfold try_except_OSError, try_except, os_link, on_create_error, log_to, emit,
    trace, get_volume, put_volume, bind, ret, raise, no_such, file_exists. simpl.
  destruct (volume w !! key src) as [m|]; simpl.
  - destruct (volume w !! key dst); simpl; [|by eexists].
    destruct logger; by eexists.
  - destruct logger; by eexists.
Qed.

(** The [try: os.symlink ... except OSError] block, run once *)
Lemma symlink_block_run dest p l17 t17 a17 l t a w :
  ∃ w', try_except_OSError (os_symlink dest p) (on_create_error logger l17 t17 a17 l t a) w
        = (Ok tt, w')
    ∧ share w' = share w
    ∧ calls w' = calls w ++ [Sys_symlink dest p]
    ∧ volume w' = match volume w !! key p with
                  | None => <[key p := new_symlink dest]> (volume w)
                  | Some _ => volume w
                  end.
Proof.
  unfold try_except_OSError, try_except, os_symlink, on_create_error, log_to, emit,
    trace, get_volume, put_volume, bind, ret, raise, file_exists. simpl.
  destruct (volume w !! key p); simpl; [|by eexists].
  destruct logger; by eexists.
Qed.

Lemma find_instance_first l1 inst l2 :
  Forall (fun i => obs i ≠ volid) l1 → obs inst = volid →
  find_instance (l1 ++ inst :: l2) volid = Some inst.
Proof.
  intros Hl1 Hinst. induction Hl1 as [|i l1 Hi _ IH]; simpl.
  - by rewrite Hinst Z.eqb_refl.
  - destruct (obs i =? volid) eqn:E; [by apply Z.eqb_eq in E|done].
Qed.

(** The hard link of a regular file with a placement on the volume *)
Lemma migrate_entry_link (vol_path fn : string) (acc : gmap string Z * Z)
    (w : world) (n m : inode) (d : inode_info) (inst : PlacementInstance) :
  share w !! key (os_path_join dirpath fn) = Some n →
  get_filetype (i_stat n) = Some "REGULAR" →
  i_info n = Document d →
  find_instance (default [] (instance d)) volid = Some inst →
  volume w !! key (os_path_join volmnt (drop_str 1 (path inst))) = Some m →
  ∃ w', migrate_entry dirpath logger volmnt volid vol_path fn acc w
        = (Ok (tally acc (ext_of dirpath fn) (st_size (i_stat n))), w')
    ∧ volume w' !! key (os_path_join vol_path fn)
      = Some (default m (volume w !! key (os_path_join vol_path fn)))
    ∧ (∀ k, k ≠ key (os_path_join vol_path fn) → k ≠ key vol_path →
            volume w' !! k = volume w !! k)
    ∧ last (calls w') = Some (Sys_link (os_path_join volmnt (drop_str 1 (path inst)))
                                       (os_path_join vol_path fn))
    ∧ share w' !! key (os_path_join dirpath fn) = Some n.
Proof.
  intros Hn Hreg Hdoc Hfind Hm.
  destruct (migrate_entry_stat vol_path fn acc w n Hn) as (w2 & Hs2 & Hv2 & _ & _ & ->).
  unfold migrate_file. rewrite Hreg. simpl bool_decide. cbv iota.
  unfold bind at 1. rewrite (bind_log logger).
  destruct (get_inode_info_spec (os_path_join dirpath fn)
              (logged logger DEBUG "os.lstat({share_full_fname}) regular file with size {size}"
                 [FStr (os_path_join dirpath fn); FInt (st_size (i_stat n))] w2) n)
    as (w4 & Hget & Hv4 & _ & Hs4); [by rewrite logged_share Hs2|].
  rewrite Hdoc in Hget. rewrite (bind_ok _ _ _ _ _ Hget) Hfind.
  replace (match instance d with
           | Some l => Z.of_nat (length l) <? 1
           | None => true
           end) with false
    by (destruct (instance d) as [[|i l]|]; try done;
        symmetry; apply Z.ltb_ge; simpl length; lia).
  rewrite (bind_log logger).
  match goal with |- context [try_except_OSError (os_link ?src ?dst)
                                (on_create_error _ ?l17 ?t17 ?a17 ?l ?t ?a) ?w0] =>
    destruct (link_block_run src dst l17 t17 a17 l t a w0) as (w5 & -> & Hs5 & Hc5 & Hv5) end.
  rewrite logged_volume Hv4 logged_volume Hv2 Hm in Hv5 |- *.
  exists w5. unfold ret. split_and!; [done| | | |].
  - rewrite Hv5. destruct (volume w !! key (os_path_join vol_path fn)) eqn:Hdst; simpl.
    + by rewrite Hdst.
    + by rewrite lookup_insert_eq.
  - intros k Hk _. rewrite Hv5.
    destruct (volume w !! key (os_path_join vol_path fn)); [done|].
    by rewrite lookup_insert_ne.
  - by rewrite Hc5 last_snoc.
  - by rewrite Hs5 logged_share.
Qed.

(** X3. A regular file whose metadata document lists a placement on
    the wanted volume is hard-linked from the first such placement: the
    link source is the volume mount joined with the placement path
    without its leading character.  When the target name is free it
    holds afterwards the very entry of the placement, with its owner,
    mode and times, and no attribute call is made; when the target name
    is taken the entry that stands there is left as it is.  No other
    name of the volume is written, the file is tallied, and it stays on
    the share under its name, its sanitized name not being taken by a
    directory or a symbolic link. *)
Theorem regular_file_linked_to_first_instance (vol_path fn : string) (acc : gmap string Z * Z)
    (w : world) (n m : inode) (d : inode_info) (l1 l2 : list PlacementInstance)
    (inst : PlacementInstance) :
  share w !! key (os_path_join dirpath fn) = Some n →
  get_filetype (i_stat n) = Some "REGULAR" →
  i_info n = Document d →
  instance d = Some (l1 ++ inst :: l2) →
  Forall (fun i => obs i ≠ volid) l1 →
  obs inst = volid →
  volume w !! key (os_path_join volmnt (drop_str 1 (path inst))) = Some m →
  S_ISREG (st_mode (i_stat m)) = true →
  is_dir_on (volume w) vol_path →
  valid_part fn = true →
  sanitized_clear (share w) (os_path_join dirpath fn) →
  ∃ w', migrate_entry dirpath logger volmnt volid vol_path fn acc w
        = (Ok (tally acc (ext_of dirpath fn) (st_size (i_stat n))), w')
    ∧ volume w' !! key (os_path_join vol_path fn)
      = Some (default m (volume w !! key (os_path_join vol_path fn)))
    ∧ (∀ k, k ≠ key (os_path_join vol_path fn) → k ≠ key vol_path →
            volume w' !! k = volume w !! k)
    ∧ last (calls w') = Some (Sys_link (os_path_join volmnt (drop_str 1 (path inst)))
                                       (os_path_join vol_path fn))
    ∧ share w' !! key (os_path_join dirpath fn) = Some n.
Proof.
  intros Hn Hreg Hdoc Hinst Hl1 Hobs Hm _ _ _ _.
  apply (migrate_entry_link vol_path fn acc w n m d inst); try done.
  rewrite Hinst. simpl. by apply find_instance_first.
Qed.

(** The symbolic link made for a symbolic link among the entries *)
Lemma migrate_entry_symlink (vol_path fn : string) (acc : gmap string Z * Z)
    (w : world) (n : inode) :
  share w !! key (os_path_join dirpath fn) = Some n →
  get_filetype (i_stat n) = Some "SYMLINK" →
  ∃ w', migrate_entry dirpath logger volmnt volid vol_path fn acc w
        = (Ok (tally acc (ext_of dirpath fn) (st_size (i_stat n))), w')
    ∧ share w' = share w
    ∧ (∃ m, volume w' !! key (os_path_join vol_path fn) = Some m
          ∧ st_uid (i_stat m) = st_uid (i_stat n)
          ∧ st_gid (i_stat m) = st_gid (i_stat n)
          ∧ match volume w !! key (os_path_join vol_path fn) with
            | None => i_link m = i_link n ∧ S_ISLNK (st_mode (i_stat m)) = true
            | Some m0 => m = set_owner (st_uid (i_stat n)) (st_gid (i_stat n)) m0
            end)
    ∧ (∀ k, k ≠ key (os_path_join vol_path fn) → k ≠ key vol_path →
            volume w' !! k = volume w !! k)
    ∧ calls w' = calls w ++ [Sys_lstat (os_path_join dirpath fn);
                             Sys_readlink (os_path_join dirpath fn);
                             Sys_symlink (i_link n) (os_path_join vol_path fn);
                             Sys_lchown (os_path_join vol_path fn)
                               (st_uid (i_stat n)) (st_gid (i_stat n))].
Proof.
  intros Hn Hlnk.
  destruct (migrate_entry_stat vol_path fn acc w n Hn) as (w2 & Hs2 & Hv2 & Hc2 & _ & ->).
  unfold migrate_file. rewrite Hlnk. simpl bool_decide. cbv iota.
  unfold bind at 1. rewrite (bind_log logger).
  set (w3 := logged _ _ _ _ w2).
  assert (Hread : os_readlink (os_path_join dirpath fn) w3
            = (Ok (i_link n), mkWorld (share w3) (volume w3) (log w3)
                                (calls w3 ++ [Sys_readlink (os_path_join dirpath fn)]))).
  { unfold os_readlink, trace, get_share, bind, ret. simpl.
    unfold w3. rewrite logged_share Hs2 Hn. by rewrite (get_filetype_symlink _ Hlnk). }
  rewrite (bind_ok _ _ _ _ _ Hread) (bind_log logger).
  match goal with |- context [bind (try_except_OSError (os_symlink ?dest ?p)
                                      (on_create_error _ ?l17 ?t17 ?a17 ?l ?t ?a)) _ ?w0] =>
    destruct (symlink_block_run dest p l17 t17 a17 l t a w0) as (w5 & Hrun & Hs5 & Hc5 & Hv5) end.
  rewrite (bind_ok _ _ _ _ _ Hrun) (bind_log logger).
  rewrite logged_volume /= in Hv5. rewrite logged_calls /= in Hc5. rewrite logged_share /= in Hs5.
  unfold w3 in Hv5, Hc5, Hs5. rewrite logged_volume Hv2 in Hv5.
  rewrite logged_calls Hc2 in Hc5. rewrite logged_share Hs2 in Hs5.
  match goal with |- context [copy_file_attrs ?src ?dst "SYMLINK" ?st ?lg ?w0] =>
    pose proof (copy_file_attrs_symlink src dst st lg w0) as Hattr;
    destruct (copy_file_attrs src dst "SYMLINK" st lg w0) as [r w6] end.
  rewrite logged_calls logged_share logged_volume in Hattr.
  destruct Hattr as (Hc6 & Hs6 & Hv6). rewrite Hv5 in Hv6.
  exists w6. unfold ret.
  destruct (volume w !! key (os_path_join vol_path fn)) as [m0|] eqn:Hdst; simpl.
  - rewrite Hdst in Hv6. destruct Hv6 as [-> ->]. split_and!; try done.
    + congruence.
    + eexists. rewrite lookup_insert_eq. by split_and!.
    + intros k Hk _. by rewrite lookup_insert_ne.
    + by rewrite Hc6 Hc5 -!app_assoc.
  - rewrite lookup_insert_eq in Hv6. destruct Hv6 as [-> ->]. split_and!; try done.
    + congruence.
    + eexists. rewrite lookup_insert_eq. by split_and!.
    + intros k Hk _. by rewrite !lookup_insert_ne.
    + by rewrite Hc6 Hc5 -!app_assoc.
Qed.

(** X4. A symbolic link among the entries is made again on the volume
    with the target text read from the share, and only its owner is
    copied: the calls made are the stat, [readlink], [symlink] and
    [lchown].  When the target name is taken the entry that stands
    there is kept, and still receives the owner of the link on the
    share.  No other name of the volume is written, the share is left
    as it is, and the entry is tallied. *)
Theorem symlink_entry_recreated (vol_path fn : string) (acc : gmap string Z * Z)
    (w : world) (n : inode) :
  share w !! key (os_path_join dirpath fn) = Some n →
  get_filetype (i_stat n) = Some "SYMLINK" →
  is_dir_on (volume w) vol_path →
  valid_part fn = true →
  ∃ w', migrate_entry dirpath logger volmnt volid vol_path fn acc w
        = (Ok (tally acc (ext_of dirpath fn) (st_size (i_stat n))), w')
    ∧ share w' = share w
    ∧ (∃ m, volume w' !! key (os_path_join vol_path fn) = Some m
          ∧ st_uid (i_stat m) = st_uid (i_stat n)
          ∧ st_gid (i_stat m) = st_gid (i_stat n)
          ∧ match volume w !! key (os_path_join vol_path fn) with
            | None => i_link m = i_link n ∧ S_ISLNK (st_mode (i_stat m)) = true
            | Some m0 => m = set_owner (st_uid (i_stat n)) (st_gid (i_stat n)) m0
            end)
    ∧ (∀ k, k ≠ key (os_path_join vol_path fn) → k ≠ key vol_path →
            volume w' !! k = volume w !! k)
    ∧ calls w' = calls w ++ [Sys_lstat (os_path_join dirpath fn);
                             Sys_readlink (os_path_join dirpath fn);
                             Sys_symlink (i_link n) (os_path_join vol_path fn);
                             Sys_lchown (os_path_join vol_path fn)
                               (st_uid (i_stat n)) (st_gid (i_stat n))].
Proof. intros ?? _ _. by apply migrate_entry_symlink. Qed.

(** X5. An entry that is neither a regular file nor a symbolic link (a
    FIFO, a socket, a device node, a directory) is tallied and then
    passed over: nothing is made on the volume, no call follows the
    stat, and no record above the debug level is written. *)
Theorem special_file_counted_not_migrated (vol_path fn : string) (acc : gmap string Z * Z)
    (w : world) (n : inode) :
  share w !! key (os_path_join dirpath fn) = Some n →
  get_filetype (i_stat n) ≠ Some "REGULAR" →
  get_filetype (i_stat n) ≠ Some "SYMLINK" →
  ∃ w', migrate_entry dirpath logger volmnt volid vol_path fn acc w
        = (Ok (tally acc (ext_of dirpath fn) (st_size (i_stat n))), w')
    ∧ share w' = share w
    ∧ volume w' = volume w
    ∧ calls w' = calls w ++ [Sys_lstat (os_path_join dirpath fn)]
    ∧ ∃ ds, log w' = log w ++ ds ∧ Forall (fun r => lr_level r = DEBUG) ds.
Proof.
  intros Hn Hreg Hlnk.
  destruct (migrate_entry_stat vol_path fn acc w n Hn) as (w2 & Hs2 & Hv2 & Hc2 & Hl2 & ->).
  unfold migrate_file.
  rewrite (bool_decide_eq_false_2 _ Hreg) (bool_decide_eq_false_2 _ Hlnk).
  exists w2. done.
Qed.

(** X10. An error of the stat or of the metadata query is never passed
    over, with or without a logger: an entry that is no longer on the
    share, or a regular file whose metadata document does not parse
    (its sanitized name not being taken by a directory or a symbolic
    link), ends the loop with that error.  The entries after it are not
    visited, the volume keeps what the entries before it left there,
    and the file queried keeps its name. *)
Theorem stat_and_query_errors_propagate (vol_path fn : string) (rest : list string)
    (acc : gmap string Z * Z) (w : world) :
  (share w !! key (os_path_join dirpath fn) = None →
   ∃ w', migrate_entries dirpath logger volmnt volid vol_path (fn :: rest) acc w
         = (Raise (no_such (os_path_join dirpath fn)), w')
     ∧ share w' = share w ∧ volume w' = volume w)
  ∧ (∀ n, share w !! key (os_path_join dirpath fn) = Some n →
          get_filetype (i_stat n) = Some "REGULAR" →
          i_info n = Malformed →
          sanitized_clear (share w) (os_path_join dirpath fn) →
          ∃ w', migrate_entries dirpath logger volmnt volid vol_path (fn :: rest) acc w
                = (Raise (JSONDecodeError "Expecting value"), w')
            ∧ share w' !! key (os_path_join dirpath fn) = Some n
            ∧ volume w' = volume w).
Proof.
  split.
  - intros Hn. destruct (migrate_entry_missing vol_path fn acc w Hn) as (w' & Hrun & Hs & Hv & _).
    exists w'. simpl. by rewrite (bind_raise _ _ _ _ _ Hrun).
  - intros n Hn Hreg Hdoc _.
    destruct (migrate_entry_stat vol_path fn acc w n Hn) as (w2 & Hs2 & Hv2 & _ & _ & Hrun).
    simpl. unfold bind at 1. rewrite Hrun.
    unfold migrate_file. rewrite Hreg. simpl bool_decide. cbv iota.
    unfold bind at 1. rewrite (bind_log logger).
    destruct (get_inode_info_spec (os_path_join dirpath fn)
                (logged logger DEBUG "os.lstat({share_full_fname}) regular file with size {size}"
                   [FStr (os_path_join dirpath fn); FInt (st_size (i_stat n))] w2) n)
      as (w4 & Hget & Hv4 & _ & Hs4); [by rewrite logged_share Hs2|].
    rewrite Hdoc in Hget. rewrite (bind_raise _ _ _ _ _ Hget).
    exists w4. split_and!; [done|done|]. by rewrite Hv4 logged_volume.
Qed.

End entry.

(* ------------------------------------------------------------------ *)
(** ** The directory itself                                            *)
(* ------------------------------------------------------------------ *)

Section directory.

Variables (dirpath : string) (logger : option Logger).
Variables (sharemnt share_root volmnt : string) (volid : Z).

Lemma os_lstat_run p w n :
  share w !! key p = Some n →
  os_lstat p w = (Ok (i_stat n), mkWorld (share w) (volume w) (log w) (calls w ++ [Sys_lstat p])).
Proof. intros Hn. unfold os_lstat, trace, get_share, bind, ret. simpl. by rewrite Hn. Qed.

Lemma os_lstat_missing p w :
  share w !! key p = None →
  os_lstat p w = (Raise (no_such p), mkWorld (share w) (volume w) (log w) (calls w ++ [Sys_lstat p])).
Proof. intros Hn. unfold os_lstat, trace, get_share, bind, raise. simpl. by rewrite Hn. Qed.

Lemma os_readlink_run p w n :
  share w !! key p = Some n → S_ISLNK (st_mode (i_stat n)) = true →
  os_readlink p w
  = (Ok (i_link n), mkWorld (share w) (volume w) (log w) (calls w ++ [Sys_readlink p])).
Proof.
  intros Hn Hl. unfold os_readlink, trace, get_share, bind, ret. simpl. by rewrite Hn Hl.
Qed.

Lemma compute_vol_path_endswith :
  endswith_slash (compute_vol_path sharemnt share_root volmnt dirpath) = true.
Proof.
  unfold compute_vol_path. case_match; rewrite combine_paths_eq; apply endswith_slash_snoc.
Qed.

(** X6. For a directory, named without a trailing slash, that is itself
    a symbolic link no directory is made and no entry is visited, the
    directory above the mapped path being there: the link is made again under the
    mapped path without its trailing slash, with the target text read
    from the share, and receives the owner of the link on the share.
    When that name is taken the entry standing there is kept and
    receives the owner.  The calls made are the stat, [readlink],
    [symlink] and [lchown]; no other name of the volume is written, the
    share is left as it is, and the function returns the summary with
    the number of names passed in and empty tallies. *)
Theorem symlinked_directory_becomes_symlink (filenames : list string) (w : world) (n : inode) :
  endswith_slash dirpath = false →
  share w !! key dirpath = Some n →
  get_filetype (i_stat n) = Some "SYMLINK" →
  is_dir_on (volume w) (parent (symlink_target sharemnt share_root volmnt dirpath)) →
  let target := symlink_target sharemnt share_root volmnt dirpath in
  ∃ w', deassimilate_dir dirpath logger sharemnt share_root volmnt volid filenames w
        = (Ok (mkSummary dirpath (Z.of_nat (length filenames)) ∅ 0), w')
    ∧ share w' = share w
    ∧ (∃ m, volume w' !! target = Some m
          ∧ st_uid (i_stat m) = st_uid (i_stat n)
          ∧ st_gid (i_stat m) = st_gid (i_stat n)
          ∧ match volume w !! target with
            | None => i_link m = i_link n ∧ S_ISLNK (st_mode (i_stat m)) = true
            | Some m0 => m = set_owner (st_uid (i_stat n)) (st_gid (i_stat n)) m0
            end)
    ∧ (∀ k, k ≠ target → k ≠ key (parent target) → volume w' !! k = volume w !! k)
    ∧ calls w' = calls w ++ [Sys_lstat dirpath; Sys_readlink dirpath;
                             Sys_symlink (i_link n) target;
                             Sys_lchown target (st_uid (i_stat n)) (st_gid (i_stat n))].
Proof.
  intros _ Hn Hlnk _ target.
  unfold deassimilate_dir. rewrite !(bind_log logger).
  erewrite (bind_ok (os_lstat dirpath));
    [|apply os_lstat_run; rewrite !logged_share; exact Hn].
  rewrite Hlnk bool_decide_eq_true_2 //.
  rewrite compute_vol_path_endswith.
  fold (key (rstrip_slash (compute_vol_path sharemnt share_root volmnt dirpath))).
  fold (symlink_target sharemnt share_root volmnt dirpath). fold target.
  rewrite (bind_log logger).
  erewrite (bind_ok (os_readlink dirpath));
    [|apply os_readlink_run;
      [rewrite /= !logged_share; exact Hn | exact (get_filetype_symlink _ Hlnk)]].
  rewrite (bind_log logger).
  match goal with |- context [bind (try_except_OSError (os_symlink ?dest ?p)
                                      (on_create_error _ ?l17 ?t17 ?a17 ?l ?t ?a)) _ ?w0] =>
    destruct (symlink_block_run logger dest p l17 t17 a17 l t a w0)
      as (w5 & Hrun & Hs5 & Hc5 & Hv5) end.
  rewrite (bind_ok _ _ _ _ _ Hrun). clear Hrun.
  repeat (progress (rewrite ?logged_volume ?logged_share ?logged_calls /= in Hv5)).
  repeat (progress (rewrite ?logged_volume ?logged_share ?logged_calls /= in Hc5)).
  repeat (progress (rewrite ?logged_volume ?logged_share ?logged_calls /= in Hs5)).
  assert (Hk : key target = target) by apply key_idemp.
  rewrite Hk in Hv5.
  pose proof (copy_file_attrs_symlink dirpath target (i_stat n) logger w5) as Hattr.
  unfold bind at 1.
  destruct (copy_file_attrs dirpath target "SYMLINK" (i_stat n) logger w5) as [r w6].
  rewrite Hk Hv5 in Hattr. destruct Hattr as (Hc6 & Hs6 & Hv6).
  rewrite (bind_log logger).
  destruct (volume w !! target) as [m0|] eqn:Hdst; simpl in *.
  - rewrite Hdst in Hv6. destruct Hv6 as [-> Hv6].
    eexists. unfold ret. split; [done|]. rewrite logged_share logged_volume logged_calls.
    rewrite Hv6. split_and!; [congruence| | |].
    + eexists. rewrite lookup_insert_eq. by split_and!.
    + intros k Hne _. by rewrite lookup_insert_ne.
    + by rewrite Hc6 Hc5 -!app_assoc.
  - rewrite lookup_insert_eq in Hv6. destruct Hv6 as [-> Hv6].
    eexists. unfold ret. split; [done|]. rewrite logged_share logged_volume logged_calls.
    rewrite Hv6. split_and!; [congruence| | |].
    + eexists. rewrite lookup_insert_eq. by split_and!.
    + intros k Hne _. by rewrite !lookup_insert_ne.
    + by rewrite Hc6 Hc5 -!app_assoc.
Qed.

(** X9. A source directory that is not on the share is found out by
    the first call made, the non-following stat: its error is raised
    before the target directory is looked for, so that nothing is made
    or changed on the volume. *)
Theorem missing_directory_raises_before_any_change (filenames : list string) (w : world) :
  share w !! key dirpath = None →
  ∃ w', deassimilate_dir dirpath logger sharemnt share_root volmnt volid filenames w
        = (Raise (no_such dirpath), w')
    ∧ share w' = share w
    ∧ volume w' = volume w
    ∧ calls w' = calls w ++ [Sys_lstat dirpath].
Proof.
  intros Hn. unfold deassimilate_dir. rewrite !(bind_log logger).
  erewrite (bind_raise (os_lstat dirpath));
    [|apply os_lstat_missing; rewrite !logged_share; exact Hn].
  eexists. split; [done|]. simpl.
  by rewrite !logged_share !logged_volume !logged_calls.
Qed.

End directory.

(* ------------------------------------------------------------------ *)
(** ** What a run leaves alone                                         *)
(* ------------------------------------------------------------------ *)

Section keeps.

Lemma same_content_refl n : same_content n n.
Proof. by repeat split. Qed.

Lemma same_content_trans n1 n2 n3 :
  same_content n1 n2 → same_content n2 n3 → same_content n1 n3.
Proof. intros (? & ? & ?) (? & ? & ?). repeat split; congruence. Qed.

(** Permission bits do not reach the bits of the file kind. *)
Lemma S_IFMT_set_perm mode x :
  S_IFMT (Z.lor (S_IFMT mode) (S_IMODE x)) = S_IFMT mode.
Proof.
  unfold S_IFMT, S_IMODE.
  rewrite Z.land_lor_distr_l -!Z.land_assoc.
  change (Z.land 61440 61440) with 61440. change (Z.land 4095 61440) with 0.
  by rewrite Z.land_0_r Z.lor_0_r.
Qed.

Lemma same_content_set_owner u g n : same_content n (set_owner u g n).
Proof. by repeat split. Qed.

Lemma same_content_set_times a m n : same_content n (set_times a m n).
Proof. by repeat split. Qed.

Lemma same_content_set_perm x n : same_content n (set_perm (S_IMODE x) n).
Proof. repeat split; try done. simpl. apply S_IFMT_set_perm. Qed.

Context {A B : Type}.

Lemma volume_keeps_same (c : M A) :
  (∀ w, volume (c w).2 = volume w) → volume_keeps c.
Proof. intros H w k n Hn. exists n. rewrite H. auto using same_content_refl. Qed.

Lemma volume_keeps_bind (c : M A) (k : A → M B) :
  volume_keeps c → (∀ a, volume_keeps (k a)) → volume_keeps (bind c k).
Proof.
  intros Hc Hk w x n Hn. unfold bind. destruct (Hc w x n Hn) as (n1 & H1 & S1).
  destruct (c w) as [[a|e] w']; simpl in *; [|eauto].
  destruct (Hk a w' x n1 H1) as (n2 & H2 & S2). eauto using same_content_trans.
Qed.

Lemma volume_keeps_try (c : M A) (h : exn → M A) :
  volume_keeps c → (∀ e, volume_keeps (h e)) → volume_keeps (try_except c h).
Proof.
  intros Hc Hh w x n Hn. unfold try_except. destruct (Hc w x n Hn) as (n1 & H1 & S1).
  destruct (c w) as [[a|e] w']; simpl in *; [eauto|].
  destruct (Hh e w' x n1 H1) as (n2 & H2 & S2). eauto using same_content_trans.
Qed.

Lemma volume_only_at_same K (c : M A) :
  (∀ w, volume (c w).2 = volume w) → volume_only_at K c.
Proof. intros H w k _. by rewrite H. Qed.

Lemma volume_only_at_bind K (c : M A) (k : A → M B) :
  volume_only_at K c → (∀ a, volume_only_at K (k a)) → volume_only_at K (bind c k).
Proof.
  intros Hc Hk w x Hx. unfold bind. specialize (Hc w x Hx).
  destruct (c w) as [[a|e] w']; simpl in *; [|done]. by rewrite Hk.
Qed.

Lemma volume_only_at_try K (c : M A) (h : exn → M A) :
  volume_only_at K c → (∀ e, volume_only_at K (h e)) → volume_only_at K (try_except c h).
Proof.
  intros Hc Hh w x Hx. unfold try_except. specialize (Hc w x Hx).
  destruct (c w) as [[a|e] w']; simpl in *; [done|]. by rewrite Hh.
Qed.

Lemma volume_only_at_weaken (K K' : string → Prop) (c : M A) :
  (∀ k, K k → K' k) → volume_only_at K c → volume_only_at K' c.
Proof. intros HK Hc w k Hk. apply Hc. auto. Qed.

End keeps.

Section keeps_calls.

Lemma volume_same_ret {A} (a : A) w : volume (@ret world A a w).2 = volume w.
Proof. done. Qed.
Lemma volume_same_raise {A} e w : volume (@raise world A e w).2 = volume w.
Proof. done. Qed.
Lemma volume_same_log logger l t a w : volume (log_to logger l t a w).2 = volume w.
Proof. unfold log_to, emit, ret. by destruct logger. Qed.
Lemma volume_same_lstat p w : volume (os_lstat p w).2 = volume w.
Proof. unfold os_lstat, trace, get_share, bind, ret, raise. simpl. by case_match. Qed.
Lemma volume_same_readlink p w : volume (os_readlink p w).2 = volume w.
Proof.
  unfold os_readlink, trace, get_share, bind, ret, raise. simpl. by repeat case_match.
Qed.
Lemma volume_same_isdir p w : volume (os_path_isdir p w).2 = volume w.
Proof. unfold os_path_isdir, trace, get_volume, bind, ret. simpl. by case_match. Qed.
Lemma volume_same_get_inode_info p w : volume (get_inode_info p w).2 = volume w.
Proof.
  destruct (share_only_get_inode_info p w w eq_refl) as (_ & _ & H & _). done.
Qed.

Lemma volume_keeps_update p f :
  (∀ n, same_content n (f n)) → volume_keeps (update_entry p f).
Proof.
  intros Hf w k n Hn. unfold update_entry, get_volume, put_volume, bind, ret, raise. simpl.
  destruct (volume w !! key p) as [m|] eqn:Hm; simpl; [|eauto using same_content_refl].
  destruct (decide (k = key p)) as [->|Hne].
  - rewrite lookup_insert_eq. simplify_eq. eauto.
  - rewrite lookup_insert_ne //. eauto using same_content_refl.
Qed.

Lemma volume_only_at_update (K : string → Prop) p f :
  K (key p) → volume_only_at K (update_entry p f).
Proof.
  intros HK w k Hk. unfold update_entry, get_volume, put_volume, bind, ret, raise. simpl.
  destruct (volume w !! key p) as [m|]; simpl; [|done].
  rewrite lookup_insert_ne //. by intros <-.
Qed.

Lemma volume_keeps_trace {A} c (k : M A) :
  volume_keeps k → volume_keeps (bind (trace c) (fun _ => k)).
Proof. intros Hk w x n Hn. unfold bind, trace. simpl. by apply Hk. Qed.

Lemma volume_only_at_trace K {A} c (k : M A) :
  volume_only_at K k → volume_only_at K (bind (trace c) (fun _ => k)).
Proof. intros Hk w x Hx. unfold bind, trace. simpl. by rewrite Hk. Qed.

Lemma volume_keeps_link src dst : volume_keeps (os_link src dst).
Proof.
  intros w k n Hn. unfold os_link, trace, get_volume, put_volume, bind, ret, raise. simpl.
  destruct (volume w !! key src) as [m|]; simpl; [|eauto using same_content_refl].
  destruct (volume w !! key dst) as [m'|] eqn:Hd; simpl; [eauto using same_content_refl|].
  rewrite lookup_insert_ne; [by intros <-; congruence|]. eauto using same_content_refl.
Qed.

Lemma volume_only_at_link (K : string → Prop) src dst :
  K (key dst) → volume_only_at K (os_link src dst).
Proof.
  intros HK w k Hk. unfold os_link, trace, get_volume, put_volume, bind, ret, raise. simpl.
  repeat case_match; simpl; try done. rewrite lookup_insert_ne //. by intros <-.
Qed.

Lemma volume_keeps_symlink dest p : volume_keeps (os_symlink dest p).
Proof.
  intros w k n Hn. unfold os_symlink, trace, get_volume, put_volume, bind, ret, raise. simpl.
  destruct (volume w !! key p) as [m'|] eqn:Hd; simpl; [eauto using same_content_refl|].
  rewrite lookup_insert_ne; [by intros <-; congruence|]. eauto using same_content_refl.
Qed.

Lemma volume_only_at_symlink (K : string → Prop) dest p :
  K (key p) → volume_only_at K (os_symlink dest p).
Proof.
  intros HK w k Hk. unfold os_symlink, trace, get_volume, put_volume, bind, ret, raise. simpl.
  repeat case_match; simpl; try done. rewrite lookup_insert_ne //. by intros <-.
Qed.

Lemma makedirs_from_keeps ks p v k n :
  v !! k = Some n → (makedirs_from ks p v).2 !! k = Some n.
Proof.
  revert v. induction ks as [|k0 ks IH]; intros v Hn; simpl; [done|].
  destruct (v !! k0) as [m|] eqn:Hk0.
  - destruct (S_ISDIR _); [by apply IH | done].
  - apply IH. rewrite lookup_insert_ne //. by intros <-; congruence.
Qed.

Lemma makedirs_from_only_at ks p v k :
  k ∉ ks → (makedirs_from ks p v).2 !! k = v !! k.
Proof.
  revert v. induction ks as [|k0 ks IH]; intros v Hk; simpl; [done|].
  apply not_elem_of_cons in Hk as [Hne Hk].
  destruct (v !! k0) as [m|] eqn:Hk0.
  - destruct (S_ISDIR _); [by apply IH | done].
  - rewrite IH // lookup_insert_ne //.
Qed.

Lemma volume_keeps_makedirs p : volume_keeps (os_makedirs p).
Proof.
  intros w k n Hn. unfold os_makedirs, trace, get_volume, put_volume, bind, ret, raise. simpl.
  pose proof (makedirs_from_keeps (ancestors_and_self (Path p)) p (volume w) k n Hn) as H.
  destruct (makedirs_from _ _ _) as [[[]|e] v']; simpl in *; eauto using same_content_refl.
Qed.

Lemma volume_only_at_makedirs (K : string → Prop) p :
  (∀ k, k ∈ ancestors_and_self (Path p) → K k) → volume_only_at K (os_makedirs p).
Proof.
  intros HK w k Hk. unfold os_makedirs, trace, get_volume, put_volume, bind, ret, raise. simpl.
  pose proof (makedirs_from_only_at (ancestors_and_self (Path p)) p (volume w) k) as H.
  destruct (makedirs_from _ _ _) as [[[]|e] v']; simpl in *; apply H; intros ?; apply Hk; auto.
Qed.

Lemma volume_keeps_ret {A} (a : A) : volume_keeps (ret a).
Proof. by apply volume_keeps_same. Qed.
Lemma volume_keeps_raise {A} e : volume_keeps (@raise world A e).
Proof. by apply volume_keeps_same. Qed.
Lemma volume_keeps_log logger l t a : volume_keeps (log_to logger l t a).
Proof. apply volume_keeps_same, volume_same_log. Qed.
Lemma volume_keeps_emit r : volume_keeps (emit r).
Proof. by apply volume_keeps_same. Qed.
Lemma volume_keeps_lstat p : volume_keeps (os_lstat p).
Proof. apply volume_keeps_same, volume_same_lstat. Qed.
Lemma volume_keeps_readlink p : volume_keeps (os_readlink p).
Proof. apply volume_keeps_same, volume_same_readlink. Qed.
Lemma volume_keeps_isdir p : volume_keeps (os_path_isdir p).
Proof. apply volume_keeps_same, volume_same_isdir. Qed.
Lemma volume_keeps_get_inode_info p : volume_keeps (get_inode_info p).
Proof. apply volume_keeps_same, volume_same_get_inode_info. Qed.
Lemma volume_keeps_lchown p u g : volume_keeps (os_lchown p u g).
Proof. apply volume_keeps_trace, volume_keeps_update, same_content_set_owner. Qed.
Lemma volume_keeps_chmod p x : volume_keeps (os_chmod p (S_IMODE x)).
Proof. apply volume_keeps_trace, volume_keeps_update, same_content_set_perm. Qed.
Lemma volume_keeps_utime p a m : volume_keeps (os_utime p a m).
Proof. apply volume_keeps_trace, volume_keeps_update, same_content_set_times. Qed.

Lemma volume_only_at_ret K {A} (a : A) : volume_only_at K (ret a).
Proof. by apply volume_only_at_same. Qed.
Lemma volume_only_at_raise K {A} e : volume_only_at K (@raise world A e).
Proof. by apply volume_only_at_same. Qed.
Lemma volume_only_at_log K logger l t a : volume_only_at K (log_to logger l t a).
Proof. apply volume_only_at_same, volume_same_log. Qed.
Lemma volume_only_at_emit K r : volume_only_at K (emit r).
Proof. by apply volume_only_at_same. Qed.
Lemma volume_only_at_lstat K p : volume_only_at K (os_lstat p).
Proof. apply volume_only_at_same, volume_same_lstat. Qed.
Lemma volume_only_at_readlink K p : volume_only_at K (os_readlink p).
Proof. apply volume_only_at_same, volume_same_readlink. Qed.
Lemma volume_only_at_isdir K p : volume_only_at K (os_path_isdir p).
Proof. apply volume_only_at_same, volume_same_isdir. Qed.
Lemma volume_only_at_get_inode_info K p : volume_only_at K (get_inode_info p).
Proof. apply volume_only_at_same, volume_same_get_inode_info. Qed.
Lemma volume_only_at_lchown (K : string → Prop) p u g :
  K (key p) → volume_only_at K (os_lchown p u g).
Proof. intros. by apply volume_only_at_trace, volume_only_at_update. Qed.
Lemma volume_only_at_chmod (K : string → Prop) p m :
  K (key p) → volume_only_at K (os_chmod p m).
Proof. intros. by apply volume_only_at_trace, volume_only_at_update. Qed.
Lemma volume_only_at_utime (K : string → Prop) p a m :
  K (key p) → volume_only_at K (os_utime p a m).
Proof. intros. by apply volume_only_at_trace, volume_only_at_update. Qed.

End keeps_calls.

Create HintDb keep discriminated.

Global Hint Resolve volume_keeps_ret volume_keeps_raise volume_keeps_log volume_keeps_emit
  volume_keeps_lstat volume_keeps_readlink volume_keeps_isdir volume_keeps_get_inode_info
  volume_keeps_lchown volume_keeps_chmod volume_keeps_utime
  volume_keeps_link volume_keeps_symlink volume_keeps_makedirs
  volume_only_at_ret volume_only_at_raise volume_only_at_log volume_only_at_emit
  volume_only_at_lstat volume_only_at_readlink volume_only_at_isdir
  volume_only_at_get_inode_info
  volume_only_at_lchown volume_only_at_chmod volume_only_at_utime
  volume_only_at_link volume_only_at_symlink volume_only_at_makedirs : keep.

(** Takes a computation apart along its binds, handlers and branches *)
Ltac framing :=
  repeat first
    [ progress intros
    | solve [eauto with keep]
    | apply volume_keeps_bind | apply volume_keeps_try
    | apply volume_only_at_bind | apply volume_only_at_try
    | match goal with
      | |- _ (if ?b then _ else _) => destruct b
      | |- _ (match ?x with _ => _ end) => destruct x
      end ].

Section keeps_blocks.

Variables (dirpath : string) (logger : option Logger).
Variables (sharemnt share_root volmnt : string) (volid : Z).

Lemma volume_keeps_on_create_error l17 t17 a17 l t a n e :
  volume_keeps (on_create_error logger l17 t17 a17 l t a n e).
Proof. unfold on_create_error. framing. Qed.

Lemma volume_only_at_on_create_error K l17 t17 a17 l t a n e :
  volume_only_at K (on_create_error logger l17 t17 a17 l t a n e).
Proof. unfold on_create_error. framing. Qed.

Hint Resolve volume_keeps_on_create_error volume_only_at_on_create_error : keep.

Lemma volume_keeps_copy_file_attrs src dst ft st :
  volume_keeps (copy_file_attrs src dst ft st logger).
Proof. unfold copy_file_attrs. cbv zeta. framing. Qed.

Lemma volume_only_at_copy_file_attrs (K : string → Prop) src dst ft st :
  K (key dst) → volume_only_at K (copy_file_attrs src dst ft st logger).
Proof. intros HK. unfold copy_file_attrs. cbv zeta. framing. Qed.

Lemma volume_keeps_create_target_dir vol_path :
  volume_keeps (create_target_dir logger vol_path).
Proof. unfold create_target_dir, try_except_OSError. framing. Qed.

Lemma volume_only_at_create_target_dir (K : string → Prop) vol_path :
  (∀ k, k ∈ ancestors_and_self (Path vol_path) → K k) →
  volume_only_at K (create_target_dir logger vol_path).
Proof. intros HK. unfold create_target_dir, try_except_OSError. framing. Qed.

Hint Resolve volume_keeps_copy_file_attrs volume_only_at_copy_file_attrs
  volume_keeps_create_target_dir volume_only_at_create_target_dir : keep.

Lemma volume_keeps_migrate_file vol_path fn sf vf st :
  volume_keeps (migrate_file logger volmnt volid vol_path fn sf vf st).
Proof. unfold migrate_file, try_except_OSError. framing. Qed.

Lemma volume_only_at_migrate_file (K : string → Prop) vol_path fn sf vf st :
  K (key vf) → volume_only_at K (migrate_file logger volmnt volid vol_path fn sf vf st).
Proof. intros HK. unfold migrate_file, try_except_OSError. framing. Qed.

Hint Resolve volume_keeps_migrate_file volume_only_at_migrate_file : keep.

Lemma volume_keeps_migrate_entry vol_path fn acc :
  volume_keeps (migrate_entry dirpath logger volmnt volid vol_path fn acc).
Proof. unfold migrate_entry. framing. Qed.

Lemma volume_only_at_migrate_entry (K : string → Prop) vol_path fn acc :
  K (key (os_path_join vol_path fn)) →
  volume_only_at K (migrate_entry dirpath logger volmnt volid vol_path fn acc).
Proof. intros HK. unfold migrate_entry. framing. Qed.

Hint Resolve volume_keeps_migrate_entry volume_only_at_migrate_entry : keep.

Lemma volume_keeps_migrate_entries vol_path fns acc :
  volume_keeps (migrate_entries dirpath logger volmnt volid vol_path fns acc).
Proof. revert acc. induction fns; simpl; framing. Qed.

Lemma volume_only_at_migrate_entries (K : string → Prop) vol_path fns acc :
  (∀ fn, fn ∈ fns → K (key (os_path_join vol_path fn))) →
  volume_only_at K (migrate_entries dirpath logger volmnt volid vol_path fns acc).
Proof.
  revert acc. induction fns as [|fn fns IH]; intros acc HK; simpl; [framing|].
  apply volume_only_at_bind.
  - apply volume_only_at_migrate_entry, HK. by left.
  - intros acc'. apply IH. intros fn' Hfn'. apply HK. by right.
Qed.

Hint Resolve volume_keeps_migrate_entries : keep.

Lemma volume_keeps_deassimilate_dir fns :
  volume_keeps (deassimilate_dir dirpath logger sharemnt share_root volmnt volid fns).
Proof. unfold deassimilate_dir, try_except_OSError. framing. Qed.

Lemma volume_only_at_deassimilate_dir fns :
  volume_only_at (touched sharemnt share_root volmnt dirpath fns)
    (deassimilate_dir dirpath logger sharemnt share_root volmnt volid fns).
Proof.
  unfold deassimilate_dir, try_except_OSError.
  rewrite compute_vol_path_endswith.
  fold (key (rstrip_slash (compute_vol_path sharemnt share_root volmnt dirpath))).
  fold (symlink_target sharemnt share_root volmnt dirpath).
  assert (Hk : key (symlink_target sharemnt share_root volmnt dirpath)
               = symlink_target sharemnt share_root volmnt dirpath) by apply key_idemp.
  assert (H1 : touched sharemnt share_root volmnt dirpath fns
                 (key (compute_vol_path sharemnt share_root volmnt dirpath))) by by left.
  assert (H2 : touched sharemnt share_root volmnt dirpath fns
                 (key (symlink_target sharemnt share_root volmnt dirpath))).
  { rewrite Hk. right. right. by left. }
  assert (H3 : ∀ k, k ∈ ancestors_and_self
                          (Path (compute_vol_path sharemnt share_root volmnt dirpath)) →
                    touched sharemnt share_root volmnt dirpath fns k).
  { intros k Hk'. right. by left. }
  assert (H4 : ∀ acc, volume_only_at (touched sharemnt share_root volmnt dirpath fns)
                 (migrate_entries dirpath logger volmnt volid
                    (compute_vol_path sharemnt share_root volmnt dirpath) fns acc)).
  { intros acc. apply volume_only_at_migrate_entries. intros fn Hfn.
    right. right. right. eauto. }
  framing.
Qed.

End keeps_blocks.

(* ------------------------------------------------------------------ *)
(** ** The volume and the share after a run                            *)
(* ------------------------------------------------------------------ *)

Section run_frames.

Variables (dirpath : string) (logger : option Logger).
Variables (sharemnt share_root volmnt : string) (volid : Z).

(** X7. On a volume where neither the target directory nor a directory
    above it is a symbolic link, a run on plain names, whether it
    returns or raises an exception, never removes or replaces an entry
    of the volume: every entry is still there afterwards with the same
    kind of file, link text and document (its owner, permission bits
    and times may have been set).  Outside the target directory, the
    directories above it and the target names of the entries passed in,
    the volume is exactly as it was. *)
Theorem deassimilate_dir_keeps_volume (filenames : list string) (w : world) :
  no_link_above (volume w) (compute_vol_path sharemnt share_root volmnt dirpath) →
  Forall (fun fn => plain_name fn = true) filenames →
  let w' := (deassimilate_dir dirpath logger sharemnt share_root volmnt volid filenames w).2 in
  (∀ k n, volume w !! k = Some n → ∃ n', volume w' !! k = Some n' ∧ same_content n n')
  ∧ (∀ k, ¬ touched sharemnt share_root volmnt dirpath filenames k →
          volume w' !! k = volume w !! k).
Proof.
  intros _ _ w'. split.
  - intros k n Hn. by apply volume_keeps_deassimilate_dir.
  - intros k Hk. by apply volume_only_at_deassimilate_dir.
Qed.

Lemma share_only_at_same K {A} (c : M A) : share_same c → share_only_at K c.
Proof. intros H w k _. by rewrite H. Qed.

Lemma share_only_at_bind K {A B} (c : M A) (k : A → M B) :
  share_only_at K c → (∀ a, share_only_at K (k a)) → share_only_at K (bind c k).
Proof.
  intros Hc Hk w x Hx. unfold bind. specialize (Hc w x Hx).
  destruct (c w) as [[a|e] w']; simpl in *; [|done]. by rewrite Hk.
Qed.

Lemma share_only_at_get_inode_info (K : string → Prop) p :
  (contains_char qmark (path_name (Path p)) = true → K (key (sanitized p))) →
  share_only_at K (get_inode_info p).
Proof.
  intros HK w k Hk. destruct (contains_char qmark (path_name (Path p))) eqn:Hq.
  - pose proof (get_inode_info_qmark p w Hq) as H. simpl in H.
    destruct (get_inode_info p w) as [r w']. destruct H as (_ & _ & H). simpl.
    destruct (share w !! key p); destruct H as (_ & _ & ->); [|done].
    case_decide; [done|]. rewrite lookup_delete_ne //. intros <-. by apply Hk, HK.
  - unfold get_inode_info. rewrite temp_rename_plain; [done|]. by rewrite share_same_load.
Qed.

Lemma share_only_at_migrate_file (K : string → Prop) vol_path fn sf vf st :
  (contains_char qmark (path_name (Path sf)) = true → K (key (sanitized sf))) →
  share_only_at K (migrate_file logger volmnt volid vol_path fn sf vf st).
Proof.
  intros HK. unfold migrate_file.
  repeat first
    [ progress intros
    | by apply share_only_at_get_inode_info
    | solve [apply share_only_at_same; unfold try_except_OSError; structural]
    | apply share_only_at_bind
    | match goal with
      | |- _ (if ?b then _ else _) => destruct b
      | |- _ (match ?x with _ => _ end) => destruct x
      end ].
Qed.

Lemma share_only_at_migrate_entry (K : string → Prop) vol_path fn acc :
  (contains_char qmark (path_name (Path (os_path_join dirpath fn))) = true →
   K (key (sanitized (os_path_join dirpath fn)))) →
  share_only_at K (migrate_entry dirpath logger volmnt volid vol_path fn acc).
Proof.
  intros HK. unfold migrate_entry.
  repeat first
    [ progress intros
    | by apply share_only_at_migrate_file
    | solve [apply share_only_at_same; structural]
    | apply share_only_at_bind ].
Qed.

Lemma share_only_at_migrate_entries vol_path fns acc :
  share_only_at (sanitized_names dirpath fns)
    (migrate_entries dirpath logger volmnt volid vol_path fns acc).
Proof.
  revert acc.
  cut (∀ (K : string → Prop) acc, (∀ k, sanitized_names dirpath fns k → K k) →
         share_only_at K (migrate_entries dirpath logger volmnt volid vol_path fns acc)).
  { intros H acc. by apply H. }
  induction fns as [|fn fns IH]; intros K acc HK; simpl.
  - apply share_only_at_same. structural.
  - apply share_only_at_bind.
    + apply share_only_at_migrate_entry. intros Hq. apply HK. exists fn.
      split_and!; [by left|done..].
    + intros acc'. apply IH. intros k (fn' & Hfn' & Hq & ->). apply HK. exists fn'.
      split_and!; [by right|done..].
Qed.

Lemma share_only_at_deassimilate_dir fns :
  share_only_at (sanitized_names dirpath fns)
    (deassimilate_dir dirpath logger sharemnt share_root volmnt volid fns).
Proof.
  unfold deassimilate_dir.
  repeat first
    [ progress intros
    | apply share_only_at_migrate_entries
    | solve [apply share_only_at_same; unfold try_except_OSError; structural]
    | apply share_only_at_bind
    | match goal with
      | |- _ (if ?b then _ else _) => destruct b
      end ].
Qed.

(** X8. When no sanitized name of an entry is taken by a directory or
    a symbolic link, a run, whether it returns or raises an exception,
    adds no entry to the share and changes none.  The only names it can
    clear are the
    sanitized names of the entries whose name holds a "?", where a
    file of that very name is lost to the rename; every other name
    holds afterwards what it held before, and when no entry stands at
    the sanitized name of another the share is left exactly as it
    was. *)
Theorem deassimilate_dir_source_read_only (filenames : list string) (w : world) :
  (∀ fn, fn ∈ filenames → sanitized_clear (share w) (os_path_join dirpath fn)) →
  let w' := (deassimilate_dir dirpath logger sharemnt share_root volmnt volid filenames w).2 in
  share w' ⊆ share w
  ∧ (∀ k, ¬ sanitized_names dirpath filenames k → share w' !! k = share w !! k)
  ∧ (no_collision (share w) dirpath filenames → share w' = share w).
Proof.
  intros _ w'. split_and!.
  - apply share_shrinks_deassimilate_dir.
  - intros k Hk. by apply share_only_at_deassimilate_dir.
  - intros Hfree. by apply share_same_when_deassimilate_dir.
Qed.

End run_frames.

(* ------------------------------------------------------------------ *)
(** ** The target name of an entry                                     *)
(* ------------------------------------------------------------------ *)

Section join.

Lemma filter_keep_lstrip (s : string) :
  filter (fun x => Is_true (keep_part x)) (split_slash (lstrip_slash s))
  = filter (fun x => Is_true (keep_part x)) (split_slash s).
Proof.
  induction s as [|c s IH]; [done|]. simpl. destruct (is_slash c) eqn:Hc.
  - rewrite IH. symmetry. apply filter_cons_False. by vm_compute.
  - simpl. by rewrite Hc.
Qed.

(** The components of a path are the fields between its slashes that
    are neither empty nor ".". *)
Lemma parts_Path (s : string) :
  parts (Path s) = filter (fun x => Is_true (keep_part x)) (split_slash s).
Proof.
  unfold Path, splitroot. destruct (startswith_slash s); [|done].
  destruct (_ =? _)%nat; simpl; apply filter_keep_lstrip.
Qed.

Lemma parts_Path_file (u fn : string) :
  valid_part fn = true → parts (Path (u +:+ String slash fn)) = parts (Path u) ++ [fn].
Proof.
  intros Hfn. rewrite !parts_Path split_slash_app_gen filter_app.
  rewrite (split_slash_single fn); [by apply valid_part_no_slash|].
  rewrite (filter_cons_True _ fn); [apply Is_true_true; by apply valid_part_keep|].
  by rewrite filter_nil.
Qed.

Lemma parts_Path_slash (u : string) : parts (Path (u +:+ "/")) = parts (Path u).
Proof.
  rewrite !parts_Path split_slash_snoc filter_app.
  rewrite (filter_cons_False _ ""); [by vm_compute|].
  by rewrite filter_nil app_nil_r.
Qed.

Lemma parts_join (a fn : string) :
  valid_part fn = true → parts (Path (os_path_join a fn)) = parts (Path a) ++ [fn].
Proof.
  intros Hfn. unfold os_path_join. rewrite (valid_part_not_startswith fn Hfn).
  destruct (bool_decide (a = "")) eqn:Ha; simpl.
  - apply bool_decide_eq_true in Ha as ->. rewrite app_nil_str !parts_Path.
    rewrite (split_slash_single fn); [by apply valid_part_no_slash|].
    rewrite (filter_cons_True _ fn); [apply Is_true_true; by apply valid_part_keep|]. done.
  - destruct (endswith_slash a) eqn:He.
    + apply endswith_slash_inv in He as [a' ->].
      by rewrite app_assoc_str parts_Path_file // parts_Path_slash.
    + by apply parts_Path_file.
Qed.

(** The target name of an entry is not the target directory. *)
Lemma key_join_ne (a fn : string) :
  valid_part fn = true → key (os_path_join a fn) ≠ key a.
Proof.
  intros Hfn E. apply (f_equal Path) in E. unfold key in E.
  rewrite (Path_path_str (Path (os_path_join a fn)) (Path_valid _))
          (Path_path_str (Path a) (Path_valid _)) in E.
  apply (f_equal (fun p => length (parts p))) in E.
  rewrite parts_join // length_app /= in E. lia.
Qed.

End join.

(* ------------------------------------------------------------------ *)
(** ** The attributes of the target directory                          *)
(* ------------------------------------------------------------------ *)

Section directory_attributes.

Variables (dirpath : string) (logger : option Logger).
Variables (sharemnt share_root volmnt : string) (volid : Z).

(** The bits of the file kind do not reach the permission bits. *)
Lemma S_IMODE_set_perm mode x :
  S_IMODE (Z.lor (S_IFMT mode) (S_IMODE x)) = S_IMODE x.
Proof.
  unfold S_IFMT, S_IMODE.
  rewrite Z.land_lor_distr_l -!Z.land_assoc.
  change (Z.land 61440 4095) with 0. change (Z.land 4095 4095) with 4095.
  by rewrite Z.land_0_r Z.lor_0_l.
Qed.

(** A name that [makedirs] has bound holds a fresh directory. *)
Lemma makedirs_from_new ks p v k m :
  v !! k = None → (makedirs_from ks p v).2 !! k = Some m → m = new_dir.
Proof.
  revert v. induction ks as [|k0 ks IH]; intros v Hk; simpl; [by rewrite Hk|].
  destruct (v !! k0) as [n0|] eqn:Hk0.
  - destruct (S_ISDIR _); [by apply IH | simpl; by rewrite Hk].
  - destruct (decide (k = k0)) as [->|Hne].
    + rewrite (makedirs_from_keeps ks p _ k0 new_dir); [by rewrite lookup_insert_eq|].
      by intros [= <-].
    + apply IH. by rewrite lookup_insert_ne.
Qed.

(** What the block that sets up the target directory leaves at a
    name: what was there, or a fresh directory. *)
Lemma create_target_dir_entry vol_path w k m :
  volume (create_target_dir logger vol_path w).2 !! k = Some m →
  volume w !! k = Some m ∨ (volume w !! k = None ∧ m = new_dir).
Proof.
  unfold create_target_dir, try_except_OSError, try_except, os_path_isdir, os_makedirs,
    log_to, emit, trace, get_volume, put_volume, bind, ret, raise. simpl.
  assert (Hmk : ∀ v', v' = (makedirs_from (ancestors_and_self (Path vol_path)) vol_path
                              (volume w)).2 →
            v' !! k = Some m → volume w !! k = Some m ∨ (volume w !! k = None ∧ m = new_dir)).
  { intros v' -> Hm. destruct (volume w !! k) as [m0|] eqn:Hk.
    - left. by rewrite (makedirs_from_keeps _ _ _ k m0 Hk) in Hm.
    - right. split; [done|]. by eapply makedirs_from_new. }
  destruct (volume w !! key vol_path) as [n|] eqn:Hv; simpl.
  - destruct (S_ISDIR (st_mode (i_stat n))) eqn:Hd; simpl.
    + rewrite Hv /= Hd. destruct logger; simpl; auto.
    + destruct logger; simpl.
      all: destruct (makedirs_from _ _ _) as [[[]|e] v'] eqn:E; simpl.
      all: try destruct e; simpl; intros Hm; apply (Hmk v'); by rewrite ?E.
  - destruct logger; simpl.
    all: destruct (makedirs_from _ _ _) as [[[]|e] v'] eqn:E; simpl.
    all: try destruct e; simpl; intros Hm; apply (Hmk v'); by rewrite ?E.
Qed.

(** X11. When a run on a plain directory returns, the target directory
    carries the owner and the permission bits of the source directory,
    whatever was done for the entries afterwards; and it is a directory
    whenever the target path was free or a directory before. *)
Theorem directory_attributes_copied (filenames : list string) (w w' : world)
    (s : DirectorySummary) (n : inode) :
  share w !! key dirpath = Some n →
  get_filetype (i_stat n) ≠ Some "SYMLINK" →
  Forall (fun fn => valid_part fn = true) filenames →
  deassimilate_dir dirpath logger sharemnt share_root volmnt volid filenames w = (Ok s, w') →
  let vol_path := compute_vol_path sharemnt share_root volmnt dirpath in
  ∃ m, volume w' !! key vol_path = Some m
    ∧ st_uid (i_stat m) = st_uid (i_stat n)
    ∧ st_gid (i_stat m) = st_gid (i_stat n)
    ∧ S_IMODE (st_mode (i_stat m)) = S_IMODE (st_mode (i_stat n))
    ∧ (match volume w !! key vol_path with
       | Some m0 => S_ISDIR (st_mode (i_stat m0)) = true
       | None => True
       end → S_ISDIR (st_mode (i_stat m)) = true).
Proof.
  intros Hn Hdir Hvalid Hrun vol_path.
  unfold deassimilate_dir in Hrun. rewrite !(bind_log logger) in Hrun.
  erewrite (bind_ok (os_lstat dirpath)) in Hrun;
    [|apply os_lstat_run; rewrite !logged_share; exact Hn].
  rewrite (bool_decide_eq_false_2 _ Hdir) (bind_log logger) in Hrun.
  fold vol_path in Hrun.
  apply bind_inv in Hrun as ([] & w2 & Hmk & Hrun).
  apply bind_inv in Hrun as ([] & w3 & Hattr & Hrun).
  apply bind_inv in Hrun as (acc & w4 & Hloop & Hret).
  unfold ret in Hret. injection Hret as _ <-.
  rewrite migrate_entries_guard in Hloop.
  pose proof (copy_file_attrs_all dirpath vol_path "DIR" (i_stat n) logger w2
                (or_intror eq_refl)) as Hall.
  rewrite Hattr in Hall. destruct Hall as (_ & Hall).
  destruct (volume w2 !! key vol_path) as [m2|] eqn:Hm2; [|by destruct Hall].
  destruct Hall as (_ & _ & Hv3).
  assert (Hv4 : volume w4 !! key vol_path = volume w3 !! key vol_path).
  { pose proof (volume_only_at_migrate_entries dirpath logger volmnt volid
                  (fun k => k ≠ key vol_path) vol_path filenames (∅, 0)) as Honly.
    specialize (Honly ltac:(intros fn Hfn; apply key_join_ne;
                            by apply (proj1 (Forall_forall _ _) Hvalid)) w3 (key vol_path)).
    rewrite Hloop in Honly. apply Honly. by intros ?. }
  rewrite Hv4 Hv3 lookup_insert_eq. eexists. split; [done|].
  simpl. split_and!; [done|done|apply S_IMODE_set_perm|].
  intros Hbefore. unfold S_ISDIR. rewrite S_IFMT_set_perm.
  match type of Hmk with create_target_dir _ _ ?w1 = _ =>
    pose proof (create_target_dir_entry vol_path w1 (key vol_path) m2) as Hent end.
  rewrite Hmk in Hent. destruct (Hent Hm2) as [Hold | [_ ->]]; [|done].
  rewrite logged_volume /= !logged_volume in Hold. rewrite Hold in Hbefore. exact Hbefore.
Qed.

End directory_attributes.

(* ------------------------------------------------------------------ *)
(** ** What a returning run has made                                   *)
(* ------------------------------------------------------------------ *)

Section complete.

Variables (dirpath : string) (logger : option Logger).
Variables (sharemnt share_root volmnt : string) (volid : Z).

Lemma migrate_entries_app vol_path l1 l2 acc w :
  migrate_entries dirpath logger volmnt volid vol_path (l1 ++ l2) acc w
  = bind (migrate_entries dirpath logger volmnt volid vol_path l1 acc)
         (fun acc' => migrate_entries dirpath logger volmnt volid vol_path l2 acc') w.
Proof.
  revert acc w. induction l1 as [|fn l1 IH]; intros acc w; simpl.
  - by unfold bind, ret.
  - unfold bind.
    destruct (migrate_entry _ _ _ _ _ fn acc w) as [[acc'|e] w']; [|done].
    rewrite IH. by unfold bind.
Qed.

(** Two entries of a directory with the same target name are the same
    entry. *)
Lemma key_join_inj (a fn fn' : string) :
  valid_part fn = true → valid_part fn' = true →
  key (os_path_join a fn) = key (os_path_join a fn') → fn = fn'.
Proof.
  intros Hfn Hfn' E. apply (f_equal Path) in E. unfold key in E.
  rewrite (Path_path_str (Path (os_path_join a fn)) (Path_valid _))
          (Path_path_str (Path (os_path_join a fn')) (Path_valid _)) in E.
  apply (f_equal parts) in E. rewrite !parts_join // in E.
  by apply app_inj_tail in E as [_ ?].
Qed.

(** The target name of an entry is none of the directories on the way
    to the target directory. *)
Lemma key_join_not_ancestor (a fn : string) :
  valid_part fn = true → key (os_path_join a fn) ∉ ancestors_and_self (Path a).
Proof.
  intros Hfn Hin. unfold ancestors_and_self in Hin.
  apply list_elem_of_fmap in Hin as (i & E & _).
  apply (f_equal Path) in E. unfold key in E.
  rewrite (Path_path_str (Path (os_path_join a fn)) (Path_valid _)) in E.
  rewrite Path_path_str in E.
  { destruct (Path_valid a) as [Hr Hp]. split; [done|]. simpl. by apply Forall_take. }
  apply (f_equal (fun p => length (parts p))) in E.
  rewrite parts_join // length_app /= length_take in E. lia.
Qed.

Lemma find_instance_on_volume l inst :
  find_instance l volid = Some inst → obs inst = volid.
Proof. by intros [_ ?]%find_instance_some. Qed.

(** The loop, for one of its entries whose target name is free when
    the loop starts: what stands at the target name when the loop has
    returned. *)
Lemma migrate_entries_made vol_path fns acc w acc' w' (S0 : gmap string inode) fn e :
  migrate_entries dirpath logger volmnt volid vol_path fns acc w = (Ok acc', w') →
  Forall (fun fn => valid_part fn = true) fns →
  share w ⊆ S0 →
  fn ∈ fns →
  S0 !! key (os_path_join dirpath fn) = Some e →
  volume w !! key (os_path_join vol_path fn) = None →
  (get_filetype (i_stat e) = Some "SYMLINK" →
   ∃ m', volume w' !! key (os_path_join vol_path fn) = Some m'
         ∧ S_ISLNK (st_mode (i_stat m')) = true ∧ i_link m' = i_link e)
  ∧ (∀ d inst m,
       get_filetype (i_stat e) = Some "REGULAR" →
       i_info e = Document d →
       find_instance (default [] (instance d)) volid = Some inst →
       volume w !! key (os_path_join volmnt (drop_str 1 (path inst))) = Some m →
       ∃ m', volume w' !! key (os_path_join vol_path fn) = Some m' ∧ same_content m m').
Proof.
  intros Hrun Hvalid Hsub Hin He Hfree.
  apply list_elem_of_split_l in Hin as (l1 & l2 & -> & Hnot).
  rewrite migrate_entries_app in Hrun.
  apply bind_inv in Hrun as (acc1 & w1 & Hrun1 & Hrun).
  simpl in Hrun. apply bind_inv in Hrun as (acc2 & w2 & Hstep & Hrun2).
  apply Forall_app in Hvalid as [Hvalid1 Hvalid2].
  inversion Hvalid2 as [|? ? Hfn Hvalid3]; subst.
  (* the entries before leave the target name free *)
  assert (Hfree1 : volume w1 !! key (os_path_join vol_path fn) = None).
  { pose proof (volume_only_at_migrate_entries dirpath logger volmnt volid
                  (fun k => k ≠ key (os_path_join vol_path fn)) vol_path l1 acc) as Honly.
    rewrite -Hfree. specialize (Honly ltac:(
      intros fn' Hfn' E; apply Hnot; apply key_join_inj in E;
      [by subst|by apply (proj1 (Forall_forall _ _) Hvalid1)|done]) w
      (key (os_path_join vol_path fn))).
    rewrite Hrun1 in Honly. apply Honly. by intros ?. }
  (* the entry is still the one the share held at the start *)
  pose proof (share_shrinks_migrate_entries dirpath logger volmnt volid vol_path l1 acc w)
    as Hs1. rewrite Hrun1 in Hs1. simpl in Hs1.
  pose proof (migrate_entry_inv dirpath logger volmnt volid vol_path fn acc1 w1 acc2 w2 Hstep)
    as (e' & He' & _ & _).
  assert (e' = e) as ->.
  { eapply lookup_weaken in He'; [|by etrans]. congruence. }
  (* what the entries after keep *)
  pose proof (volume_keeps_migrate_entries dirpath logger volmnt volid vol_path l2 acc2 w2)
    as Hkeep2. rewrite Hrun2 in Hkeep2. simpl in Hkeep2.
  split.
  - intros Hlnk.
    destruct (migrate_entry_symlink dirpath logger volmnt volid vol_path fn acc1 w1 e He' Hlnk)
      as (w2' & Hstep' & _ & (m1 & Hm1 & _ & _ & Hnew) & _).
    rewrite Hstep in Hstep'. injection Hstep' as _ <-.
    rewrite Hfree1 in Hnew. destruct Hnew as [Hlink Hkind].
    destruct (Hkeep2 _ _ Hm1) as (m' & Hm' & Hsame). exists m'. split; [done|].
    destruct Hsame as (Hk & Hl & _). unfold S_ISLNK in *. by rewrite Hk Hl.
  - intros d inst m Hreg Hdoc Hfind Hm.
    pose proof (volume_keeps_migrate_entries dirpath logger volmnt volid vol_path l1 acc w)
      as Hkeep1. rewrite Hrun1 in Hkeep1. simpl in Hkeep1.
    destruct (Hkeep1 _ _ Hm) as (m1 & Hm1 & Hsame1).
    destruct (migrate_entry_link dirpath logger volmnt volid vol_path fn acc1 w1 e m1 d inst
                He' Hreg Hdoc Hfind Hm1) as (w2' & Hstep' & Htarget & _).
    rewrite Hstep in Hstep'. injection Hstep' as _ <-.
    rewrite Hfree1 in Htarget. simpl in Htarget.
    destruct (Hkeep2 _ _ Htarget) as (m' & Hm' & Hsame). exists m'. split; [done|].
    by eapply same_content_trans.
Qed.

(** X12. When a run on a plain directory has returned, every entry
    passed in that could be migrated and whose target name was free
    stands on the volume: a symbolic link of the share is a symbolic
    link with the same text, and a regular file whose document lists a
    placement on the wanted volume, the first such placement being a
    regular file on the volume, is there with the kind of file, link
    text and document of that placement.  The names are plain file
    names, no sanitized name of an entry is taken by a directory or a
    symbolic link, and the target path was free or a directory. *)
Theorem migration_complete (filenames : list string) (w w' : world)
    (s : DirectorySummary) (n : inode) :
  share w !! key dirpath = Some n →
  get_filetype (i_stat n) ≠ Some "SYMLINK" →
  Forall (fun fn => plain_name fn = true) filenames →
  (∀ fn, fn ∈ filenames → sanitized_clear (share w) (os_path_join dirpath fn)) →
  match volume w !! key (compute_vol_path sharemnt share_root volmnt dirpath) with
  | Some m0 => S_ISDIR (st_mode (i_stat m0)) = true
  | None => True
  end →
  deassimilate_dir dirpath logger sharemnt share_root volmnt volid filenames w = (Ok s, w') →
  ∀ fn e,
    fn ∈ filenames →
    share w !! key (os_path_join dirpath fn) = Some e →
    volume w !! key (os_path_join (compute_vol_path sharemnt share_root volmnt dirpath) fn)
      = None →
    (get_filetype (i_stat e) = Some "SYMLINK" →
     ∃ m', volume w' !! key (os_path_join
                               (compute_vol_path sharemnt share_root volmnt dirpath) fn)
           = Some m'
         ∧ S_ISLNK (st_mode (i_stat m')) = true ∧ i_link m' = i_link e)
    ∧ (∀ d inst m,
         get_filetype (i_stat e) = Some "REGULAR" →
         i_info e = Document d →
         find_instance (default [] (instance d)) volid = Some inst →
         volume w !! key (os_path_join volmnt (drop_str 1 (path inst))) = Some m →
         S_ISREG (st_mode (i_stat m)) = true →
         ∃ m', volume w' !! key (os_path_join
                                   (compute_vol_path sharemnt share_root volmnt dirpath) fn)
               = Some m'
             ∧ same_content m m').
Proof.
  intros Hn Hdir Hplain _ _ Hrun fn e Hin He Hfree.
  assert (Hvalid : Forall (fun fn => valid_part fn = true) filenames).
  { eapply Forall_impl; [exact Hplain|]. intros x Hx. by apply andb_prop in Hx as [? _]. }
  set (vol_path := compute_vol_path sharemnt share_root volmnt dirpath) in *.
  unfold deassimilate_dir in Hrun. rewrite !(bind_log logger) in Hrun.
  erewrite (bind_ok (os_lstat dirpath)) in Hrun;
    [|apply os_lstat_run; rewrite !logged_share; exact Hn].
  rewrite (bool_decide_eq_false_2 _ Hdir) (bind_log logger) in Hrun.
  fold vol_path in Hrun.
  apply bind_inv in Hrun as ([] & w2 & Hmk & Hrun).
  apply bind_inv in Hrun as ([] & w3 & Hattr & Hrun).
  apply bind_inv in Hrun as (acc & w4 & Hloop & Hret).
  unfold ret in Hret. injection Hret as _ <-.
  rewrite migrate_entries_guard in Hloop.
  assert (Hfn : valid_part fn = true) by by apply (proj1 (Forall_forall _ _) Hvalid).
  match type of Hmk with create_target_dir _ _ ?w0 = _ => set (w1 := w0) in * end.
  assert (Hv1 : volume w1 = volume w) by (unfold w1; by rewrite logged_volume /= !logged_volume).
  assert (Hs1 : share w1 = share w) by (unfold w1; by rewrite logged_share /= !logged_share).
  (* the two blocks before the loop *)
  assert (Hfree3 : volume w3 !! key (os_path_join vol_path fn) = None).
  { pose proof (volume_only_at_create_target_dir logger
                  (fun k => k ∈ ancestors_and_self (Path vol_path)) vol_path
                  (fun k Hk => Hk) w1 (key (os_path_join vol_path fn))
                  (key_join_not_ancestor vol_path fn Hfn)) as H2.
    rewrite Hmk /= Hv1 in H2.
    pose proof (volume_only_at_copy_file_attrs logger (fun k => k = key vol_path)
                  dirpath vol_path "DIR" (i_stat n) eq_refl w2
                  (key (os_path_join vol_path fn)) (key_join_ne vol_path fn Hfn)) as H3.
    rewrite Hattr /= in H3. congruence. }
  assert (Hs3 : share w3 = share w).
  { pose proof (share_same_create_target_dir logger vol_path w1) as H2.
    rewrite Hmk /= in H2.
    pose proof (share_same_copy_file_attrs dirpath vol_path "DIR" (i_stat n) logger w2) as H3.
    rewrite Hattr /= in H3. congruence. }
  assert (Hkeep3 : ∀ k m, volume w !! k = Some m →
                          ∃ m3, volume w3 !! k = Some m3 ∧ same_content m m3).
  { intros k m Hm. rewrite -Hv1 in Hm.
    destruct (volume_keeps_create_target_dir logger vol_path w1 k m Hm) as (m2 & Hm2 & S2).
    rewrite Hmk /= in Hm2.
    destruct (volume_keeps_copy_file_attrs logger dirpath vol_path "DIR" (i_stat n)
                w2 k m2 Hm2) as (m3 & Hm3 & S3).
    rewrite Hattr /= in Hm3. eauto using same_content_trans. }
  destruct (migrate_entries_made vol_path filenames (∅, 0) w3 acc w4 (share w) fn e)
    as [Hlnk Hreg]; [done|done|by rewrite Hs3|done|done|done|].
  split; [done|].
  intros d inst m Hr Hdoc Hfind Hm _.
  destruct (Hkeep3 _ _ Hm) as (m3 & Hm3 & S3).
  destruct (Hreg d inst m3 Hr Hdoc Hfind Hm3) as (m' & Hm' & S'). exists m'.
  eauto using same_content_trans.
Qed.

End complete.

(* ------------------------------------------------------------------ *)
(** ** The listing a worker makes                                      *)
(* ------------------------------------------------------------------ *)

Section listing.

Variable scandir : string → world → listing.

Lemma scan_entries_filter entries logger filenames w :
  ∃ w', scan_entries entries logger filenames w
        = (Ok (filenames ++ (de_name <$> filter (fun e => Is_true (listed_as_file e)) entries)),
           w')
    ∧ share w' = share w ∧ volume w' = volume w ∧ calls w' = calls w
    ∧ (logger = None → log w' = log w).
Proof.
  revert filenames w. induction entries as [|entry rest IH]; intros filenames w.
  - simpl. exists w. unfold ret. by rewrite app_nil_r.
  - rewrite filter_cons. simpl scan_entries.
    destruct (decide (Is_true (listed_as_file entry))) as [Hk|Hk];
      unfold listed_as_file in Hk;
      destruct (de_is_file entry), (de_is_symlink entry), (de_target entry) as [[]|n t|t];
      simpl in Hk; try done; try (by destruct Hk);
      rewrite ?(bind_log logger);
      first
        [ destruct (IH (filenames ++ [de_name entry]) w) as (w' & -> & ?);
          exists w'; by rewrite fmap_cons -app_assoc
        | apply IH
        | match goal with |- context [scan_entries rest logger filenames ?w0] =>
            destruct (IH filenames w0) as (w' & -> & Hs & Hv & Hc & Hl') end;
          exists w'; rewrite Hs Hv Hc logged_share logged_volume logged_calls;
          split_and!; try done; intros ->; by rewrite Hl' ].
Qed.

(** X13. [_get_files_only] returns, in the order of the listing, the
    names of the entries that are files and of the symbolic links whose
    target checks as a file, and of no other entry: a directory, a
    FIFO, a link to a directory, a link whose target is missing or
    cannot be resolved are left out, the last two with a debug record
    and without an error.  Only a failing listing raises, with the
    error of the listing.  Nothing is changed on the share or the
    volume. *)
Theorem get_files_only_lists_files (dirpath : string) (logger : option Logger) (w : world) :
  match scandir dirpath w with
  | Listed entries =>
      ∃ w', _get_files_only scandir dirpath logger w
            = (Ok (de_name <$> filter (fun e => Is_true (listed_as_file e)) entries), w')
        ∧ share w' = share w ∧ volume w' = volume w ∧ calls w' = calls w
        ∧ (logger = None → log w' = log w)
  | ListingError n t =>
      _get_files_only scandir dirpath logger w = (Raise (OSError n t), w)
  end.
Proof.
  unfold _get_files_only, os_scandir.
  destruct (scandir dirpath w) as [entries|n t] eqn:Hlist; unfold bind at 1; rewrite Hlist;
    [|done].
  destruct (scan_entries_filter entries logger [] w) as (w1 & Hscan & Hs & Hv & Hc & Hl).
  rewrite (bind_ok _ _ _ _ _ Hscan) (bind_log logger). eexists. split; [done|].
  rewrite logged_share logged_volume logged_calls. split_and!; try done.
  intros ->. by rewrite /= Hl.
Qed.

End listing.

(* ------------------------------------------------------------------ *)
(** ** A walk that runs to its end                                     *)
(* ------------------------------------------------------------------ *)

Section walk_completes.

Variable alive : nat → nat → bool.

Lemma feed_tasks_all workers dirs n :
  (∀ j, (1 ≤ j ≤ length dirs)%nat → existsb (alive (n + j)) workers = true) →
  ∃ evs, feed_tasks alive workers dirs n = (evs, false)
    ∧ puts evs = map (fun p => Some (path_str (Path p), [])) dirs
    ∧ joins evs = [].
Proof.
  revert n. induction dirs as [|d dirs IH]; intros n Hlive; simpl.
  - by eexists.
  - pose proof (Hlive 1%nat ltac:(simpl; lia)) as H1.
    replace (n + 1)%nat with (S n) in H1 by lia. rewrite H1. simpl.
    destruct (IH (S n)) as (evs & -> & Hputs & Hjoins).
    { intros j Hj. replace (S n + j)%nat with (n + S j)%nat by lia. apply Hlive.
      simpl. lia. }
    eexists. split; [done|]. split; [|done]. simpl. by rewrite Hputs.
Qed.

Lemma puts_pills (ws : list nat) :
  puts (map (fun _ => Ev_put None) ws) = replicate (length ws) None.
Proof. induction ws as [|x ws IH]; [done|]. simpl. by rewrite -IH. Qed.

Lemma joins_pills (ws : list nat) : joins (map (fun _ => Ev_put None) ws) = [].
Proof. induction ws as [|x ws IH]; [done|]. by simpl. Qed.

(** X14. While some worker is alive at every check, the scheduler
    enqueues one task for each directory of the traversal, in the order
    of the traversal and each with an empty name list, then one poison
    pill for each worker, and no other item; it then joins every worker
    and last of all waits for the thread that handles the results.  A
    traversal that yields no directory enqueues the pills only. *)
Theorem walk_enqueues_every_directory (self : DirectoryWalker) (dirpaths : list string) :
  (∀ j, (1 ≤ j ≤ length dirpaths)%nat →
        existsb (alive j) (workers_of (max_processes self)) = true) →
  let evs := walk_directories alive self dirpaths in
  puts evs = map (fun p => Some (path_str (Path p), [])) dirpaths
             ++ replicate (max_processes self) None
  ∧ joins evs = workers_of (max_processes self)
  ∧ last evs = Some Ev_await_results.
Proof.
  intros Hlive evs. unfold evs, walk_directories.
  destruct (feed_tasks_all (workers_of (max_processes self)) dirpaths 0)
    as (fed & -> & Hputs & Hjoins); [done|].
  split_and!.
  - rewrite (puts_app [_; _; _]) !puts_app puts_starts Hputs puts_pills puts_joins.
    unfold workers_of. rewrite length_seq. simpl. by rewrite app_nil_r.
  - rewrite (joins_app [_; _; _]) !joins_app joins_starts Hjoins joins_pills joins_joins.
    simpl. by rewrite app_nil_r.
  - rewrite !app_assoc.
    change [Ev_log DEBUG "Work processes are finished"; Ev_await_results]
      with ([Ev_log DEBUG "Work processes are finished"] ++ [Ev_await_results]).
    rewrite app_assoc. apply last_snoc.
Qed.

End walk_completes.

(* ------------------------------------------------------------------ *)
(** ** The totals                                                      *)
(* ------------------------------------------------------------------ *)

Section results.

Ltac run_handler :=
  unfold results_handler_turn, try_except, result_queue_get, process_directory_result,
    Default_process_directory_result, Custom_process_directory_result,
    processing_result_get, log_or_print, get_processor, update_processor, say,
    bind, ret, raise; simpl.

Lemma process_file_results_run file_results s :
  process_file_results file_results s = (Ok tt, s).
Proof.
  induction file_results as [|fr rest IH]; simpl; [done|].
  unfold bind, process_file_result, ret. by rewrite IH.
Qed.

(** One turn of the thread *)
Lemma results_handler_turn_counts t s :
  let '(r, s') := results_handler_turn t s in
  r = Ok (leaves_loop t)
  ∧ rp_kind (hs_processor s') = rp_kind (hs_processor s)
  ∧ rp_logger (hs_processor s') = rp_logger (hs_processor s)
  ∧ counters (hs_processor s')
    = match ht_got t with
      | Some result =>
          (rp_total_directories (hs_processor s) + (if succeeded result then 1 else 0),
           rp_total_files (hs_processor s) + counted total_files result,
           rp_total_size (hs_processor s) + counted total_size_bytes result)
      | None => counters (hs_processor s)
      end.
Proof.
  destruct t as [[result|] any_alive]; unfold leaves_loop, counters, counted, succeeded.
  - unfold results_handler_turn, try_except, result_queue_get. simpl. unfold bind at 1. simpl.
    unfold bind at 1. unfold say at 1. simpl.
    unfold bind at 1. unfold process_directory_result, bind at 1, get_processor. simpl.
    destruct s as [[kind dirs files size logger] out]. simpl.
    unfold Default_process_directory_result, Custom_process_directory_result,
      processing_result_get, log_or_print, get_processor, update_processor, say,
      bind, ret, raise.
    destruct kind, (bool_decide (dr_status result = "success")),
      (dr_processing_result result) as [summary|], logger; simpl;
      rewrite ?process_file_results_run; simpl;
      rewrite ?Z.add_0_r; done.
  - run_handler. destruct any_alive; simpl; by rewrite ?Z.add_0_r.
Qed.

(** X15. The thread that handles results leaves its loop only on a
    turn whose queue read times out while no worker is alive; no result
    makes it raise.  When it has left the loop, the processor's
    directory counter has grown by the number of "success" results
    taken off the queue, and its file and size counters by the sums of
    [total_files] and [total_size_bytes] over the processing results
    of those "success" results; "error" results add nothing.  This
    holds for both processor classes, which therefore end with the same
    totals. *)
Theorem results_handler_totals (turns : list handler_turn_env) (s : handler_state) :
  let '(r, s') := _results_handler turns s in
  r = Ok (existsb leaves_loop turns)
  ∧ rp_kind (hs_processor s') = rp_kind (hs_processor s)
  ∧ rp_logger (hs_processor s') = rp_logger (hs_processor s)
  ∧ counters (hs_processor s')
    = (rp_total_directories (hs_processor s)
         + Z.of_nat (length (filter (fun r => Is_true (succeeded r)) (handled turns))),
       rp_total_files (hs_processor s) + total (counted total_files) (handled turns),
       rp_total_size (hs_processor s) + total (counted total_size_bytes) (handled turns)).
Proof.
  revert s. induction turns as [|t turns IH]; intros s; simpl.
  - unfold ret, counters, total. simpl. by rewrite !Z.add_0_r.
  - unfold bind. pose proof (results_handler_turn_counts t s) as Ht.
    destruct (results_handler_turn t s) as [r s1]. destruct Ht as (-> & Hk & Hl & Hc).
    unfold leaves_loop in *. unfold counters in Hc.
    destruct (ht_got t) as [result|] eqn:Hgot; simpl.
    + specialize (IH s1). destruct (_results_handler turns s1) as [r s2].
      destruct IH as (-> & Hk2 & Hl2 & Hc2). injection Hc as Hd Hf Hs.
      split_and!; [done|congruence|congruence|].
      rewrite Hc2 Hd Hf Hs filter_cons. unfold total. rewrite !fmap_cons. simpl.
      destruct (succeeded result); simpl; f_equal; [f_equal| |f_equal|]; lia.
    + destruct (ht_any_alive t); simpl.
      * specialize (IH s1). destruct (_results_handler turns s1) as [r s2].
        destruct IH as (-> & Hk2 & Hl2 & Hc2). injection Hc as Hd Hf Hs.
        split_and!; [done|congruence|congruence|]. by rewrite Hc2 Hd Hf Hs.
      * unfold ret. injection Hc as Hd Hf Hs. split_and!; try done.
        unfold counters, total. simpl. rewrite Hd Hf Hs. f_equal; [f_equal|]; lia.
Qed.

(** X16. A "success" result that carries no processing result is
    counted as a directory before the processor fails on it: the
    directory counter grows by one, the file and size counters are left
    as they are, the failure is written as an error record of the
    scheduler's logger, and the thread stays in its loop. *)
Theorem success_without_processing_result (result : DirectoryResult) (any_alive : bool)
    (s : handler_state) :
  dr_status result = "success" →
  dr_processing_result result = None →
  let '(r, s') := results_handler_turn (mkTurn (Some result) any_alive) s in
  r = Ok false
  ∧ counters (hs_processor s')
    = (rp_total_directories (hs_processor s) + 1,
       rp_total_files (hs_processor s), rp_total_size (hs_processor s))
  ∧ last (hs_out s')
    = Some (Logged (mkLog ERROR "Error processing result: {str(e)}"
                      [FStr "'NoneType' object has no attribute 'get'"])).
Proof.
  intros Hst Hpr.
  unfold results_handler_turn, try_except, result_queue_get. simpl. unfold bind at 1. simpl.
  unfold bind at 1. unfold say at 1. simpl.
  unfold bind at 1. unfold process_directory_result, bind at 1, get_processor. simpl.
  destruct s as [[kind dirs files size logger] out]. simpl.
  unfold Default_process_directory_result, Custom_process_directory_result,
    processing_result_get, log_or_print, get_processor, update_processor, say,
    bind, ret, raise.
  rewrite Hst Hpr.
  destruct kind, logger; simpl; rewrite last_snoc; done.
Qed.

End results.

(* ------------------------------------------------------------------ *)
(** ** The choice of volume and share                                  *)
(* ------------------------------------------------------------------ *)

Section driver.

Lemma volume_detail_storage volume :
  storage_volume volume →
  ∃ d, volume_detail volume = Ok d
       ∧ d !! "id" = Some (JInt (ve_internalId volume))
       ∧ d !! "ip" = JStr <$> head (ve_addresses volume)
       ∧ d !! "path" = Some (JStr (ve_exportPath volume))
       ∧ d ≠ ∅.
Proof.
  intros [Ht Ha]. unfold volume_detail. rewrite bool_decide_eq_true_2 //.
  destruct (ve_addresses volume) as [|address rest]; [done|].
  eexists. split; [done|]. split_and!; done.
Qed.

Lemma volume_detail_other volume :
  ve_type volume ≠ Some "STORAGE_VOLUME" → volume_detail volume = Ok ∅.
Proof. intros Ht. unfold volume_detail. by rewrite bool_decide_eq_false_2. Qed.

Lemma volume_detail_taken_in volume :
  taken_in volume → ∃ d, volume_detail volume = Ok d.
Proof.
  intros Hl. destruct (decide (ve_type volume = Some "STORAGE_VOLUME")) as [Ht|Ht].
  - destruct (volume_detail_storage volume) as (d & ? & _); [by split; auto|]. eauto.
  - rewrite volume_detail_other //. eauto.
Qed.

(** The details kept for a listing that is taken in without error:
    one for each entry, in the order of the listing *)
Lemma volume_details_of_taken_in volumes_json acc :
  Forall taken_in volumes_json →
  ∃ ds, volume_details_of volumes_json acc = Ok (acc ++ ds)
        ∧ Forall2 (fun volume d => volume_detail volume = Ok d) volumes_json ds.
Proof.
  intros Hall. revert acc. induction Hall as [|volume rest Hv _ IH]; intros acc; simpl.
  - exists []. by rewrite app_nil_r.
  - destruct (volume_detail_taken_in volume Hv) as (d & Hd). rewrite Hd.
    destruct (IH (acc ++ [d])) as (ds & -> & Hds). exists (d :: ds).
    rewrite -app_assoc. split; [done|]. by constructor.
Qed.

Lemma select_volume_first ds1 d ds2 volid :
  Forall (fun d' => ∃ i, d' !! "id" = Some (JInt i) ∧ i ≠ volid) ds1 →
  d !! "id" = Some (JInt volid) →
  select_volume (ds1 ++ d :: ds2) volid = Ok d.
Proof.
  intros Hds1 Hd. induction Hds1 as [|d' ds1 (i & Hi & Hne) _ IH]; simpl.
  - unfold subscript. rewrite Hd. by rewrite bool_decide_eq_true_2.
  - unfold subscript. rewrite Hi. rewrite bool_decide_eq_false_2; [by intros [= ->]|]. done.
Qed.

Lemma select_volume_placeholder ds1 ds2 volid :
  Forall (fun d' => ∃ i, d' !! "id" = Some (JInt i) ∧ i ≠ volid) ds1 →
  select_volume (ds1 ++ ∅ :: ds2) volid = Raise (KeyError "id").
Proof.
  intros Hds1. induction Hds1 as [|d' ds1 (i & Hi & Hne) _ IH]; simpl.
  - done.
  - unfold subscript. rewrite Hi. rewrite bool_decide_eq_false_2; [by intros [= ->]|]. done.
Qed.

Lemma select_volume_none ds volid :
  Forall (fun d' => ∃ i, d' !! "id" = Some (JInt i) ∧ i ≠ volid) ds →
  select_volume ds volid = Ok ∅.
Proof.
  intros Hds. induction Hds as [|d' ds (i & Hi & Hne) _ IH]; simpl; [done|].
  unfold subscript. rewrite Hi. rewrite bool_decide_eq_false_2; [by intros [= ->]|]. done.
Qed.

Lemma share_detail_id share : share_detail share !! "id" = Some (JInt (se_internalId share)).
Proof.
  unfold share_detail. by rewrite lookup_insert_ne // lookup_insert_ne // lookup_insert_eq.
Qed.

Lemma share_detail_path share : share_detail share !! "path" = Some (JStr (se_path share)).
Proof.
  unfold share_detail.
  by rewrite lookup_insert_ne // lookup_insert_ne // lookup_insert_ne // lookup_insert_eq.
Qed.

Lemma select_share_first shares1 share shares2 shareid :
  Forall (fun x => se_internalId x ≠ shareid) shares1 →
  se_internalId share = shareid →
  select_share (share_detail <$> (shares1 ++ share :: shares2)) shareid
  = Ok (share_detail share, Some (JStr (se_path share))).
Proof.
  intros Hs1 Hs. induction Hs1 as [|x shares1 Hne _ IH]; simpl.
  - unfold subscript. rewrite share_detail_id share_detail_path Hs.
    by rewrite bool_decide_eq_true_2.
  - unfold subscript at 1. rewrite share_detail_id.
    rewrite bool_decide_eq_false_2; [by intros [= E]|]. done.
Qed.

Lemma select_share_none shares shareid :
  Forall (fun x => se_internalId x ≠ shareid) shares →
  select_share (share_detail <$> shares) shareid = Ok (∅, None).
Proof.
  intros Hs. induction Hs as [|x shares Hne _ IH]; simpl; [done|].
  unfold subscript at 1. rewrite share_detail_id.
  rewrite bool_decide_eq_false_2; [by intros [= E]|]. done.
Qed.

Lemma share_detail_nonempty share : share_detail share ≠ ∅.
Proof.
  intros E. apply (f_equal (lookup "id")) in E. by rewrite share_detail_id in E.
Qed.

(** The details of a listing that is split at one of its entries *)
Lemma details_split vols1 v vols2 volid :
  Forall (fun x => storage_volume x ∧ ve_internalId x ≠ volid) vols1 →
  taken_in v →
  Forall taken_in vols2 →
  ∃ ds1 dv ds2,
    volume_details_of (vols1 ++ v :: vols2) [] = Ok (ds1 ++ dv :: ds2)
    ∧ volume_detail v = Ok dv
    ∧ Forall (fun d' => ∃ i, d' !! "id" = Some (JInt i) ∧ i ≠ volid) ds1.
Proof.
  intros H1 Hv H2.
  destruct (volume_details_of_taken_in (vols1 ++ v :: vols2) []) as (ds & -> & Hds).
  { apply Forall_app. split; [|by constructor].
    eapply Forall_impl; [exact H1|]. by intros x [[_ ?] _] _. }
  apply Forall2_app_inv_l in Hds as (ds1 & ds' & Hds1 & Hds' & ->).
  inversion Hds' as [|? dv ? ds2 Hdv Hds2]; subst.
  exists ds1, dv, ds2. split_and!; [done..|].
  clear -H1 Hds1. induction Hds1 as [|x d vols1 ds1 Hd _ IH]; [done|].
  inversion H1 as [|? ? [Hx Hne] H1']; subst. constructor; [|by apply IH].
  destruct (volume_detail_storage x Hx) as (d' & Hd' & Hid & _).
  rewrite Hd in Hd'. injection Hd' as <-. eauto.
Qed.

(** X17. With a volume id and a share id on the command line, [run]
    goes on to mount the first storage volume of the listing that bears
    the volume id and the first share that bears the share id, and
    takes the root path of the share from that share, provided only
    storage volumes stand before the volume in the listing; nothing is
    written to the logger on the way. *)
Theorem run_selects_first_match (args : Args) (volid shareid : Z)
    (vols1 : list VolumeEntry) (v : VolumeEntry) (vols2 : list VolumeEntry)
    (shares1 : list ShareEntry) (sh : ShareEntry) (shares2 : list ShareEntry) :
  args_list_volumes args = false →
  args_volid args = Some volid →
  args_shareid args = Some shareid →
  Forall (fun x => storage_volume x ∧ ve_internalId x ≠ volid) vols1 →
  storage_volume v →
  ve_internalId v = volid →
  Forall taken_in vols2 →
  Forall (fun x => se_internalId x ≠ shareid) shares1 →
  se_internalId sh = shareid →
  ∃ dv, volume_detail v = Ok dv
    ∧ dv !! "ip" = JStr <$> head (ve_addresses v)
    ∧ dv !! "path" = Some (JStr (ve_exportPath v))
    ∧ run_selection args (vols1 ++ v :: vols2) (shares1 ++ sh :: shares2)
      = (Returns (mkSelection dv (share_detail sh) (Some (JStr (se_path sh)))), []).
Proof.
  intros Hlist Hvolid Hshareid H1 Hv Hid H2 Hs1 Hsh.
  destruct (details_split vols1 v vols2 volid H1) as (ds1 & dv & ds2 & Hds & Hdv & Hds1);
    [by intros _; destruct Hv|done|].
  destruct (volume_detail_storage v Hv) as (dv' & Hdv' & Hid' & Hip & Hpath & Hne).
  rewrite Hdv in Hdv'. injection Hdv' as <-.
  exists dv. split_and!; [done..|].
  unfold run_selection, get_share_volume. rewrite Hds Hlist Hvolid Hshareid.
  rewrite select_volume_first //; [by rewrite Hid' Hid|].
  rewrite bool_decide_eq_false_2 //.
  rewrite select_share_first //.
Qed.

(** X18. An entry of the listing that is not a storage volume is kept
    as an empty dictionary, and reading its id fails: when such an
    entry stands before every volume that bears the wanted id, [run]
    raises a [KeyError] instead of choosing or of reporting the id as
    not found, and the main program logs it and exits with code 1.
    Listing the volumes fails on the same entry, after the lines of the
    volumes before it, and exits with code 1 rather than 0. *)
Theorem non_storage_entry_stops_run (args : Args) (vols1 : list VolumeEntry)
    (v : VolumeEntry) (vols2 : list VolumeEntry) (shares_json : list ShareEntry) :
  Forall storage_volume vols1 →
  ve_type v ≠ Some "STORAGE_VOLUME" →
  Forall taken_in vols2 →
  (∀ volid shareid,
     args_list_volumes args = false →
     args_volid args = Some volid →
     args_shareid args = Some shareid →
     Forall (fun x => ve_internalId x ≠ volid) vols1 →
     main_run (run_selection args (vols1 ++ v :: vols2) shares_json)
     = (Exits 1, [mkLog ERROR "Error during deassimilation: {e}" [FExn (KeyError "id")]]))
  ∧ (args_list_volumes args = true →
     ∃ out, main_run (run_selection args (vols1 ++ v :: vols2) shares_json)
            = (Exits 1, out)
       ∧ length out = S (S (length vols1))
       ∧ last out = Some (mkLog ERROR "Error during deassimilation: {e}"
                            [FExn (KeyError "id")])).
Proof.
  intros H1 Hv H2. split.
  - intros volid shareid Hlist Hvolid Hshareid Hne.
    destruct (details_split vols1 v vols2 volid) as (ds1 & dv & ds2 & Hds & Hdv & Hds1);
      [|by intros ?|done|].
    { apply Forall_forall. intros x Hx. split.
      - by apply (proj1 (Forall_forall _ _) H1).
      - by apply (proj1 (Forall_forall _ _) Hne). }
    rewrite volume_detail_other // in Hdv. injection Hdv as <-.
    unfold run_selection, get_share_volume. rewrite Hds Hlist Hvolid Hshareid.
    by rewrite select_volume_placeholder.
  - intros Hlist.
    destruct (volume_details_of_taken_in (vols1 ++ v :: vols2) []) as (ds & Hds & Hall).
    { apply Forall_app. split; [|constructor; [by intros ?|done]].
      eapply Forall_impl; [exact H1|]. by intros x [_ ?] _. }
    apply Forall2_app_inv_l in Hall as (ds1 & ds' & Hds1 & Hds' & ->).
    inversion Hds' as [|? dv ? ds2 Hdv Hds2]; subst.
    rewrite volume_detail_other // in Hdv. injection Hdv as <-.
    unfold run_selection, get_share_volume. rewrite Hds Hlist. simpl app.
    assert (Hlines : ∀ text out,
      ∃ out', list_details text ["id"; "name"; "ip"; "path"] (ds1 ++ ∅ :: ds2) out
              = (Raise (KeyError "id"), out ++ out')
        ∧ length out' = length vols1).
    { intros text. clear -H1 Hds1.
      induction Hds1 as [|x d vols1 ds1 Hd _ IH]; intros out.
      - exists []. by rewrite app_nil_r.
      - rewrite -app_comm_cons. cbn [list_details].
        inversion H1 as [|? ? Hx H1']; subst.
        assert (∃ vs, subscripts d ["id"; "name"; "ip"; "path"] = Ok vs) as [vs Hvs].
        { destruct Hx as [Ht Ha]. unfold volume_detail in Hd.
          rewrite bool_decide_eq_true_2 // in Hd.
          destruct (ve_addresses x) as [|a ?]; [done|]. injection Hd as <-.
          eexists. reflexivity. }
        rewrite Hvs. destruct (IH H1' (out ++ [mkLog INFO text (fval_of <$> vs)]))
          as (out' & -> & Hlen).
        eexists (_ :: out'). rewrite -app_assoc. split; [done|]. simpl. by rewrite Hlen. }
    destruct (Hlines "  {volume['id']}: {volume['name']} {volume['ip']}:{volume['path']}"
                [mkLog INFO "Volumes:" []]) as (out' & -> & Hlen).
    simpl. eexists. split; [done|]. split.
    + rewrite /= length_app /=. lia.
    + by rewrite app_comm_cons last_snoc.
Qed.

(** X19. When every entry of the listing is a storage volume and none
    bears the wanted id, [run] exits with code 1 after one error
    record that names the id; a volume id that is found with a share id
    that no share bears does the same for the share.  In neither case
    is anything mounted. *)
Theorem unknown_id_exits (args : Args) (volid shareid : Z)
    (volumes_json : list VolumeEntry) (shares_json : list ShareEntry) :
  args_list_volumes args = false →
  args_volid args = Some volid →
  args_shareid args = Some shareid →
  Forall storage_volume volumes_json →
  (Forall (fun x => ve_internalId x ≠ volid) volumes_json →
   run_selection args volumes_json shares_json
   = (Exits 1, [mkLog ERROR "Volume id: {self.args.volid} not found" [FInt volid]]))
  ∧ (Exists (fun x => ve_internalId x = volid) volumes_json →
     Forall (fun x => se_internalId x ≠ shareid) shares_json →
     run_selection args volumes_json shares_json
     = (Exits 1, [mkLog ERROR "Share id: {self.args.shareid} not found" [FInt shareid]])).
Proof.
  intros Hlist Hvolid Hshareid Hall.
  destruct (volume_details_of_taken_in volumes_json []) as (ds & Hds & Hds2).
  { eapply Forall_impl; [exact Hall|]. by intros x [_ ?] _. }
  split.
  - intros Hne. unfold run_selection, get_share_volume. rewrite Hds Hlist Hvolid Hshareid.
    rewrite select_volume_none; [|by rewrite bool_decide_eq_true_2].
    simpl. clear Hds. induction Hds2 as [|x d vols ds Hd _ IH]; [done|].
    inversion Hall as [|? ? Hx Hall']; subst. inversion Hne as [|? ? Hx' Hne']; subst.
    constructor; [|by apply IH].
    destruct (volume_detail_storage x Hx) as (d' & Hd' & Hid & _).
    rewrite Hd in Hd'. injection Hd' as <-. eauto.
  - intros Hex Hshares.
    apply Exists_exists in Hex as (v & Hin & Hid).
    assert (∃ vols1 v' vols2, volumes_json = vols1 ++ v' :: vols2
              ∧ Forall (fun x => ve_internalId x ≠ volid) vols1 ∧ ve_internalId v' = volid)
      as (vols1 & v' & vols2 & -> & Hne & Hid').
    { clear -Hin Hid. induction volumes_json as [|x vols IH]; [by apply elem_of_nil in Hin|].
      destruct (decide (ve_internalId x = volid)) as [Hx|Hx].
      - exists [], x, vols. by split_and!.
      - apply elem_of_cons in Hin as [->|Hin]; [done|].
        destruct (IH Hin) as (vols1 & v' & vols2 & -> & Hne & Hid').
        exists (x :: vols1), v', vols2. split_and!; [done| |done]. by constructor. }
    apply Forall_app in Hall as [Hall1 Hall2].
    inversion Hall2 as [|? ? Hv' Hall3]; subst.
    destruct (details_split vols1 v' vols2 (ve_internalId v))
      as (ds1 & dv & ds2 & Hds' & Hdv & Hds1).
    { apply Forall_forall. intros x Hx. split.
      - by apply (proj1 (Forall_forall _ _) Hall1).
      - by apply (proj1 (Forall_forall _ _) Hne). }
    { by intros _; destruct Hv'. }
    { eapply Forall_impl; [exact Hall3|]. by intros x [_ ?] _. }
    destruct (volume_detail_storage v' Hv') as (dv' & Hdv' & Hid'' & _ & _ & Hnempty).
    rewrite Hdv in Hdv'. injection Hdv' as <-. rewrite Hid' in Hid''.
    unfold run_selection, get_share_volume. rewrite Hds' Hlist Hvolid Hshareid.
    rewrite select_volume_first //.
    rewrite bool_decide_eq_false_2 //.
    by rewrite select_share_none.
Qed.

End driver.

(* ------------------------------------------------------------------ *)
(** ** The shape of the target tree                                    *)
(* ------------------------------------------------------------------ *)

Section tree.

Lemma Path_eta (p : PurePath) : p = mkPath (root p) (parts p).
Proof. by destruct p. Qed.

Lemma startswith_slash_app (a x : string) :
  a ≠ "" → startswith_slash (a +:+ x) = startswith_slash a.
Proof. by destruct a. Qed.

Lemma length_lstrip_le (s : string) : (String.length (lstrip_slash s) ≤ String.length s)%nat.
Proof. induction s as [|c s IH]; simpl; [lia|]. destruct (is_slash c); simpl; lia. Qed.

(** What follows a path that has a character other than a slash does
    not change its root. *)
Lemma root_Path_app (a x : string) :
  lstrip_slash a ≠ "" → root (Path (a +:+ x)) = root (Path a).
Proof.
  intros Ha. assert (a ≠ "") as Hne by (by intros ->).
  unfold Path, splitroot. rewrite startswith_slash_app //.
  destruct (startswith_slash a); [|done].
  rewrite lstrip_slash_app bool_decide_eq_false_2 // !length_app_str.
  pose proof (length_lstrip_le a).
  replace (String.length a + String.length x - (String.length (lstrip_slash a) + String.length x))%nat
    with (String.length a - String.length (lstrip_slash a))%nat by lia.
  by destruct (_ =? _)%nat.
Qed.

(** A relative path after slashes only leaves the root to the
    slashes. *)
Lemma root_Path_slashes (a b : string) :
  lstrip_slash a = "" → startswith_slash b = false →
  root (Path (a +:+ b)) = root (Path a).
Proof.
  intros Ha Hb. destruct (decide (a = "")) as [->|Hne].
  - rewrite app_nil_str. by rewrite Path_rel.
  - unfold Path, splitroot. rewrite startswith_slash_app //.
    destruct (startswith_slash a); [|done].
    rewrite lstrip_slash_app Ha bool_decide_eq_true_2 // lstrip_not_startswith //.
    rewrite length_app_str /=.
    replace (String.length a + String.length b - String.length b)%nat
      with (String.length a - 0)%nat by lia.
    by destruct (_ =? _)%nat.
Qed.

Lemma lstrip_slash_nonempty (a : string) :
  a ≠ "" → endswith_slash a = false → lstrip_slash a ≠ "".
Proof.
  induction a as [|c a IH]; [done|]. intros _ He.
  change (lstrip_slash (String c a))
    with (if is_slash c then lstrip_slash a else String c a).
  destruct (is_slash c) eqn:Hc; [|done].
  destruct a as [|c' a]; [simpl in He; congruence|]. by apply IH.
Qed.

Lemma root_join (a b : string) :
  startswith_slash b = false → root (Path (os_path_join a b)) = root (Path a).
Proof.
  intros Hb. unfold os_path_join. rewrite Hb.
  destruct (bool_decide (a = "")) eqn:Ha; simpl.
  - apply bool_decide_eq_true in Ha as ->. by rewrite app_nil_str Path_rel.
  - apply bool_decide_eq_false in Ha.
    destruct (endswith_slash a) eqn:He.
    + destruct (decide (lstrip_slash a = "")) as [Hs|Hs].
      * by apply root_Path_slashes.
      * by apply root_Path_app.
    + by apply root_Path_app, lstrip_slash_nonempty.
Qed.

(** [os.path.join] with a plain name is the [/] of [pathlib]. *)
Lemma Path_join (a fn : string) :
  valid_part fn = true →
  Path (os_path_join a fn) = mkPath (root (Path a)) (parts (Path a) ++ [fn]).
Proof.
  intros Hfn. rewrite (Path_eta (Path (os_path_join a fn))).
  by rewrite root_join ?parts_join //; apply valid_part_not_startswith.
Qed.

Lemma parts_Path_lstrip (s : string) : parts (Path (lstrip_slash s)) = parts (Path s).
Proof. by rewrite !parts_Path filter_keep_lstrip. Qed.

Lemma drop_str_app_le (s t : string) (n : nat) :
  (n ≤ String.length s)%nat → drop_str n (s +:+ t) = drop_str n s +:+ t.
Proof.
  revert n. induction s as [|c s IH]; intros [|n] Hn; simpl in *; try done; try lia.
  apply IH. lia.
Qed.

Lemma endswith_slash_app (s r : string) :
  r ≠ "" → endswith_slash (s +:+ r) = endswith_slash r.
Proof.
  intros Hr. induction s as [|c s IH]; [done|].
  rewrite app_cons_str. simpl. destruct (s +:+ r) eqn:E; [by destruct s, r|done].
Qed.

(** The components of what is left of an entry's path after a prefix of
    the directory *)
Lemma parts_rest_join (sharemnt dirpath fn : string) :
  is_prefix_str sharemnt dirpath = true → valid_part fn = true →
  parts (Path (drop_str (String.length sharemnt) (os_path_join dirpath fn)))
  = parts (Path (drop_str (String.length sharemnt) dirpath)) ++ [fn].
Proof.
  intros Hpre Hfn. pose proof (is_prefix_str_app _ _ Hpre) as Hdir.
  remember (drop_str (String.length sharemnt) dirpath) as rest eqn:Hrest.
  assert (Hlen : (String.length sharemnt ≤ String.length dirpath)%nat)
    by (rewrite Hdir length_app_str; lia).
  unfold os_path_join. rewrite (valid_part_not_startswith fn Hfn).
  destruct (bool_decide (dirpath = "")) eqn:Hd; simpl.
  - apply bool_decide_eq_true in Hd. subst dirpath.
    destruct sharemnt; [|done]. rewrite app_nil_str in Hd. rewrite Hd /=. rewrite parts_Path.
    rewrite (split_slash_single fn); [by apply valid_part_no_slash|].
    rewrite (filter_cons_True _ fn); [apply Is_true_true; by apply valid_part_keep|]. done.
  - destruct (endswith_slash dirpath) eqn:He.
    + rewrite drop_str_app_le // -Hrest.
      destruct (decide (rest = "")) as [Hr|Hr].
      * rewrite Hr app_nil_str /=. rewrite parts_Path.
        rewrite (split_slash_single fn); [by apply valid_part_no_slash|].
        rewrite (filter_cons_True _ fn); [apply Is_true_true; by apply valid_part_keep|]. done.
      * assert (endswith_slash rest = true) as Hre
          by (by rewrite -(endswith_slash_app sharemnt rest) // -Hdir).
        apply endswith_slash_inv in Hre as [r' Hr']. rewrite Hr'.
        by rewrite app_assoc_str parts_Path_file // parts_Path_slash.
    + rewrite drop_str_app_le // -Hrest. by rewrite parts_Path_file.
Qed.

Lemma length_join (a fn : string) :
  valid_part fn = true → (String.length a < String.length (os_path_join a fn))%nat.
Proof.
  intros Hfn. unfold os_path_join. rewrite (valid_part_not_startswith fn Hfn).
  assert (0 < String.length fn)%nat.
  { destruct fn; [done|simpl; lia]. }
  repeat case_match; rewrite !length_app_str /=; lia.
Qed.

(** What [Path] reads back from the target path of a directory, when
    the share is not mapped to a bare root *)
Lemma Path_compute_vol_path (sharemnt share_root volmnt dirpath : string) :
  parts (Path volmnt) ++ parts (Path share_root) ≠ [] →
  Path (compute_vol_path sharemnt share_root volmnt dirpath)
  = mkPath (root (Path volmnt))
      (parts (Path volmnt) ++ parts (Path share_root)
       ++ if len sharemnt =? len dirpath then []
          else parts (Path (drop_str (String.length sharemnt) dirpath))).
Proof.
  intros Hne. rewrite (Path_eta (Path (compute_vol_path _ _ _ _))).
  destruct (Path_combine_paths volmnt share_root) as (Hp1 & _ & Hr1).
  rewrite parts_Path_lstrip in Hp1, Hr1. specialize (Hr1 Hne).
  unfold compute_vol_path. destruct (len sharemnt =? len dirpath); simpl.
  - by rewrite Hp1 Hr1 app_nil_r.
  - destruct (Path_combine_paths (combine_paths volmnt share_root)
                (drop_str (String.length sharemnt) dirpath)) as (Hp2 & _ & Hr2).
    rewrite parts_Path_lstrip Hp1 in Hp2, Hr2.
    rewrite Hp2 Hr2 ?Hr1 -?app_assoc //.
    intros E. apply app_eq_nil in E as [E1 E2]. apply app_eq_nil in E2 as [E2 _].
    apply Hne. by rewrite E1 E2.
Qed.

(** X20. The target tree has the shape of the source tree: the target
    path of a subdirectory is the entry of that name in the target path
    of its parent, so that the directory made for a subdirectory stands
    where the walk of the parent expects it and beside the links of the
    parent's files.  The share is mapped below a directory of the
    volume mount, not onto a bare root. *)
Theorem subdirectory_target_below_parent_target (sharemnt share_root volmnt dirpath sub : string) :
  is_prefix_str sharemnt dirpath = true →
  valid_part sub = true →
  (parts (Path volmnt) ++ parts (Path share_root) ≠ []) →
  key (compute_vol_path sharemnt share_root volmnt (os_path_join dirpath sub))
  = key (os_path_join (compute_vol_path sharemnt share_root volmnt dirpath) sub)
  ∧ parent (key (compute_vol_path sharemnt share_root volmnt (os_path_join dirpath sub)))
    = key (compute_vol_path sharemnt share_root volmnt dirpath).
Proof.
  intros Hpre Hsub Hne.
  assert (Hchild : Path (compute_vol_path sharemnt share_root volmnt (os_path_join dirpath sub))
            = mkPath (root (Path volmnt))
                (parts (Path (compute_vol_path sharemnt share_root volmnt dirpath)) ++ [sub])).
  { rewrite !Path_compute_vol_path //. simpl.
    pose proof (is_prefix_str_app _ _ Hpre) as Hdir.
    assert ((len sharemnt =? len (os_path_join dirpath sub)) = false) as ->.
    { apply Z.eqb_neq. unfold len. pose proof (length_join dirpath sub Hsub) as Hlt.
      assert (String.length sharemnt ≤ String.length dirpath)%nat
        by (rewrite Hdir length_app_str; lia).
      lia. }
    rewrite parts_rest_join //.
    destruct (len sharemnt =? len dirpath) eqn:Hlen.
    - assert (drop_str (String.length sharemnt) dirpath = "") as ->.
      { apply (len_app_same sharemnt). by rewrite -Hdir. }
      by rewrite -!app_assoc.
    - by rewrite -!app_assoc. }
  assert (Hjoin : Path (os_path_join (compute_vol_path sharemnt share_root volmnt dirpath) sub)
            = mkPath (root (Path volmnt))
                (parts (Path (compute_vol_path sharemnt share_root volmnt dirpath)) ++ [sub])).
  { rewrite Path_join //. by rewrite (Path_compute_vol_path _ _ _ dirpath). }
  split.
  - unfold key. by rewrite Hchild Hjoin.
  - unfold parent, key.
    rewrite (Path_path_str (Path _) (Path_valid _)) Hchild /= removelast_last.
    by rewrite (Path_compute_vol_path _ _ _ dirpath).
Qed.

End tree.

(* ------------------------------------------------------------------ *)
(** ** The further statements at the example share                     *)
(* ------------------------------------------------------------------ *)

Lemma get_inode_info_clears_sanitized_name_witness :
  sanitized "/mnt/share/d/a?b.txt" = "/mnt/share/d/a_TEMPQMARK_b.txt"
  ∧ share collision_world !! key "/mnt/share/d/a_TEMPQMARK_b.txt"
    = Some (mkInode (reg_stat 7) "" Malformed)
  ∧ share (get_inode_info "/mnt/share/d/a?b.txt" collision_world).2
      !! key (sanitized "/mnt/share/d/a?b.txt") = None.
Proof.
  split; [reflexivity|]. split; [vm_compute; reflexivity|].
  refine (proj1 (proj2 (proj2 (get_inode_info_clears_sanitized_name "/mnt/share/d/a?b.txt"
            collision_world (mkInode (reg_stat 20) "" (placed 7 "/x/ab.txt")) _ _ _ _ _)))).
  - reflexivity.
  - vm_compute. reflexivity.
  - reflexivity.
  - intros _ m Hm. vm_compute in Hm. injection Hm as <-. split; reflexivity.
  - vm_compute. discriminate.
Defined.

Lemma regular_file_linked_to_first_instance_witness :
  ∃ w', migrate_entry "/mnt/share/d" example_logger "/mnt/vol" 7 "/mnt/vol/x" "file.TXT"
          (∅, 0) example_world
        = (Ok (tally (∅, 0) ".txt" 10), w')
    ∧ volume w' !! key "/mnt/vol/x/file.TXT" = Some (mkInode (reg_stat 10) "" Malformed)
    ∧ last (calls w') = Some (Sys_link "/mnt/vol/x/file.txt" "/mnt/vol/x/file.TXT").
Proof.
  destruct (regular_file_linked_to_first_instance "/mnt/share/d" example_logger "/mnt/vol" 7
              "/mnt/vol/x" "file.TXT" (∅, 0) example_world
              (mkInode (reg_stat 10) "" (placed 7 "/x/file.txt"))
              (mkInode (reg_stat 10) "" Malformed)
              (mkInfo (Some [mkInstance 7 "/x/file.txt"]) None)
              [] [] (mkInstance 7 "/x/file.txt"))
    as (w' & Hrun & Hnew & _ & Hcall & _).
  - vm_compute. reflexivity.
  - reflexivity.
  - reflexivity.
  - reflexivity.
  - constructor.
  - reflexivity.
  - vm_compute. reflexivity.
  - reflexivity.
  - exists (mkInode (dir_stat 0) "" Malformed). split; [vm_compute|]; reflexivity.
  - reflexivity.
  - intros Hq. vm_compute in Hq. discriminate.
  - exists w'. split; [exact Hrun|]. split; [exact Hnew|exact Hcall].
Defined.

Lemma symlink_entry_recreated_witness :
  ∃ w' m, migrate_entry "/mnt/share/d" example_logger "/mnt/vol" 7 "/mnt/vol/x" "link"
            (∅, 0) example_world
          = (Ok (tally (∅, 0) "" 8), w')
    ∧ volume w' !! key "/mnt/vol/x/link" = Some m
    ∧ i_link m = "file.TXT" ∧ st_uid (i_stat m) = 1000.
Proof.
  destruct (symlink_entry_recreated "/mnt/share/d" example_logger "/mnt/vol" 7
              "/mnt/vol/x" "link" (∅, 0) example_world
              (mkInode (lnk_stat 8) "file.TXT" Malformed))
    as (w' & Hrun & _ & (m & Hm & Huid & _ & Hnew) & _).
  - vm_compute. reflexivity.
  - reflexivity.
  - exists (mkInode (dir_stat 0) "" Malformed). split; [vm_compute|]; reflexivity.
  - reflexivity.
  - exists w', m. split; [exact Hrun|]. split; [exact Hm|].
    split; [exact (proj1 Hnew)|exact Huid].
Defined.

Lemma special_file_counted_not_migrated_witness :
  ∃ w', migrate_entry "/mnt/share/d" example_logger "/mnt/vol" 7 "/mnt/vol/x" "pipe"
          (∅, 0) example_world
        = (Ok (tally (∅, 0) "" 0), w')
    ∧ volume w' = example_volume.
Proof.
  destruct (special_file_counted_not_migrated "/mnt/share/d" example_logger "/mnt/vol" 7
              "/mnt/vol/x" "pipe" (∅, 0) example_world (mkInode fifo_stat "" Malformed))
    as (w' & Hrun & _ & Hvol & _).
  - vm_compute. reflexivity.
  - discriminate.
  - discriminate.
  - exists w'. split; [exact Hrun|exact Hvol].
Defined.

Lemma symlinked_directory_becomes_symlink_witness :
  ∃ w' m, link_run example_world = (Ok (mkSummary "/mnt/share/ln" 1 ∅ 0), w')
    ∧ volume w' !! "/mnt/vol/x/ln" = Some m
    ∧ i_link m = "d" ∧ S_ISLNK (st_mode (i_stat m)) = true.
Proof.
  destruct (symlinked_directory_becomes_symlink "/mnt/share/ln" example_logger
              "/mnt/share" "/x" "/mnt/vol" 7 ["file.TXT"] example_world
              (mkInode (lnk_stat 1) "d" Malformed))
    as (w' & Hrun & _ & (m & Hm & _ & _ & Hnew) & _).
  - reflexivity.
  - vm_compute. reflexivity.
  - reflexivity.
  - exists (mkInode (dir_stat 0) "" Malformed). split; [vm_compute|]; reflexivity.
  - exists w', m. split; [exact Hrun|]. split; [exact Hm|exact Hnew].
Defined.

Lemma missing_directory_raises_before_any_change_witness :
  ∃ w', example_run "/mnt/share/none" ["f"] example_logger example_world
        = (Raise (no_such "/mnt/share/none"), w')
    ∧ volume w' = example_volume.
Proof.
  destruct (missing_directory_raises_before_any_change "/mnt/share/none" example_logger
              "/mnt/share" "/share1" "/mnt/vol" 7 ["f"] example_world)
    as (w' & Hrun & _ & Hvol & _).
  - vm_compute. reflexivity.
  - exists w'. split; [exact Hrun|exact Hvol].
Defined.

Lemma directory_attributes_copied_witness :
  ∃ m, volume first_run.2 !! key "/mnt/vol/share1/d/" = Some m
    ∧ st_uid (i_stat m) = 1000
    ∧ S_IMODE (st_mode (i_stat m)) = S_IMODE 16877
    ∧ S_ISDIR (st_mode (i_stat m)) = true.
Proof.
  destruct (directory_attributes_copied "/mnt/share/d" example_logger "/mnt/share" "/share1"
              "/mnt/vol" 7 example_names example_world first_run.2 first_summary
              (mkInode (dir_stat 1000) "" Malformed))
    as (m & Hm & Huid & _ & Hmode & Hdir).
  - vm_compute. reflexivity.
  - discriminate.
  - repeat constructor.
  - vm_compute. reflexivity.
  - exists m. split; [exact Hm|]. split; [exact Huid|]. split; [exact Hmode|].
    apply Hdir. vm_compute. exact I.
Defined.

Lemma example_names_clear :
  ∀ fn, fn ∈ example_names →
        sanitized_clear (share example_world) (os_path_join "/mnt/share/d" fn).
Proof.
  intros fn Hfn Hq m Hm. unfold example_names in Hfn.
  rewrite !elem_of_cons elem_of_nil in Hfn.
  destruct Hfn as [->|[->|[->|[->|[->|[]]]]]]; vm_compute in Hq, Hm; discriminate.
Defined.

Lemma migration_complete_witness :
  (∃ m', volume first_run.2 !! key "/mnt/vol/share1/d/link" = Some m'
       ∧ S_ISLNK (st_mode (i_stat m')) = true ∧ i_link m' = "file.TXT")
  ∧ (∃ m', volume first_run.2 !! key "/mnt/vol/share1/d/file.TXT" = Some m'
         ∧ same_content (mkInode (reg_stat 10) "" Malformed) m').
Proof.
  pose proof (migration_complete "/mnt/share/d" example_logger "/mnt/share" "/share1"
                "/mnt/vol" 7 example_names example_world first_run.2 first_summary
                (mkInode (dir_stat 1000) "" Malformed)) as H.
  split.
  - refine (proj1 (H _ _ _ _ _ _ "link" (mkInode (lnk_stat 8) "file.TXT" Malformed) _ _ _) _).
    + vm_compute. reflexivity.
    + discriminate.
    + repeat constructor.
    + exact example_names_clear.
    + vm_compute. exact I.
    + vm_compute. reflexivity.
    + rewrite !elem_of_cons. tauto.
    + vm_compute. reflexivity.
    + vm_compute. reflexivity.
    + reflexivity.
  - refine (proj2 (H _ _ _ _ _ _ "file.TXT" (mkInode (reg_stat 10) "" (placed 7 "/x/file.txt"))
                     _ _ _)
              (mkInfo (Some [mkInstance 7 "/x/file.txt"]) None) (mkInstance 7 "/x/file.txt")
              (mkInode (reg_stat 10) "" Malformed) _ _ _ _ _).
    + vm_compute. reflexivity.
    + discriminate.
    + repeat constructor.
    + exact example_names_clear.
    + vm_compute. exact I.
    + vm_compute. reflexivity.
    + rewrite !elem_of_cons. tauto.
    + vm_compute. reflexivity.
    + vm_compute. reflexivity.
    + reflexivity.
    + reflexivity.
    + reflexivity.
    + vm_compute. reflexivity.
    + reflexivity.
Defined.

Lemma deassimilate_dir_keeps_volume_witness :
  ∃ n', volume first_run.2 !! "/mnt/vol/x/file.txt" = Some n'
        ∧ same_content (mkInode (reg_stat 10) "" Malformed) n'.
Proof.
  refine (proj1 (deassimilate_dir_keeps_volume "/mnt/share/d" example_logger "/mnt/share"
                   "/share1" "/mnt/vol" 7 example_names example_world _ _)
            "/mnt/vol/x/file.txt" (mkInode (reg_stat 10) "" Malformed) _).
  - intros k m Hk Hm.
    assert (Hks : ancestors_and_self (Path (compute_vol_path "/mnt/share" "/share1" "/mnt/vol"
                                              "/mnt/share/d"))
                  = ["/mnt"; "/mnt/vol"; "/mnt/vol/share1"; "/mnt/vol/share1/d"])
      by (vm_compute; reflexivity).
    rewrite Hks !elem_of_cons elem_of_nil in Hk.
    destruct Hk as [->|[->|[->|[->|[]]]]]; vm_compute in Hm;
      first [discriminate | injection Hm as <-; reflexivity].
  - repeat constructor.
  - vm_compute. reflexivity.
Defined.

Lemma deassimilate_dir_source_read_only_witness :
  share first_run.2 ⊆ share example_world.
Proof.
  exact (proj1 (deassimilate_dir_source_read_only "/mnt/share/d" example_logger "/mnt/share"
                  "/share1" "/mnt/vol" 7 example_names example_world example_names_clear)).
Defined.

Lemma walk_enqueues_every_directory_witness :
  puts (walk_directories always_alive example_walker ["/mnt/share"; "/mnt/share/d"])
  = [Some ("/mnt/share", []); Some ("/mnt/share/d", []); None; None].
Proof.
  refine (proj1 (walk_enqueues_every_directory always_alive example_walker
                   ["/mnt/share"; "/mnt/share/d"] _)).
  intros j _. reflexivity.
Defined.

Lemma success_without_processing_result_witness :
  counters (hs_processor (results_handler_turn (mkTurn (Some bare_result) true)
                            example_handler).2)
  = (3, 5, 40).
Proof.
  generalize (success_without_processing_result bare_result true example_handler
                eq_refl eq_refl).
  destruct (results_handler_turn (mkTurn (Some bare_result) true) example_handler) as [r s'].
  intros (_ & H & _). exact H.
Defined.

Lemma run_selects_first_match_witness :
  ∃ dv, dv !! "ip" = Some (JStr "10.0.0.3")
    ∧ run_selection example_args [volume_a; volume_b; volume_group] [share_one; share_two]
      = (Returns (mkSelection dv (share_detail share_two) (Some (JStr "/share2"))), []).
Proof.
  destruct (run_selects_first_match example_args 8 4 [volume_a] volume_b [volume_group]
              [share_one] share_two [])
    as (dv & _ & Hip & _ & Hrun).
  - reflexivity.
  - reflexivity.
  - reflexivity.
  - repeat constructor; discriminate.
  - split; [reflexivity|discriminate].
  - reflexivity.
  - repeat constructor. discriminate.
  - repeat constructor. discriminate.
  - reflexivity.
  - exists dv. split; [exact Hip|exact Hrun].
Defined.

Lemma non_storage_entry_stops_run_witness :
  main_run (run_selection example_args [volume_a; volume_group; volume_b]
              [share_one; share_two])
  = (Exits 1, [mkLog ERROR "Error during deassimilation: {e}" [FExn (KeyError "id")]]).
Proof.
  refine (proj1 (non_storage_entry_stops_run example_args [volume_a] volume_group [volume_b]
                   [share_one; share_two] _ _ _) 8 4 _ _ _ _).
  - repeat constructor; discriminate.
  - discriminate.
  - repeat constructor. discriminate.
  - reflexivity.
  - reflexivity.
  - reflexivity.
  - repeat constructor. discriminate.
Defined.

Lemma unknown_id_exits_witness :
  run_selection (mkArgs false (Some 5) (Some 4)) [volume_a; volume_b] [share_one; share_two]
  = (Exits 1, [mkLog ERROR "Volume id: {self.args.volid} not found" [FInt 5]]).
Proof.
  refine (proj1 (unknown_id_exits (mkArgs false (Some 5) (Some 4)) 5 4 [volume_a; volume_b]
                   [share_one; share_two] _ _ _ _) _).
  - reflexivity.
  - reflexivity.
  - reflexivity.
  - repeat constructor; discriminate.
  - repeat constructor; discriminate.
Defined.

Lemma subdirectory_target_below_parent_target_witness :
  key (compute_vol_path "/mnt/share" "/share1" "/mnt/vol" (os_path_join "/mnt/share/d" "e"))
  = key (os_path_join "/mnt/vol/share1/d/" "e").
Proof.
  refine (proj1 (subdirectory_target_below_parent_target "/mnt/share" "/share1" "/mnt/vol"
                   "/mnt/share/d" "e" _ _ _)).
  - reflexivity.
  - reflexivity.
  - discriminate.
Defined.

(* ------------------------------------------------------------------ *)
(** ** The path mapping, by components                                 *)
(* ------------------------------------------------------------------ *)

Section mapping.

(** C4. For every [dirpath] under [sharemnt], the target path that
    [deassimilate_dir] computes is the volume mount joined with the
    share root joined with what is left of [dirpath] after the share
    mount prefix: its components are those of the volume mount, then
    those of the share root, then those of the remainder, it is
    absolute exactly when the volume mount is, and it ends in a slash.
    Whenever the volume mount joined with the share root has a
    component, the string returned is the root of the volume mount,
    these components separated by slashes, and a final slash.  The
    mapping is a function of its four arguments only, so equal
    arguments give equal results. *)
Theorem path_mapping_pure (sharemnt share_root volmnt dirpath : string) :
  is_prefix_str sharemnt dirpath = true →
  let rest := drop_str (String.length sharemnt) dirpath in
  let target := parts (Path volmnt) ++ parts (Path share_root) ++ parts (Path rest) in
  let vol_path := compute_vol_path sharemnt share_root volmnt dirpath in
  parts (Path vol_path) = target
  ∧ is_absolute (Path vol_path) = is_absolute (Path volmnt)
  ∧ endswith_slash vol_path = true
  ∧ ((parts (Path volmnt) ++ parts (Path share_root) ≠ []) →
     vol_path = (root (Path volmnt) +:+ join_slash target) +:+ "/")
  ∧ (∀ sharemnt' share_root' volmnt' dirpath',
       sharemnt' = sharemnt → share_root' = share_root → volmnt' = volmnt →
       dirpath' = dirpath →
       compute_vol_path sharemnt' share_root' volmnt' dirpath' = vol_path).
Proof.
  intros Hpre rest target vol_path.
  pose proof (is_prefix_str_app _ _ Hpre) as Hdir. fold rest in Hdir.
  destruct (Path_combine_paths volmnt share_root) as (Hp1 & Ha1 & Hr1).
  rewrite parts_Path_lstrip in Hp1, Hr1.
  assert (Hrest : (len sharemnt =? len dirpath) = true → parts (Path rest) = []).
  { intros Hlen. assert (rest = "") as -> by (apply (len_app_same sharemnt); by rewrite -Hdir).
    done. }
  split_and!.
  - unfold vol_path, compute_vol_path, target.
    destruct (len sharemnt =? len dirpath) eqn:Hlen; simpl.
    + by rewrite Hp1 Hrest // app_nil_r.
    + destruct (Path_combine_paths (combine_paths volmnt share_root) rest) as (Hp2 & _ & _).
      by rewrite Hp2 Hp1 parts_Path_lstrip -app_assoc.
  - unfold vol_path, compute_vol_path.
    destruct (len sharemnt =? len dirpath); simpl; [done|].
    destruct (Path_combine_paths (combine_paths volmnt share_root) rest) as (_ & Ha2 & _).
    by rewrite Ha2.
  - unfold vol_path, compute_vol_path.
    case_match; rewrite combine_paths_eq; apply endswith_slash_snoc.
  - intros Hne. specialize (Hr1 Hne).
    assert (Hps : ∀ r ps, ps ≠ [] → path_str (mkPath r ps) = r +:+ join_slash ps).
    { intros r [|x ps] Hx; [done|]. unfold path_str. simpl. by destruct r. }
    assert (Hne' : target ≠ []).
    { unfold target. intros E. apply app_eq_nil in E as [E1 E2].
      apply app_eq_nil in E2 as [E2 _]. apply Hne. by rewrite E1 E2. }
    unfold vol_path, compute_vol_path.
    destruct (len sharemnt =? len dirpath) eqn:Hlen; simpl.
    + rewrite combine_paths_eq combined_eq parts_Path_lstrip.
      replace (parts (Path volmnt) ++ parts (Path share_root)) with target
        by (unfold target; by rewrite Hrest // app_nil_r).
      by rewrite Hps.
    + fold rest. rewrite combine_paths_eq combined_eq Hr1 Hp1 !parts_Path_lstrip -app_assoc.
      fold target. by rewrite Hps.
  - by intros ? ? ? ? -> -> -> ->.
Qed.

Lemma path_mapping_pure_witness :
  compute_vol_path "/mnt/share" "/share1" "/mnt/vol" "/mnt/share/a/b"
  = "/mnt/vol/share1/a/b/"
  ∧ parts (Path (compute_vol_path "/mnt/share" "/share1" "/mnt/vol" "/mnt/share/a/b"))
    = ["mnt"; "vol"; "share1"; "a"; "b"].
Proof.
  destruct (path_mapping_pure "/mnt/share" "/share1" "/mnt/vol" "/mnt/share/a/b" eq_refl)
    as (Hparts & _ & _ & Hstr & _).
  split; [apply Hstr; discriminate | exact Hparts].
Defined.

End mapping.

(* ------------------------------------------------------------------ *)
(** ** A second run after a collision of names                         *)
(* ------------------------------------------------------------------ *)

Section rerun_collision.

(** C5, where the code departs from it.  The directory holds a file
    "a?b.txt" and a file that bears its sanitized name,
    "a_TEMPQMARK_b.txt"; both are placed on the volume.  The first run
    returns its summary and links both, but the rename around the
    metadata query of "a?b.txt" has replaced the other file, which is
    gone from the share.  The second run on the same directory and
    names, against the target the first run made, finds its first entry
    missing and raises the error of the stat: it returns no summary. *)
Theorem second_run_fails_after_name_collision :
  let '(r1, w1) := example_run "/mnt/share/d" clobber_names example_logger clobber_world in
  (∃ s, r1 = Ok s ∧ total_files s = 2)
  ∧ is_Some (volume w1 !! "/mnt/vol/share1/d/a_TEMPQMARK_b.txt")
  ∧ is_Some (volume w1 !! "/mnt/vol/share1/d/a?b.txt")
  ∧ share w1 !! "/mnt/share/d/a_TEMPQMARK_b.txt" = None
  ∧ share w1 !! "/mnt/share/d/a?b.txt" = share clobber_world !! "/mnt/share/d/a?b.txt"
  ∧ (example_run "/mnt/share/d" clobber_names example_logger w1).1
    = Raise (no_such "/mnt/share/d/a_TEMPQMARK_b.txt")
  ∧ (example_run "/mnt/share/d" clobber_names None
       (example_run "/mnt/share/d" clobber_names None clobber_world).2).1
    = Raise (no_such "/mnt/share/d/a_TEMPQMARK_b.txt").
Proof.
  vm_compute. split_and!; try reflexivity.
  - eexists. split; reflexivity.
  - by eexists.
  - by eexists.
Qed.

End rerun_collision.
